(** * One-time-pad client/server (enc_server.c, dec_client.c, keygen.c)

    A shallow embedding of the C sources and the properties of the
    natural-language specification that can be stated over it.

    Conventions of the embedding (x86-64 Linux, the platform the programs
    were written for):
    - [char] is a signed 8-bit integer, [int] a signed 32-bit integer and
      [size_t] an unsigned 64-bit integer, all carried by [Z] with the
      wrap-around written out ([to_char], [to_int], [to_size_t]);
    - a C string is the list of the [char]s of its buffer, terminator
      included where the code relies on it;
    - a process either returns, exits with a status, runs into behaviour
      the C standard leaves undefined, is ended by a signal, or is still
      running, when the fuel given to its loops is used up or a call does
      not return ([outcome]). *)

From Stdlib Require Import ZArith String Ascii List Lia Bool.
Import ListNotations.
Local Open Scope Z_scope.

(** ** C integer types *)

Module CTypes.

Definition INT_MAX : Z := 2147483647.

(** Conversion to [char] (signed, 8 bits). *)
Definition to_char (z : Z) : Z := (z + 128) mod 256 - 128.

(** Conversion to [int] (signed, 32 bits). *)
Definition to_int (z : Z) : Z := (z + 2147483648) mod 4294967296 - 2147483648.

(** Conversion to [size_t] (unsigned, 64 bits). *)
Definition to_size_t (z : Z) : Z := z mod 18446744073709551616.

(** The value of a byte (0..255) of a socket or of a file as a [char]. *)
Definition char_of_byte (b : Z) : Z := to_char b.

(** The byte a [char] is stored as. *)
Definition byte_of_char (c : Z) : Z := c mod 256.

(** Character literals. *)
Definition chr (a : ascii) : Z := Z.of_N (N_of_ascii a).

Fixpoint chars (s : string) : list Z :=
  match s with
  | EmptyString => []
  | String a s' => chr a :: chars s'
  end.

(** [strlen] on a buffer: the number of [char]s before the first NUL
    (the whole buffer when it holds none). *)
Fixpoint strlen (buf : list Z) : nat :=
  match buf with
  | [] => O
  | c :: buf' => if c =? 0 then O else S (strlen buf')
  end.

(** The four bytes of an [int] in memory (little endian, two's complement):
    what [send(sock, &len, sizeof(len), 0)] puts on the wire. *)
Definition int_bytes (n : Z) : list Z :=
  let u := n mod 4294967296 in
  [u mod 256; (u / 256) mod 256; (u / 65536) mod 256; (u / 16777216) mod 256].

(** The [int] that four bytes of memory hold. *)
Definition bytes_int (bs : list Z) : Z :=
  match bs with
  | [b0; b1; b2; b3] => to_int (b0 + 256 * b1 + 65536 * b2 + 16777216 * b3)
  | _ => 0
  end.

(** The values of a [char]. *)
Definition char_range (c : Z) : Prop := -128 <= c <= 127.

End CTypes.
Import CTypes.

(** ** The alphabet of the data model

    [keygen.c] draws its symbols from the literal
    ["ABCDEFGHIJKLMNOPQRSTUVWXYZ "]; the rank of a symbol is its position in
    that literal (A-Z are 0-25, the space is 26). *)

Module Alphabet.

Definition symbols : list Z := chars "ABCDEFGHIJKLMNOPQRSTUVWXYZ ".

Fixpoint index_of (c : Z) (l : list Z) : nat :=
  match l with
  | [] => O
  | x :: l' => if x =? c then O else S (index_of c l')
  end.

Definition rank (c : Z) : Z := Z.of_nat (index_of c symbols).

Definition symbol_of_rank (r : Z) : Z := nth (Z.to_nat r) symbols 0.

Definition is_symbol (c : Z) : bool := existsb (Z.eqb c) symbols.

(** A text or key "drawn from the Alphabet". *)
Definition valid (s : list Z) : Prop := Forall (fun c => is_symbol c = true) s.

End Alphabet.

(** ** The cipher of [handleOtpComm] (enc_server.c, lines 165-175) *)

Module Cipher.

(** [text[i] == ' ' ? 26 : text[i] - 'A']. *)
Definition txtVal (c : Z) : Z := if c =? chr " " then 26 else c - chr "A".

(** [key[i] == ' ' ? 26 : key[i] - 'A']. *)
Definition keyVal (c : Z) : Z := if c =? chr " " then 26 else c - chr "A".

(** [(txtVal + keyVal) % 27]: C's [%] truncates towards zero. *)
Definition encVal (t k : Z) : Z := Z.rem (txtVal t + keyVal k) 27.

(** [result[i] = encVal == 26 ? ' ' : encVal + 'A'], stored in a [char]. *)
Definition encChar (t k : Z) : Z :=
  let e := encVal t k in
  to_char (if e =? 26 then chr " " else e + chr "A").

(** The loop [for (int i = 0; i < len; i++)], [n] iterations from index
    [i] on.  [text] and [key] are the whole buffers that [receive]
    allocated (payload and terminator); a read outside a buffer is
    undefined behaviour and ends the run with [None].  The first component
    is the list of the indices at which [key] was read. *)
Fixpoint otp_loop (text key : list Z) (i : nat) (n : nat)
  : list nat * option (list Z) :=
  match n with
  | O => ([], Some [])
  | S n' =>
      match nth_error text i, nth_error key i with
      | Some t, Some k =>
          let (reads, rest) := otp_loop text key (S i) n' in
          (i :: reads, option_map (cons (encChar t k)) rest)
      | _, _ => ([i], None)
      end
  end.

(** Lines 165-175 for the buffers [text] and [key] that [receive]
    returned: [len = (int)strlen(text)], then the loop. *)
Definition otp (text key : list Z) : list nat * option (list Z) :=
  let len := to_int (Z.of_nat (strlen text)) in
  otp_loop text key 0 (Z.to_nat len).

(** The encryption of a text under a key, both given as the sequences of
    their symbols: the buffers are these sequences followed by the
    terminator that [receive] writes. *)
Definition encrypt (text key : list Z) : option (list Z) :=
  snd (otp (text ++ [0]) (key ++ [0])).

Definition key_reads (text key : list Z) : list nat :=
  fst (otp (text ++ [0]) (key ++ [0])).

(** The result of the loop when every read is inside its buffer, as a
    function of the two symbol sequences (used to state what [otp_loop]
    returns). *)
Definition zip (T K : list Z) : list Z :=
  map (fun p => encChar (fst p) (snd p)) (combine T K).

(** Modelled from the spec: the decrypting counterpart of [handleOtpComm]
    (dec_server.c) is not among the sources.  Section 4.1: "for each
    position i, map text[i] and key[i] to ranks t, k (space -> 26) ...
    Decryption: result_rank = (t - k + 27) mod 27.  Map result_rank back to
    a symbol (26 -> space)". *)
Definition decSymbol (t k : Z) : Z :=
  Alphabet.symbol_of_rank ((Alphabet.rank t - Alphabet.rank k + 27) mod 27).

(** Modelled from the spec: the loop of the missing dec_server.c over the
    positions of the text, under the precondition of section 4.1 that the
    key is at least as long as the text ([None] otherwise). *)
Fixpoint spec_decrypt (text key : list Z) : option (list Z) :=
  match text with
  | [] => Some []
  | t :: text' =>
      match key with
      | [] => None
      | k :: key' => option_map (cons (decSymbol t k)) (spec_decrypt text' key')
      end
  end.

Inductive direction := ENCRYPT | DECRYPT.

(** [transform(text, key, direction)] of section 4.1: the code of
    enc_server.c for [ENCRYPT], the spec's formula for [DECRYPT]. *)
Definition transform (text key : list Z) (d : direction) : option (list Z) :=
  match d with
  | ENCRYPT => encrypt text key
  | DECRYPT => spec_decrypt text key
  end.

End Cipher.

(** ** Processes, sockets and files *)

Module Sys.

(** What the transport delivers to the successive [recv] calls: segments
    of bytes, or an error.  When nothing is left the peer has closed the
    connection and [recv] returns 0. *)
Inductive rx_event := RxData (bytes : list Z) | RxError.

(** How the transport answers the successive [send] calls: it takes at
    most [n] bytes of the request; or the call fails and returns -1; or
    the peer has closed the connection and the call raises SIGPIPE, which
    neither program handles or ignores; or the call never returns.  When
    nothing is left every request is taken whole. *)
Inductive tx_event := TxAccept (n : nat) | TxError | TxSigpipe | TxBlocks.

Definition SIGPIPE : Z := 13.

(** Calls on the network, in the order they were made. *)
Inductive netop :=
| OpSocket
| OpResolve (host : string)
| OpConnect
| OpBind
| OpListen
| OpSend (request : list Z) (result : Z)
| OpRecv (size : Z) (result : Z)
| OpClose.

(** An argument of a [printf]-style format. *)
Inductive arg := ArgS (s : string) | ArgC (c : Z) | ArgD (d : Z).

(** What the process cannot influence. *)
Record environ := {
  files : string -> option (list Z);   (* [fopen(path, "r")]: the bytes of the file *)
  malloc_ok : Z -> bool;               (* whether [malloc] of that size succeeds *)
  socket_ok : bool;
  host_ok : bool;                      (* [gethostbyname] finds the host *)
  connect_ok : bool;
  bind_ok : bool
}.

Record world := {
  env : environ;
  rx : list rx_event;
  tx : list tx_event;
  wire : list Z;                       (* the bytes the transport took from [send] *)
  net : list netop;
  stderr : list (string * list arg);   (* one entry per call of [error] *)
  stdout : list (list Z)               (* one entry per [printf("%s\n", ...)] *)
}.

Definition set_rx (q : list rx_event) (w : world) : world :=
  {| env := env w; rx := q; tx := tx w; wire := wire w; net := net w;
     stderr := stderr w; stdout := stdout w |}.

Definition set_tx (q : list tx_event) (w : world) : world :=
  {| env := env w; rx := rx w; tx := q; wire := wire w; net := net w;
     stderr := stderr w; stdout := stdout w |}.

Definition put_wire (bs : list Z) (w : world) : world :=
  {| env := env w; rx := rx w; tx := tx w; wire := wire w ++ bs; net := net w;
     stderr := stderr w; stdout := stdout w |}.

Definition log_net (op : netop) (w : world) : world :=
  {| env := env w; rx := rx w; tx := tx w; wire := wire w; net := net w ++ [op];
     stderr := stderr w; stdout := stdout w |}.

Definition put_stderr (m : string * list arg) (w : world) : world :=
  {| env := env w; rx := rx w; tx := tx w; wire := wire w; net := net w;
     stderr := stderr w ++ [m]; stdout := stdout w |}.

Definition put_stdout (s : list Z) (w : world) : world :=
  {| env := env w; rx := rx w; tx := tx w; wire := wire w; net := net w;
     stderr := stderr w; stdout := stdout w ++ [s] |}.

(** A world in which nothing has happened yet. *)
Definition start (e : environ) (incoming : list rx_event) (sends : list tx_event)
  : world :=
  {| env := e; rx := incoming; tx := sends; wire := []; net := [];
     stderr := []; stdout := [] |}.

(** An environment in which every allocation and every socket call
    succeeds, with the given files. *)
Definition fair (fs : string -> option (list Z)) : environ :=
  {| files := fs; malloc_ok := fun _ => true; socket_ok := true;
     host_ok := true; connect_ok := true; bind_ok := true |}.

Definition no_files : string -> option (list Z) := fun _ => None.

(** One more file. *)
Definition with_file (path : string) (content : list Z)
  (fs : string -> option (list Z)) : string -> option (list Z) :=
  fun p => if String.eqb p path then Some content else fs p.

(** How a (part of a) process ends. *)
Inductive outcome (A : Type) :=
| Ret (a : A)            (* it returns [a] *)
| Exit (status : Z)      (* [exit(status)] *)
| Undef                  (* undefined behaviour *)
| Running                (* it has not ended: the fuel of a loop is used up,
                            or a call does not return *)
| Killed (signal : Z).   (* a signal with its default action ends the process *)
Arguments Ret {A} a.
Arguments Exit {A} status.
Arguments Undef {A}.
Arguments Running {A}.
Arguments Killed {A} signal.

Definition M (A : Type) : Type := world -> outcome A * world.

Definition ret {A} (a : A) : M A := fun w => (Ret a, w).

Definition bind {A B} (c : M A) (k : A -> M B) : M B :=
  fun w =>
    match c w with
    | (Ret a, w') => k a w'
    | (Exit s, w') => (Exit s, w')
    | (Undef, w') => (Undef, w')
    | (Running, w') => (Running, w')
    | (Killed k, w') => (Killed k, w')
    end.

Definition exit {A} (status : Z) : M A := fun w => (Exit status, w).
Definition undef {A} : M A := fun w => (Undef, w).
Definition running {A} : M A := fun w => (Running, w).

Declare Scope proc_scope.
Delimit Scope proc_scope with proc.
Notation "x <- c ;; k" := (bind c (fun x => k))
  (at level 61, c at next level, right associativity) : proc_scope.
Notation "' p <- c ;; k" := (bind c (fun x => let p := x in k))
  (at level 61, p pattern, c at next level, right associativity) : proc_scope.
Notation "c ;; k" := (bind c (fun _ => k))
  (at level 61, right associativity) : proc_scope.

(** [error(exitCode, format, ...)] of both programs: the message goes to
    standard error and the process exits with [exitCode]. *)
Definition error {A} (exitCode : Z) (format : string) (args : list arg) : M A :=
  fun w => (Exit exitCode, put_stderr (format, args) w).

Definition malloc (size : Z) : M bool := fun w => (Ret (malloc_ok (env w) size), w).

(** The first segment with data in it gives [recv] up to [size] bytes;
    the rest of the segment stays for the next call. *)
Fixpoint recv_from (q : list rx_event) (size : nat) : Z * list Z * list rx_event :=
  match q with
  | [] => (0, [], [])
  | RxError :: q' => (-1, [], q')
  | RxData [] :: q' => recv_from q' size
  | RxData bs :: q' =>
      (Z.of_nat (length (firstn size bs)), firstn size bs,
       match skipn size bs with
       | [] => q'
       | rest => RxData rest :: q'
       end)
  end.

(** The bytes a stream still carries, and the streams without an error. *)
Fixpoint rx_bytes (q : list rx_event) : list Z :=
  match q with
  | [] => []
  | RxData bs :: q' => bs ++ rx_bytes q'
  | RxError :: q' => rx_bytes q'
  end.

Definition rx_clean (q : list rx_event) : Prop := Forall (fun e => e <> RxError) q.

(** The next [n] bytes of the stream come in one segment: the first
    segment that carries data carries at least [n] bytes, so one [recv]
    of [n] bytes gets them all. *)
Fixpoint whole (n : nat) (q : list rx_event) : bool :=
  match q with
  | RxData [] :: q' => whole n q'
  | RxData bs :: _ => (n <=? length bs)%nat
  | _ => false
  end.

(** The stream once its first [n] bytes have been read: the segments read
    to their end are gone, the others are as they came. *)
Fixpoint drop_rx (n : nat) (q : list rx_event) : list rx_event :=
  match q with
  | [] => []
  | RxError :: _ => q
  | RxData bs :: q' =>
      if (n =? 0)%nat then q
      else if (length bs <=? n)%nat then drop_rx (n - length bs) q'
      else RxData (skipn n bs) :: q'
  end.

(** [recv(sock, buf, size, 0)]: the result and the bytes written to [buf]. *)
Definition recv (size : Z) : M (Z * list Z) :=
  fun w =>
    let '(r, bs, q) := recv_from (rx w) (Z.to_nat size) in
    (Ret (r, bs), log_net (OpRecv size r) (set_rx q w)).

(** [send(sock, buf, n, 0)] for the [n] bytes [data] of [buf].  The call
    is made with flags 0 (no MSG_NOSIGNAL) and no handler for SIGPIPE is
    installed, so a send to a peer that has closed ends the process; a
    send that never returns leaves it running.  Only a call that returns
    is entered in the log. *)
Definition send (data : list Z) : M Z :=
  fun w =>
    match tx w with
    | [] =>
        let r := Z.of_nat (length data) in
        (Ret r, log_net (OpSend data r) (put_wire data w))
    | TxAccept n :: q =>
        let r := Z.of_nat (length (firstn n data)) in
        (Ret r, log_net (OpSend data r) (put_wire (firstn n data) (set_tx q w)))
    | TxError :: q => (Ret (-1), log_net (OpSend data (-1)) (set_tx q w))
    | TxSigpipe :: q => (Killed SIGPIPE, set_tx q w)
    | TxBlocks :: q => (Running, set_tx q w)
    end.

Definition close : M unit := fun w => (Ret tt, log_net OpClose w).

Definition socket : M Z :=
  fun w => (Ret (if socket_ok (env w) then 3 else -1), log_net OpSocket w).

Definition connect : M Z :=
  fun w => (Ret (if connect_ok (env w) then 0 else -1), log_net OpConnect w).

Definition bind_socket : M Z :=
  fun w => (Ret (if bind_ok (env w) then 0 else -1), log_net OpBind w).

Definition listen : M unit := fun w => (Ret tt, log_net OpListen w).

(** A call of [recv], whatever its size and result. *)
Definition is_recv (op : netop) : Prop := exists size result, op = OpRecv size result.

(** The world after [n] calls of [close]. *)
Definition closes (n : nat) (w : world) : world := Nat.iter n (log_net OpClose) w.

(** What can be seen of a run from outside: how it ended, the calls on the
    network, standard error, standard output and the bytes sent. *)
Definition observe {A} (r : outcome A * world)
  : outcome A * list netop * list (string * list arg) * list (list Z) * list Z :=
  (fst r, net (snd r), stderr (snd r), stdout (snd r), wire (snd r)).

(** [strcmp] on two buffers; [None] when it would read past one of them. *)
Fixpoint strcmp (a b : list Z) : option Z :=
  match a, b with
  | x :: a', y :: b' =>
      if x =? y then (if x =? 0 then Some 0 else strcmp a' b')
      else Some (x mod 256 - y mod 256)
  | _, _ => None
  end.

End Sys.
Import Sys.
Local Open Scope proc_scope.

(** ** Framed transport: [sendData] and [receive]

    The two functions are the same text in enc_server.c and dec_client.c
    (lines 75-89 and 101-123 of both). *)

Module Framing.

Definition BUFFER_SIZE : Z := 1000.

(** The [charsSent] bytes at [data + i]. *)
Definition slice (data : list Z) (i n : Z) : list Z :=
  map byte_of_char (firstn (Z.to_nat n) (skipn (Z.to_nat i) data)).

(** [for (int i = 0; i < len; i += charsSent)] of [sendData].  [i] never
    exceeds [len], so the addition does not overflow. *)
Fixpoint send_loop (fuel : nat) (data : list Z) (len i : Z) : M unit :=
  match fuel with
  | O => running
  | S fuel' =>
      if i <? len then
        let remaining := len - i in
        let charsSent := if remaining <? BUFFER_SIZE then remaining else BUFFER_SIZE in
        r <- send (slice data i charsSent) ;;
        if r <? 0 then error 1 "Unable to write to socket" []
        else send_loop fuel' data len (i + charsSent)
      else ret tt
  end.

(** [sendData(sock, data)]; [data] is the buffer of a C string.  Every
    turn of the loop advances [i] by at least one, so [len] turns and the
    last test are all the loop can take. *)
Definition sendData (data : list Z) : M unit :=
  let len := to_int (Z.of_nat (strlen data)) in
  r <- send (int_bytes len) ;;
  if r <? 0 then error 1 "Unable to write to socket" []
  else send_loop (S (Z.to_nat len)) data len 0.

(** [for (int i = 0; i < len; i += charsRead)] of [receive]; [acc] is
    [result[0..i-1]].  [charsRead] is at most [len - i]. *)
Fixpoint recv_loop (fuel : nat) (len i : Z) (acc : list Z) : M (list Z) :=
  match fuel with
  | O => running
  | S fuel' =>
      if i <? len then
        let size := if len - i >? BUFFER_SIZE - 1 then BUFFER_SIZE - 1 else len - i in
        '(charsRead, bs) <- recv size ;;
        if charsRead <? 0 then error 1 "Unable to read from socket" []
        else recv_loop fuel' len (i + charsRead) (acc ++ map char_of_byte bs)
      else ret acc
  end.

(** [receive(sock)]: the buffer it returns, terminator included.  [len] is
    read before it is written when [recv] delivers fewer than four bytes,
    [len + 1] overflows for [INT_MAX], and [result[len]] is outside the
    buffer for a negative [len]. *)
Definition receive (fuel : nat) : M (list Z) :=
  '(r, bs) <- recv 4 ;;
  if r <? 0 then error 1 "Unable to read from socket" []
  else if negb (r =? 4) then undef
  else
    let len := bytes_int bs in
    if len =? INT_MAX then undef
    else
      ok <- malloc (to_size_t (len + 1)) ;;
      if negb ok then error 1 "Unable to allocate memory" []
      else
        result <- recv_loop fuel len 0 [] ;;
        if len <? 0 then undef else ret (result ++ [0]).

(** The requests the two loops may make: a [send] of at most [BUFFER_SIZE]
    bytes, a [recv] of at most [BUFFER_SIZE - 1] bytes. *)
Definition chunk_send (op : netop) : Prop :=
  exists request result,
    op = OpSend request result /\ Z.of_nat (length request) <= BUFFER_SIZE.

Definition chunk_recv (op : netop) : Prop :=
  exists size result, op = OpRecv size result /\ 0 < size <= BUFFER_SIZE - 1.

End Framing.

(** ** enc_server.c *)

Module EncServer.

Definition sendData := Framing.sendData.
Definition receive := Framing.receive.

(** The four bytes of [client] after [memset] and a [recv] that wrote [bs]. *)
Definition tag_buffer (bs : list Z) : list Z :=
  firstn 4 (map char_of_byte bs ++ repeat 0 4).

(** [validate(sock)], lines 134-152. *)
Definition validate : M unit :=
  let server := chars "enc" ++ [0] in
  '(r, bs) <- recv 4 ;;
  let client := tag_buffer bs in
  if r <? 0 then error 1 "Unable to read from socket" []
  else
    s <- send (map byte_of_char server) ;;
    if s <? 0 then error 1 "Unable to write to socket" []
    else
      match strcmp client server with
      | None => undef
      | Some d =>
          if d =? 0 then ret tt
          else close ;; error 2 "Client not enc_client" []
      end.

(** [handleOtpComm(sock)], lines 161-183.  The result of [malloc] is not
    tested: the stores go through a null pointer when it fails. *)
Definition handleOtpComm (fuel : nat) : M unit :=
  text <- receive fuel ;;
  key <- receive fuel ;;
  let len := to_int (Z.of_nat (strlen text)) in
  ok <- malloc (to_size_t (len + 1)) ;;
  if negb ok then undef
  else
    match snd (Cipher.otp text key) with
    | None => undef
    | Some result => sendData (result ++ [0]) ;; close
    end.

(** [main], lines 195-214: the start-up of the listener.  The [accept]
    loop that follows forks one [worker] per connection. *)
Definition main_startup (argv : list string) : M unit :=
  let argc := Z.of_nat (length argv) in
  if argc <? 2 then error 1 "USAGE: %s port\n" [ArgS (nth 0 argv EmptyString)]
  else
    listenSock <- socket ;;
    if listenSock <? 0 then error 1 "Unable to open socket" []
    else
      b <- bind_socket ;;
      if b <? 0 then error 1 "Unable to bind socket" []
      else listen.

(** [case 0] of the [switch] in [main], lines 228-232: the child process
    that serves one accepted connection. *)
Definition worker (fuel : nat) : M unit :=
  validate ;; handleOtpComm fuel ;; exit 0.

(** What [fork] returns in the process that is followed: -1, the pid of
    the child (in the parent), or 0 (in the child). *)
Inductive fork_result := ForkFails | ForkParent | ForkChild.

(** What one turn of the loop of [main] meets: an [accept] that fails, or
    a connection and the result of the [fork] that follows. *)
Inductive accept_event := AcceptFails | Accepted (f : fork_result).

(** [while (1)] of [main], lines 215-237, in the process that is followed.
    [conns] is what the successive turns meet; when nothing is left
    [accept] blocks.  In the child the connection is the one of the world
    ([rx], [tx]); the parent closes its copy of the socket and goes on. *)
Fixpoint accept_loop (fuel : nat) (conns : list accept_event) : M unit :=
  match fuel with
  | O => running
  | S fuel' =>
      match conns with
      | [] => running
      | AcceptFails :: _ => error 1 "Unable to accept connection" []
      | Accepted ForkFails :: _ => error 1 "Unable to fork child" []
      | Accepted ForkChild :: _ => worker fuel'
      | Accepted ForkParent :: conns' => close ;; accept_loop fuel' conns'
      end
  end.

(** [main], lines 194-242: the start-up, the loop, and the two statements
    after the loop.  The value returned is the exit status. *)
Definition main (fuel : nat) (argv : list string) (conns : list accept_event)
  : M Z :=
  main_startup argv ;; accept_loop fuel conns ;; close ;; ret 0.

End EncServer.

(** ** dec_client.c *)

Module DecClient.

Definition sendData := Framing.sendData.
Definition receive := Framing.receive.

(** The four bytes of [server] after [memset] and a [recv] that wrote [bs]. *)
Definition tag_buffer (bs : list Z) : list Z :=
  firstn 4 (map char_of_byte bs ++ repeat 0 4).

(** [validate(sock)], lines 134-147. *)
Definition validate : M unit :=
  let client := chars "dec" ++ [0] in
  s <- send (map byte_of_char client) ;;
  if s <? 0 then error 1 "Unable to write to socket" []
  else
    '(r, bs) <- recv 4 ;;
    let server := tag_buffer bs in
    if r <? 0 then error 1 "Unable to read from socket" []
    else
      match strcmp client server with
      | None => undef
      | Some d =>
          if d =? 0 then ret tt
          else close ;; error 2 "Server not dec_server" []
      end.

(** [(c < 'A' || c > 'Z') && c != ' '], line 176. *)
Definition invalid_char (c : Z) : bool :=
  ((c <? chr "A") || (c >? chr "Z")) && negb (c =? chr " ").

(** [fgetc(file)] on what is left of the file: the next byte, or [EOF]. *)
Definition fgetc (rest : list Z) : Z :=
  match rest with
  | [] => -1
  | b :: _ => b
  end.

(** The loop of lines 174-182: [for (int i = 0; i < len; i++)] with [len]
    a [size_t], so [i] is converted for the comparison.  [rest] is the
    unread part of the file and [acc] is [buffer[0..i-1]].  At the end of
    the file [fgetc] gives [EOF], which is no valid character, so the loop
    cannot go on past it; [i++] overflows at [INT_MAX]. *)
Fixpoint read_loop (path : string) (rest : list Z) (len i : Z) (acc : list Z)
  : M (list Z) :=
  if to_size_t i <? len then
    let c := to_char (fgetc rest) in
    if invalid_char c then
      error 0 "Invalid character found in file %s: %c, %d" [ArgS path; ArgC c; ArgD c]
    else
      match rest with
      | [] => undef
      | _ :: rest' =>
          if i =? INT_MAX then undef
          else read_loop path rest' len (i + 1) (acc ++ [c])
      end
  else ret acc.

(** [stringFromFile(path)], lines 159-186: the buffer it returns,
    terminator included.  [ftell] at the end of the file is its size. *)
Definition stringFromFile (path : string) : M (list Z) :=
  fun w =>
    match files (env w) path with
    | None => error 0 "Unable to open file: %s" [ArgS path] w
    | Some content =>
        let len := to_size_t (Z.of_nat (length content) - 1) in
        (ok <- malloc (to_size_t (len + 1)) ;;
         if negb ok then error 0 "Unable to allocate memory" []
         else
           buffer <- read_loop path content len 0 [] ;;
           ret (buffer ++ [0])) w
    end.

(** [setupAddressStruct(&server, port, hostname)], lines 50-63, as far as
    it can fail. *)
Definition setupAddressStruct (hostname : string) : M unit :=
  fun w =>
    if host_ok (env w) then (Ret tt, log_net (OpResolve hostname) w)
    else error 0 "No such host\n" [] (log_net (OpResolve hostname) w).

(** [printf("%s\n", s)]. *)
Definition print_line (s : list Z) : M unit :=
  fun w => (Ret tt, put_stdout (firstn (strlen s) s) w).

(** [main], lines 199-232; [argc] is the length of [argv].  The value
    returned is the exit status. *)
Definition main (fuel : nat) (argv : list string) : M Z :=
  let argc := Z.of_nat (length argv) in
  if argc <? 4 then error 0 "USAGE: %s port\n" [ArgS (nth 0 argv EmptyString)]
  else
    text <- stringFromFile (nth 1 argv EmptyString) ;;
    key <- stringFromFile (nth 2 argv EmptyString) ;;
    if Z.of_nat (strlen text) >? Z.of_nat (strlen key)
    then error 0 "Key shorter than text" []
    else
      sock <- socket ;;
      if sock <? 0 then error 0 "Unable to open socket" []
      else
        setupAddressStruct "localhost" ;;
        c <- connect ;;
        if c <? 0 then error 0 "Unable to connect to server" []
        else
          validate ;;
          sendData text ;;
          sendData key ;;
          result <- receive fuel ;;
          print_line result ;;
          close ;;
          ret 0.

(** The exit status of a process whose [main] ended with [o]; a process
    that a signal ended has none. *)
Definition exit_status (o : outcome Z) : option Z :=
  match o with
  | Ret s => Some s
  | Exit s => Some s
  | Undef | Running | Killed _ => None
  end.

End DecClient.

(** ** keygen.c *)

Module Keygen.

Definition INT_MIN : Z := -2147483648.

(** [isspace] and [isdigit] in the C locale. *)
Definition isspace (c : Z) : bool := (c =? 32) || ((9 <=? c) && (c <=? 13)).
Definition isdigit (c : Z) : bool := (48 <=? c) && (c <=? 57).

Fixpoint skip_spaces (s : list Z) : list Z :=
  match s with
  | [] => []
  | c :: s' => if isspace c then skip_spaces s' else s
  end.

(** The value of the decimal digits [s] starts with, after [acc]. *)
Fixpoint digits (s : list Z) (acc : Z) : Z :=
  match s with
  | [] => acc
  | c :: s' => if isdigit c then digits s' (10 * acc + (c - 48)) else acc
  end.

(** [atoi] of the C library: white space, an optional sign, decimal
    digits; the behaviour is undefined ([None]) when the value does not
    fit an [int]. *)
Definition atoi (s : string) : option Z :=
  let s1 := skip_spaces (chars s) in
  let v := match s1 with
           | [] => 0
           | c :: s2 =>
               if c =? chr "-" then - digits s2 0
               else if c =? chr "+" then digits s2 0
               else digits s1 0
           end in
  if (INT_MIN <=? v) && (v <=? INT_MAX) then Some v else None.

(** The string literal of line 31, terminator included. *)
Definition literal : list Z := chars "ABCDEFGHIJKLMNOPQRSTUVWXYZ " ++ [0].

(** What a run of keygen leaves: its exit status, standard output and
    standard error. *)
Record run := {
  status : Z;
  out : list Z;
  err : list (string * list arg)
}.

(** The loop of lines 30-31, [n] turns from [i] on: the characters given
    to [putchar].  [rand i] is the result of the call of [rand] at turn
    [i]; an index outside the literal is undefined behaviour. *)
Fixpoint key_loop (rand : nat -> Z) (i n : nat) : option (list Z) :=
  match n with
  | O => Some []
  | S n' =>
      let k := Z.rem (rand i) 27 in
      if k <? 0 then None
      else
        match nth_error literal (Z.to_nat k) with
        | None => None
        | Some c => option_map (cons c) (key_loop rand (S i) n')
        end
  end.

(** [main], lines 23-34; [rand] is the sequence that [srand(time(NULL))]
    selects.  [None] is undefined behaviour. *)
Definition main (rand : nat -> Z) (argv : list string) : option run :=
  let argc := Z.of_nat (length argv) in
  let usage :=
    Some {| status := 1; out := [];
            err := [("Usage: %s keylength\n"%string,
                     [ArgS (nth 0 argv EmptyString)])] |} in
  if negb (argc =? 2) then usage
  else
    match atoi (nth 1 argv EmptyString) with
    | None => None
    | Some n =>
        if n <=? 0 then usage
        else
          match key_loop rand 0 (Z.to_nat n) with
          | None => None
          | Some key =>
              Some {| status := 0;
                      out := map byte_of_char key ++ [chr "010"];
                      err := [] |}
          end
    end.

End Keygen.

(** * Properties *)

(** ** C integers and strings *)

Lemma to_int_small (z : Z) : 0 <= z <= INT_MAX -> to_int z = z.
Proof.
  unfold to_int, INT_MAX. intros Hz.
  rewrite Z.mod_small by lia. lia.
Qed.

Lemma to_char_small (z : Z) : -128 <= z <= 127 -> to_char z = z.
Proof.
  unfold to_char. intros Hz.
  rewrite Z.mod_small by lia. lia.
Qed.

Lemma to_size_t_small (z : Z) : 0 <= z <= INT_MAX -> to_size_t z = z.
Proof.
  unfold to_size_t, INT_MAX. intros Hz. apply Z.mod_small. lia.
Qed.

Lemma bytes_int_int_bytes (n : Z) : 0 <= n <= INT_MAX -> bytes_int (int_bytes n) = n.
Proof.
  unfold INT_MAX. intros Hn. unfold int_bytes, bytes_int. cbv zeta.
  rewrite (Z.mod_small n 4294967296) by lia.
  rewrite to_int_small; unfold INT_MAX; Z.div_mod_to_equations; lia.
Qed.

Lemma char_of_byte_of_char (c : Z) :
  -128 <= c <= 127 -> char_of_byte (byte_of_char c) = c.
Proof.
  intros Hc. unfold char_of_byte, byte_of_char, to_char.
  Z.div_mod_to_equations. lia.
Qed.

Lemma chars_of_bytes_of_chars (s : list Z) :
  Forall (fun c => -128 <= c <= 127) s ->
  map char_of_byte (map byte_of_char s) = s.
Proof.
  induction 1 as [|c s Hc _ IH]; [reflexivity|].
  cbn [map]. now rewrite char_of_byte_of_char, IH.
Qed.

Lemma strlen_le (buf : list Z) : (strlen buf <= length buf)%nat.
Proof.
  induction buf as [|c buf IH]; simpl; [lia|].
  destruct (c =? 0); lia.
Qed.

Lemma strlen_terminated (s rest : list Z) :
  Forall (fun c => c <> 0) s -> strlen (s ++ 0 :: rest) = length s.
Proof.
  induction 1 as [|c s Hc _ IH]; simpl; [reflexivity|].
  destruct (Z.eqb_spec c 0); [contradiction|]. now rewrite IH.
Qed.

Lemma strlen_app_le (s : list Z) : (strlen (s ++ [0%Z]) <= length s)%nat.
Proof.
  induction s as [|c s IH]; simpl; [lia|].
  destruct (c =? 0); lia.
Qed.

(** ** The alphabet *)

Lemma is_symbol_In (c : Z) : Alphabet.is_symbol c = true <-> In c Alphabet.symbols.
Proof.
  unfold Alphabet.is_symbol. rewrite existsb_exists. split.
  - intros (x & Hx & Heq). apply Z.eqb_eq in Heq. now subst.
  - intros Hc. exists c. split; [assumption | apply Z.eqb_refl].
Qed.

(** A property of pairs of symbols that a computation over the 27 x 27
    pairs establishes. *)
Lemma symbols_pairs (P : Z -> Z -> bool) :
  forallb (fun t => forallb (P t) Alphabet.symbols) Alphabet.symbols = true ->
  forall t k, Alphabet.is_symbol t = true -> Alphabet.is_symbol k = true ->
              P t k = true.
Proof.
  intros Hall t k Ht Hk.
  rewrite forallb_forall in Hall.
  specialize (Hall t (proj1 (is_symbol_In t) Ht)).
  rewrite forallb_forall in Hall.
  exact (Hall k (proj1 (is_symbol_In k) Hk)).
Qed.

Lemma is_symbol_nonzero (c : Z) : Alphabet.is_symbol c = true -> c <> 0.
Proof.
  intros Hc ->. discriminate Hc.
Qed.

Lemma valid_nonzero (s : list Z) : Alphabet.valid s -> Forall (fun c => c <> 0) s.
Proof.
  unfold Alphabet.valid. intros H.
  eapply Forall_impl; [|exact H]. exact is_symbol_nonzero.
Qed.

Lemma encChar_rank (t k : Z) :
  Alphabet.is_symbol t = true -> Alphabet.is_symbol k = true ->
  Cipher.encChar t k
  = Alphabet.symbol_of_rank ((Alphabet.rank t + Alphabet.rank k) mod 27).
Proof.
  intros Ht Hk. apply Z.eqb_eq.
  revert t k Ht Hk.
  apply (symbols_pairs (fun t k =>
    Cipher.encChar t k
    =? Alphabet.symbol_of_rank ((Alphabet.rank t + Alphabet.rank k) mod 27))).
  vm_compute. reflexivity.
Qed.

Lemma encChar_symbol (t k : Z) :
  Alphabet.is_symbol t = true -> Alphabet.is_symbol k = true ->
  Alphabet.is_symbol (Cipher.encChar t k) = true.
Proof.
  apply (symbols_pairs (fun t k => Alphabet.is_symbol (Cipher.encChar t k))).
  vm_compute. reflexivity.
Qed.

Lemma decSymbol_symbol (t k : Z) :
  Alphabet.is_symbol t = true -> Alphabet.is_symbol k = true ->
  Alphabet.is_symbol (Cipher.decSymbol t k) = true.
Proof.
  apply (symbols_pairs (fun t k => Alphabet.is_symbol (Cipher.decSymbol t k))).
  vm_compute. reflexivity.
Qed.

Lemma decSymbol_encChar (t k : Z) :
  Alphabet.is_symbol t = true -> Alphabet.is_symbol k = true ->
  Cipher.decSymbol (Cipher.encChar t k) k = t.
Proof.
  intros Ht Hk. apply Z.eqb_eq.
  revert t k Ht Hk.
  apply (symbols_pairs (fun t k => Cipher.decSymbol (Cipher.encChar t k) k =? t)).
  vm_compute. reflexivity.
Qed.

(** ** The cipher loop *)

Section OtpLoop.

Import Cipher.

Lemma otp_loop_zip (T K pt pk rt rk : list Z) (i : nat) :
  i = length pt -> i = length pk -> (length T <= length K)%nat ->
  Cipher.otp_loop (pt ++ T ++ rt) (pk ++ K ++ rk) i (length T)
  = (seq i (length T), Some (zip T K)).
Proof.
  revert K pt pk i.
  induction T as [|t T IH]; intros K pt pk i Hpt Hpk Hlen; [reflexivity|].
  destruct K as [|k K]; [simpl in Hlen; lia|].
  cbn [length Cipher.otp_loop].
  rewrite (nth_error_app2 pt) by lia.
  rewrite (nth_error_app2 pk) by lia.
  replace (i - length pt)%nat with O by lia.
  replace (i - length pk)%nat with O by lia.
  cbn [app nth_error].
  change (pt ++ t :: T ++ rt) with (pt ++ [t] ++ T ++ rt).
  change (pk ++ k :: K ++ rk) with (pk ++ [k] ++ K ++ rk).
  rewrite !app_assoc, <- !(app_assoc _ T rt), <- !(app_assoc _ K rk).
  rewrite (IH K (pt ++ [t]) (pk ++ [k]) (S i));
    [reflexivity | | | simpl in Hlen; lia];
    rewrite length_app; simpl; lia.
Qed.

Lemma encrypt_zip (T K : list Z) :
  Forall (fun c => c <> 0) T -> (length T <= length K)%nat ->
  Z.of_nat (length T) <= INT_MAX ->
  Cipher.otp (T ++ [0]) (K ++ [0]) = (seq 0 (length T), Some (zip T K)).
Proof.
  intros Hnz Hlen Hmax. unfold Cipher.otp.
  rewrite strlen_terminated by assumption.
  rewrite to_int_small by lia. rewrite Nat2Z.id.
  exact (otp_loop_zip T K [] [] [0] [0] O eq_refl eq_refl Hlen).
Qed.

Lemma zip_length (T K : list Z) :
  (length T <= length K)%nat -> length (zip T K) = length T.
Proof.
  intros Hlen. unfold zip. rewrite length_map, length_combine. lia.
Qed.

Lemma zip_valid (T K : list Z) :
  Alphabet.valid T -> Alphabet.valid K -> Alphabet.valid (zip T K).
Proof.
  unfold Alphabet.valid. intros HT. revert K.
  induction HT as [|t T Ht _ IH]; intros K HK; [constructor|].
  destruct HK as [|k K Hk HK]; [constructor|].
  constructor; [now apply encChar_symbol | now apply IH].
Qed.

Lemma zip_nth (T K : list Z) (i : nat) :
  (i < length T)%nat -> (length T <= length K)%nat ->
  nth i (zip T K) 0 = Cipher.encChar (nth i T 0) (nth i K 0).
Proof.
  revert K i. induction T as [|t T IH]; intros K i Hi Hlen; [simpl in Hi; lia|].
  destruct K as [|k K]; [simpl in Hlen; lia|].
  destruct i as [|i]; [reflexivity|].
  simpl in Hi, Hlen. simpl. apply IH; lia.
Qed.

Lemma spec_decrypt_zip (T K : list Z) :
  Alphabet.valid T -> Alphabet.valid K -> (length T <= length K)%nat ->
  Cipher.spec_decrypt (zip T K) K = Some T.
Proof.
  unfold Alphabet.valid. intros HT. revert K.
  induction HT as [|t T Ht _ IH]; intros K HK Hlen; [reflexivity|].
  destruct HK as [|k K Hk HK]; [simpl in Hlen; lia|].
  cbn [zip combine map fst snd Cipher.spec_decrypt].
  fold (zip T K). rewrite IH by (simpl in Hlen; auto; lia).
  cbn [option_map]. now rewrite decSymbol_encChar.
Qed.

Lemma spec_decrypt_total (T K : list Z) :
  Alphabet.valid T -> Alphabet.valid K -> (length T <= length K)%nat ->
  exists R, Cipher.spec_decrypt T K = Some R
            /\ Alphabet.valid R /\ length R = length T.
Proof.
  unfold Alphabet.valid. intros HT. revert K.
  induction HT as [|t T Ht _ IH]; intros K HK Hlen.
  - exists []. repeat split. constructor.
  - destruct HK as [|k K Hk HK]; [simpl in Hlen; lia|].
    destruct (IH K HK) as (R & HR & Hv & Hl); [simpl in Hlen; lia|].
    exists (Cipher.decSymbol t k :: R). cbn [Cipher.spec_decrypt].
    rewrite HR. repeat split.
    + constructor; [now apply decSymbol_symbol | exact Hv].
    + simpl. now rewrite Hl.
Qed.

(** The indices at which the loop reads [key], and whether it stays inside
    the buffer, for buffers of any content. *)
Lemma otp_loop_reads (text key : list Z) (n i : nat) :
  (i + n <= length text)%nat -> (i <= length key)%nat ->
  fst (Cipher.otp_loop text key i n) = seq i (Nat.min n (length key - i + 1))
  /\ (snd (Cipher.otp_loop text key i n) = None <-> (length key < i + n)%nat)
  /\ (forall out, snd (Cipher.otp_loop text key i n) = Some out -> length out = n).
Proof.
  revert i. induction n as [|n IH]; intros i Hi Hik.
  - cbn. split; [reflexivity|]. split.
    + split; [discriminate | lia].
    + intros out [= <-]. reflexivity.
  - cbn [Cipher.otp_loop].
    destruct (nth_error text i) as [t|] eqn:Et;
      [|apply nth_error_None in Et; lia].
    destruct (nth_error key i) as [k|] eqn:Ek.
    + assert (Hk : (i < length key)%nat)
        by (apply nth_error_Some; congruence).
      destruct (IH (S i)) as (Hf & Hs & Hl); [lia|lia|].
      destruct (Cipher.otp_loop text key (S i) n) as [reads rest].
      cbn [fst snd] in *. split; [|split].
      * rewrite Hf.
        replace (Nat.min (S n) (length key - i + 1))
          with (S (Nat.min n (length key - S i + 1))) by lia.
        reflexivity.
      * destruct rest as [r|]; cbn [option_map].
        -- split; [discriminate|]. intros Hlt.
           destruct Hs as [_ Hs]. discriminate Hs. lia.
        -- split; [intros _|reflexivity].
           destruct Hs as [Hs _]. specialize (Hs eq_refl). lia.
      * intros out Hout. destruct rest as [r|]; [|discriminate].
        injection Hout as <-. simpl. f_equal. now apply Hl.
    + apply nth_error_None in Ek. cbn [fst snd]. split; [|split].
      * replace (Nat.min (S n) (length key - i + 1)) with 1%nat by lia.
        reflexivity.
      * split; [intros _; lia | reflexivity].
      * discriminate.
Qed.

End OtpLoop.

(** ** Cipher transform (section 4.1 and section 8) *)

(** C1 - Round trip.  For every text [T] and key [K] drawn from the
    27-symbol alphabet with [len(K) >= len(T)], the encryption of [T] under
    [K] is defined and decrypting it under [K] gives [T] back:
    [transform(transform(T, K, ENCRYPT), K, DECRYPT) == T].  The text is one
    that [receive] can return, so its length fits the [int] that
    [handleOtpComm] keeps it in ([receive_length] below).  Encryption is
    the code of enc_server.c; decryption follows the formula of the
    spec. *)
Theorem transform_round_trip (T K : list Z) :
  Alphabet.valid T -> Alphabet.valid K ->
  (length T <= length K)%nat -> Z.of_nat (length T) <= INT_MAX ->
  exists C, Cipher.transform T K Cipher.ENCRYPT = Some C
            /\ Cipher.transform C K Cipher.DECRYPT = Some T.
Proof.
  intros HT HK Hlen Hmax. exists (Cipher.zip T K). split.
  - unfold Cipher.transform, Cipher.encrypt.
    now rewrite encrypt_zip by auto using valid_nonzero.
  - now apply spec_decrypt_zip.
Qed.

Lemma transform_round_trip_witness :
  exists C, Cipher.transform (chars "HELLO") (chars "WORLD") Cipher.ENCRYPT = Some C
            /\ Cipher.transform C (chars "WORLD") Cipher.DECRYPT
               = Some (chars "HELLO").
Proof.
  apply transform_round_trip.
  - repeat constructor.
  - repeat constructor.
  - simpl. lia.
  - vm_compute. discriminate.
Defined.

(** C2 - Cipher transform algorithm.  With ranks A-Z = 0-25 and space = 26
    (and rank 26 mapped back to the space), for a text and a key in the
    alphabet with [len(key) >= len(text)] the encryption is defined, has
    the length of the text, and its symbol at every position [i] has rank
    [(t + k) mod 27] for the ranks [t], [k] of [text[i]] and [key[i]]; and
    "HELLO" under "WORLD" encrypts to "CSBWR". *)
Theorem encrypt_rank_sum (T K : list Z) :
  Alphabet.valid T -> Alphabet.valid K ->
  (length T <= length K)%nat -> Z.of_nat (length T) <= INT_MAX ->
  map Alphabet.rank Alphabet.symbols = map Z.of_nat (seq 0 27)
  /\ Alphabet.symbol_of_rank 26 = chr " "
  /\ (exists C, Cipher.encrypt T K = Some C
        /\ length C = length T
        /\ forall i, (i < length T)%nat ->
             Alphabet.is_symbol (nth i C 0) = true
             /\ Alphabet.rank (nth i C 0)
                = (Alphabet.rank (nth i T 0) + Alphabet.rank (nth i K 0)) mod 27
             /\ nth i C 0
                = Alphabet.symbol_of_rank
                    ((Alphabet.rank (nth i T 0) + Alphabet.rank (nth i K 0)) mod 27))
  /\ Cipher.encrypt (chars "HELLO") (chars "WORLD") = Some (chars "CSBWR").
Proof.
  intros HT HK Hlen Hmax.
  split; [reflexivity|]. split; [reflexivity|]. split; [|reflexivity].
  exists (Cipher.zip T K). split; [|split].
  - unfold Cipher.encrypt. now rewrite encrypt_zip by auto using valid_nonzero.
  - now apply zip_length.
  - intros i Hi. rewrite zip_nth by assumption.
    assert (Ht : Alphabet.is_symbol (nth i T 0) = true).
    { unfold Alphabet.valid in HT. rewrite Forall_forall in HT.
      apply HT, nth_In, Hi. }
    assert (Hk : Alphabet.is_symbol (nth i K 0) = true).
    { unfold Alphabet.valid in HK. rewrite Forall_forall in HK.
      apply HK, nth_In. lia. }
    split; [now apply encChar_symbol|]. split; [|now apply encChar_rank].
    apply Z.eqb_eq. revert Ht Hk.
    apply (symbols_pairs (fun t k =>
      Alphabet.rank (Cipher.encChar t k)
      =? (Alphabet.rank t + Alphabet.rank k) mod 27)).
    vm_compute. reflexivity.
Qed.

Lemma encrypt_rank_sum_witness :
  exists C, Cipher.encrypt (chars "A Z") (chars "ZZ B") = Some C
            /\ nth 1 C 0 = Alphabet.symbol_of_rank ((26 + 25) mod 27).
Proof.
  destruct (encrypt_rank_sum (chars "A Z") (chars "ZZ B")) as (_ & _ & H & _).
  - repeat constructor.
  - repeat constructor.
  - simpl. lia.
  - vm_compute. discriminate.
  - destruct H as (C & HC & _ & Hnth). exists C. split; [exact HC|].
    apply (Hnth 1%nat). simpl. lia.
Defined.

(** C9 - Closure and length preservation.  For every text [T] and key [K]
    in the alphabet with [len(K) >= len(T)] and either direction,
    [transform(T, K, dir)] is defined, every symbol of it belongs to the
    alphabet and it has the length of [T]. *)
Theorem transform_closed (T K : list Z) (d : Cipher.direction) :
  Alphabet.valid T -> Alphabet.valid K ->
  (length T <= length K)%nat -> Z.of_nat (length T) <= INT_MAX ->
  exists R, Cipher.transform T K d = Some R
            /\ Alphabet.valid R /\ length R = length T.
Proof.
  intros HT HK Hlen Hmax. destruct d.
  - exists (Cipher.zip T K). split; [|split].
    + unfold Cipher.transform, Cipher.encrypt.
      now rewrite encrypt_zip by auto using valid_nonzero.
    + now apply zip_valid.
    + now apply zip_length.
  - now apply spec_decrypt_total.
Qed.

Lemma transform_closed_witness :
  exists R, Cipher.transform (chars "CSBWR") (chars "WORLD IS ROUND") Cipher.DECRYPT
            = Some R
            /\ Alphabet.valid R /\ length R = 5%nat.
Proof.
  apply (transform_closed (chars "CSBWR") (chars "WORLD IS ROUND") Cipher.DECRYPT).
  - repeat constructor.
  - repeat constructor.
  - simpl. lia.
  - vm_compute. discriminate.
Defined.

(** The reads of the key by the loop of [handleOtpComm], for a text and a
    key of any content. *)
Lemma key_reads_seq (text key : list Z) :
  let n := strlen (text ++ [0]) in
  Z.of_nat n <= INT_MAX ->
  Cipher.key_reads text key = seq 0 (Nat.min n (length key + 2))
  /\ ((n <= length key + 1)%nat ->
      exists out, Cipher.encrypt text key = Some out /\ length out = n)
  /\ ((length key + 1 < n)%nat -> Cipher.encrypt text key = None).
Proof.
  intros n Hmax.
  unfold Cipher.key_reads, Cipher.encrypt, Cipher.otp. fold n.
  rewrite to_int_small by lia. rewrite Nat2Z.id.
  assert (Hn : (n <= length text)%nat) by apply strlen_app_le.
  destruct (otp_loop_reads (text ++ [0]) (key ++ [0]) n 0) as (Hf & Hs & Hl).
  { rewrite length_app. simpl. lia. }
  { lia. }
  rewrite length_app in Hf, Hs. simpl in Hf, Hs.
  split; [|split].
  - rewrite Hf. f_equal. lia.
  - intros Hle.
    destruct (snd (Cipher.otp_loop (text ++ [0]) (key ++ [0]) 0 n)) as [out|] eqn:E.
    + exists out. split; [reflexivity | now apply Hl].
    + destruct Hs as [Hs _]. specialize (Hs eq_refl). lia.
  - intros Hlt. apply Hs. lia.
Qed.

(** C10 - No validation in the server-side transform.  For a received text
    and key of any content (no byte has to be in the alphabet, the key may
    be shorter than the text), with [n] the [strlen] of the text: the loop
    reads [key[i]] for [i = 0, 1, ...] up to [n - 1] with no test on the
    length of the key, stopping only where a read leaves the key's buffer;
    it produces [n] characters whenever the reads stay inside the buffer;
    and a key shorter than the text is read at its terminator, past its
    last symbol, and beyond the buffer (undefined behaviour) when it is
    shorter by two or more. *)
Theorem otp_no_validation (text key : list Z) :
  let n := strlen (text ++ [0]) in
  Z.of_nat n <= INT_MAX ->
  Cipher.key_reads text key = seq 0 (Nat.min n (length key + 2))
  /\ ((n <= length key + 1)%nat ->
      exists out, Cipher.encrypt text key = Some out /\ length out = n)
  /\ ((length key < n)%nat -> In (length key) (Cipher.key_reads text key))
  /\ ((length key + 1 < n)%nat ->
      Cipher.encrypt text key = None
      /\ In (length key + 1)%nat (Cipher.key_reads text key)
      /\ nth_error (key ++ [0]) (length key + 1) = None).
Proof.
  intros n Hmax.
  destruct (key_reads_seq text key Hmax) as (Hreads & Hsome & Hnone).
  fold n in Hreads, Hsome, Hnone.
  split; [exact Hreads|]. split; [exact Hsome|]. split.
  - intros Hlt. rewrite Hreads. apply in_seq. lia.
  - intros Hlt. split; [|split].
    + now apply Hnone.
    + rewrite Hreads. apply in_seq. lia.
    + apply nth_error_None. rewrite length_app. simpl. lia.
Qed.

Lemma otp_no_validation_witness :
  Cipher.key_reads (chars "hello!") (chars "AB") = [0; 1; 2; 3]%nat
  /\ Cipher.encrypt (chars "hello!") (chars "AB") = None.
Proof.
  destruct (otp_no_validation (chars "hello!") (chars "AB")) as (Hr & _ & _ & Hn).
  - vm_compute. discriminate.
  - split; [exact Hr|].
    destruct Hn as (He & _); [vm_compute; lia | exact He].
Defined.

(** ** Running processes *)

Lemma bind_Ret {A B} (c : M A) (k : A -> M B) (w w' : world) (a : A) :
  c w = (Ret a, w') -> bind c k w = k a w'.
Proof. intros H. unfold bind. now rewrite H. Qed.

Lemma bind_Exit {A B} (c : M A) (k : A -> M B) (w w' : world) (s : Z) :
  c w = (Exit s, w') -> bind c k w = (Exit s, w').
Proof. intros H. unfold bind. now rewrite H. Qed.

Lemma bind_Running {A B} (c : M A) (k : A -> M B) (w : world) :
  fst (c w) = Running -> bind c k w = (Running, snd (c w)).
Proof.
  intros H. unfold bind. destruct (c w) as [[a|s| | |sig] w']; try discriminate.
  reflexivity.
Qed.

(** ** Socket calls *)

(** A segment that fits the request is delivered whole. *)
Lemma recv_segment (size : Z) (bs : list Z) (q : list rx_event) (w : world) :
  rx w = RxData bs :: q -> bs <> [] -> (length bs <= Z.to_nat size)%nat ->
  recv size w
  = (Ret (Z.of_nat (length bs), bs),
     log_net (OpRecv size (Z.of_nat (length bs))) (set_rx q w)).
Proof.
  intros Hrx Hne Hlen. unfold recv. rewrite Hrx. cbn [recv_from].
  destruct bs as [|b bs]; [contradiction|].
  rewrite firstn_all2, skipn_all2 by assumption. reflexivity.
Qed.

(** With no answer scripted, the transport takes a request whole. *)
Lemma send_whole (data : list Z) (w : world) :
  tx w = [] ->
  send data w
  = (Ret (Z.of_nat (length data)),
     log_net (OpSend data (Z.of_nat (length data))) (put_wire data w)).
Proof. intros Htx. unfold send. now rewrite Htx. Qed.

(** ** Framed transport (section 4.2) *)

Lemma firstn_plus {A : Type} (n m : nat) (l : list A) :
  firstn (n + m) l = firstn n l ++ firstn m (skipn n l).
Proof.
  revert l. induction n as [|n IH]; intros l; [reflexivity|].
  destruct l as [|x l]; cbn [Nat.add firstn skipn app].
  - now rewrite firstn_nil.
  - now rewrite IH.
Qed.

Lemma slice_split (data : list Z) (i c d : Z) :
  0 <= i -> 0 <= c -> 0 <= d ->
  Framing.slice data i (c + d)
  = Framing.slice data i c ++ Framing.slice data (i + c) d.
Proof.
  intros Hi Hc Hd. unfold Framing.slice.
  rewrite Z2Nat.inj_add, firstn_plus, map_app, skipn_skipn by lia.
  now rewrite (Z2Nat.inj_add i c), (Nat.add_comm (Z.to_nat c)) by lia.
Qed.

Lemma slice_length_le (data : list Z) (i c : Z) :
  (length (Framing.slice data i c) <= Z.to_nat c)%nat.
Proof.
  unfold Framing.slice. rewrite length_map. apply firstn_le_length.
Qed.

Lemma send_loop_whole (fuel : nat) (data : list Z) (len i : Z) (w : world) :
  tx w = [] -> 0 <= i <= len -> (Z.to_nat (len - i) < fuel)%nat ->
  exists w' ops,
    Framing.send_loop fuel data len i w = (Ret tt, w')
    /\ wire w' = wire w ++ Framing.slice data i (len - i)
    /\ net w' = net w ++ ops /\ Forall Framing.chunk_send ops
    /\ tx w' = [] /\ rx w' = rx w /\ stderr w' = stderr w /\ env w' = env w.
Proof.
  revert i w. induction fuel as [|fuel IH]; intros i w Htx Hi Hfuel; [lia|].
  cbn [Framing.send_loop].
  destruct (Z.ltb_spec i len) as [Hlt|Hge].
  - cbv zeta.
    set (c := if len - i <? Framing.BUFFER_SIZE then len - i else Framing.BUFFER_SIZE).
    assert (Hc : 0 < c <= len - i /\ c <= Framing.BUFFER_SIZE).
    { unfold c, Framing.BUFFER_SIZE.
      destruct (Z.ltb_spec (len - i) 1000); lia. }
    rewrite (bind_Ret _ _ _ _ _ (send_whole _ w Htx)).
    destruct (Z.ltb_spec (Z.of_nat (length (Framing.slice data i c))) 0); [lia|].
    destruct (IH (i + c)
                (log_net (OpSend (Framing.slice data i c)
                            (Z.of_nat (length (Framing.slice data i c))))
                   (put_wire (Framing.slice data i c) w)))
      as (w' & ops & Hrun & Hwire & Hnet & Hops & Htx' & Hrx' & Herr' & Henv');
      [exact Htx | lia | lia |].
    exists w', (OpSend (Framing.slice data i c)
                  (Z.of_nat (length (Framing.slice data i c))) :: ops).
    split; [exact Hrun|]. split; [|split; [|split]].
    + rewrite Hwire. cbn [wire put_wire log_net].
      replace (len - i) with (c + (len - (i + c))) by lia.
      rewrite slice_split by lia. now rewrite <- app_assoc.
    + rewrite Hnet. cbn [net put_wire log_net]. now rewrite <- app_assoc.
    + constructor; [|exact Hops].
      exists (Framing.slice data i c), (Z.of_nat (length (Framing.slice data i c))).
      split; [reflexivity|].
      pose proof (slice_length_le data i c). lia.
    + repeat split; assumption.
  - exists w, []. replace (len - i) with 0 by lia.
    unfold Framing.slice. cbn [Z.to_nat firstn map]. rewrite !app_nil_r.
    repeat split; try assumption. constructor.
Qed.

(** [sendData] over such a transport: the prefix and then the whole
    payload are on the stream, in writes of at most [BUFFER_SIZE] bytes. *)
Lemma sendData_whole (data : list Z) (w : world) :
  tx w = [] -> Z.of_nat (strlen data) <= INT_MAX ->
  exists w' ops,
    Framing.sendData data w = (Ret tt, w')
    /\ wire w'
       = wire w ++ int_bytes (Z.of_nat (strlen data))
           ++ map byte_of_char (firstn (strlen data) data)
    /\ net w' = net w ++ OpSend (int_bytes (Z.of_nat (strlen data))) 4 :: ops
    /\ Forall Framing.chunk_send ops
    /\ tx w' = [] /\ rx w' = rx w /\ stderr w' = stderr w /\ env w' = env w.
Proof.
  intros Htx Hmax. unfold Framing.sendData. cbv zeta.
  rewrite to_int_small by lia.
  rewrite (bind_Ret _ _ _ _ _ (send_whole _ w Htx)).
  change (Z.of_nat (length (int_bytes (Z.of_nat (strlen data))))) with 4.
  cbn [Z.ltb Z.compare].
  destruct (send_loop_whole (S (Z.to_nat (Z.of_nat (strlen data)))) data
              (Z.of_nat (strlen data)) 0
              (log_net (OpSend (int_bytes (Z.of_nat (strlen data))) 4)
                 (put_wire (int_bytes (Z.of_nat (strlen data))) w)))
    as (w' & ops & Hrun & Hwire & Hnet & Hops & Hrest);
    [exact Htx | lia | lia |].
  exists w', ops. split; [exact Hrun|]. split; [|split; [|split]].
  - rewrite Hwire. cbn [wire put_wire log_net]. rewrite <- app_assoc.
    unfold Framing.slice. now rewrite Z.sub_0_r, Nat2Z.id.
  - rewrite Hnet. cbn [net put_wire log_net]. now rewrite <- app_assoc.
  - exact Hops.
  - exact Hrest.
Qed.

(** What a [recv] takes from a stream without errors: a prefix of the
    bytes the stream carries, not empty when bytes are asked for and the
    stream has some. *)
Lemma recv_from_clean (q : list rx_event) (size : nat) :
  rx_clean q ->
  forall r bs q', recv_from q size = (r, bs, q') ->
    r = Z.of_nat (length bs)
    /\ bs ++ rx_bytes q' = rx_bytes q
    /\ rx_clean q'
    /\ (length bs <= size)%nat
    /\ ((0 < size)%nat -> rx_bytes q <> [] -> bs <> []).
Proof.
  induction 1 as [|e q He Hq IH]; intros r bs q' E.
  - injection E as <- <- <-.
    split; [reflexivity|]. split; [reflexivity|]. split; [constructor|].
    split; [simpl; lia|]. intros _ Hn. now contradiction Hn.
  - destruct e as [seg|]; [|contradiction].
    destruct seg as [|b seg].
    + cbn [recv_from] in E. cbn [rx_bytes app]. now apply IH.
    + cbn [recv_from] in E. injection E as <- <- <-.
      split; [reflexivity|]. split; [|split; [|split]].
      * cbn [rx_bytes].
        rewrite <- (firstn_skipn size (b :: seg)) at 3.
        rewrite <- app_assoc. f_equal.
        destruct (skipn size (b :: seg)); reflexivity.
      * destruct (skipn size (b :: seg)); [assumption|].
        constructor; [discriminate | assumption].
      * apply firstn_le_length.
      * intros Hsize _. destruct size; [lia | discriminate].
Qed.

Lemma recv_loop_complete (fuel : nat) (len i : Z) (acc : list Z) (w : world) :
  rx_clean (rx w) -> 0 <= i <= len ->
  len - i <= Z.of_nat (length (rx_bytes (rx w))) ->
  (Z.to_nat (len - i) < fuel)%nat ->
  exists w' ops,
    Framing.recv_loop fuel len i acc w
    = (Ret (acc ++ map char_of_byte
                     (firstn (Z.to_nat (len - i)) (rx_bytes (rx w)))), w')
    /\ rx_clean (rx w')
    /\ rx_bytes (rx w') = skipn (Z.to_nat (len - i)) (rx_bytes (rx w))
    /\ net w' = net w ++ ops /\ Forall Framing.chunk_recv ops
    /\ tx w' = tx w /\ wire w' = wire w /\ stderr w' = stderr w /\ env w' = env w.
Proof.
  revert i acc w.
  induction fuel as [|fuel IH]; intros i acc w Hclean Hi Havail Hfuel; [lia|].
  cbn [Framing.recv_loop].
  destruct (Z.ltb_spec i len) as [Hlt|Hge].
  - cbv zeta.
    set (size := if len - i >? Framing.BUFFER_SIZE - 1
                 then Framing.BUFFER_SIZE - 1 else len - i).
    assert (Hsize : 0 < size <= len - i /\ size <= Framing.BUFFER_SIZE - 1).
    { unfold size, Framing.BUFFER_SIZE.
      destruct (Z.gtb_spec (len - i) (1000 - 1)); lia. }
    unfold bind at 1, recv at 1.
    destruct (recv_from (rx w) (Z.to_nat size)) as [[r bs] q'] eqn:E.
    destruct (recv_from_clean _ _ Hclean _ _ _ E)
      as (-> & Hbytes & Hclean' & Hlen & Hne).
    assert (Hbs : bs <> []).
    { apply Hne; [lia|]. intros Hnil. rewrite Hnil in Havail. simpl in Havail. lia. }
    assert (Hpos : (0 < length bs)%nat)
      by (destruct bs; [contradiction | simpl; lia]).
    destruct (Z.ltb_spec (Z.of_nat (length bs)) 0); [lia|].
    rewrite <- Hbytes in Havail. rewrite length_app in Havail.
    destruct (IH (i + Z.of_nat (length bs)) (acc ++ map char_of_byte bs)
                (log_net (OpRecv size (Z.of_nat (length bs))) (set_rx q' w)))
      as (w' & ops & Hrun & Hc & Hb & Hnet & Hops & Hrest);
      [exact Hclean' | lia | cbn [rx log_net set_rx]; lia | lia |].
    exists w', (OpRecv size (Z.of_nat (length bs)) :: ops).
    cbn [rx log_net set_rx] in Hb, Hrun.
    replace (Z.to_nat (len - i))
      with (length bs + Z.to_nat (len - (i + Z.of_nat (length bs))))%nat by lia.
    rewrite <- Hbytes, firstn_app_2, map_app, app_assoc.
    split; [exact Hrun|]. split; [exact Hc|]. split; [|split; [|split]].
    + rewrite Hb, skipn_app, (@skipn_all2 _ _ bs) by lia.
      cbn [app]. f_equal. lia.
    + rewrite Hnet. cbn [net log_net set_rx]. now rewrite <- app_assoc.
    + constructor; [|exact Hops].
      exists size, (Z.of_nat (length bs)). split; [reflexivity | lia].
    + exact Hrest.
  - exists w, []. replace (len - i) with 0 by lia.
    cbn [Z.to_nat firstn skipn map]. rewrite !app_nil_r.
    repeat split; try assumption; try reflexivity. constructor.
Qed.

(** [receive] on a stream without errors that delivers the prefix in one
    piece and then at least [len] bytes, in pieces of any size: the
    payload is the next [len] bytes of the stream, read in requests of at
    most [BUFFER_SIZE - 1] bytes, and what follows them stays on the
    stream. *)
Lemma receive_complete (fuel : nat) (len : Z) (more : list Z)
  (q : list rx_event) (w : world) :
  rx w = RxData (int_bytes len ++ more) :: q -> rx_clean q ->
  0 <= len < INT_MAX ->
  len <= Z.of_nat (length (more ++ rx_bytes q)) ->
  malloc_ok (env w) (len + 1) = true ->
  (Z.to_nat len < fuel)%nat ->
  exists w' ops,
    Framing.receive fuel w
    = (Ret (map char_of_byte (firstn (Z.to_nat len) (more ++ rx_bytes q)) ++ [0]), w')
    /\ rx_clean (rx w')
    /\ rx_bytes (rx w') = skipn (Z.to_nat len) (more ++ rx_bytes q)
    /\ net w' = net w ++ OpRecv 4 4 :: ops /\ Forall Framing.chunk_recv ops
    /\ tx w' = tx w /\ wire w' = wire w /\ stderr w' = stderr w /\ env w' = env w.
Proof.
  intros Hrx Hclean Hlen Havail Hmalloc Hfuel.
  set (q1 := match more with [] => q | _ => RxData more :: q end).
  assert (Hq1 : rx_clean q1 /\ rx_bytes q1 = more ++ rx_bytes q).
  { unfold q1. destruct more; [split; [assumption | reflexivity]|].
    split; [constructor; [discriminate | assumption] | reflexivity]. }
  destruct Hq1 as [Hclean1 Hbytes1].
  assert (Hrecv : recv 4 w
                  = (Ret (4, int_bytes len), log_net (OpRecv 4 4) (set_rx q1 w))).
  { unfold recv. rewrite Hrx. unfold q1, int_bytes. cbv zeta.
    destruct more; reflexivity. }
  unfold Framing.receive.
  rewrite (bind_Ret _ _ _ _ _ Hrecv).
  cbn [Z.ltb Z.eqb Z.compare Pos.compare Pos.compare_cont negb Pos.eqb].
  rewrite bytes_int_int_bytes by lia.
  destruct (Z.eqb_spec len INT_MAX); [lia|].
  rewrite to_size_t_small by lia.
  unfold bind at 1, malloc at 1. cbn [env log_net set_rx]. rewrite Hmalloc.
  cbn [negb].
  destruct (recv_loop_complete fuel len 0 []
              (log_net (OpRecv 4 4) (set_rx q1 w)))
    as (w' & ops & Hrun & Hc & Hb & Hnet & Hops & Hrest);
    [exact Hclean1 | lia
     | cbn [rx log_net set_rx]; rewrite Hbytes1; lia | lia |].
  cbn [rx log_net set_rx] in Hrun, Hb. rewrite Z.sub_0_r, Hbytes1 in Hrun, Hb.
  exists w', ops.
  rewrite (bind_Ret _ _ _ _ _ Hrun).
  destruct (Z.ltb_spec len 0); [lia|].
  split; [reflexivity|]. split; [exact Hc|]. split; [exact Hb|].
  split; [|split; [exact Hops | exact Hrest]].
  rewrite Hnet. cbn [net log_net set_rx]. now rewrite <- app_assoc.
Qed.

(** A failed [recv] ends [receive]'s loop with exit status 1, a failed
    [send] ends [sendData]'s loop with exit status 1. *)
Lemma recv_loop_error (fuel : nat) (len i : Z) (acc : list Z)
  (q : list rx_event) (w : world) :
  rx w = RxError :: q -> i < len ->
  exists size,
    Framing.recv_loop (S fuel) len i acc w
    = (Exit 1,
       put_stderr ("Unable to read from socket"%string, [])
         (log_net (OpRecv size (-1)) (set_rx q w))).
Proof.
  intros Hrx Hi. cbn [Framing.recv_loop].
  destruct (Z.ltb_spec i len); [|lia].
  eexists. unfold bind, recv. rewrite Hrx. reflexivity.
Qed.

Lemma send_loop_error (fuel : nat) (data : list Z) (len i : Z)
  (q : list tx_event) (w : world) :
  tx w = TxError :: q -> i < len ->
  exists request,
    Framing.send_loop (S fuel) data len i w
    = (Exit 1,
       put_stderr ("Unable to write to socket"%string, [])
         (log_net (OpSend request (-1)) (set_tx q w))).
Proof.
  intros Htx Hi. cbn [Framing.send_loop].
  destruct (Z.ltb_spec i len); [|lia].
  eexists. unfold bind, send. rewrite Htx. reflexivity.
Qed.

(** ** Framing fidelity (section 8) *)

(** X10 - Framing round trip: what [sendData] puts on a stream that takes
    every write whole, [receive] gives back, whatever the pieces the stream
    delivers the payload in, as long as the prefix arrives in one piece:
    for a string of [char]s without NUL, shorter than [INT_MAX], the buffer
    [receive] returns is the string [sendData] was given. *)
Theorem framing_round_trip (fuel : nat) (s more : list Z) (q : list rx_event)
  (ws wr : world) :
  Forall (fun c => -128 <= c <= 127 /\ c <> 0) s ->
  Z.of_nat (length s) < INT_MAX ->
  tx ws = [] -> wire ws = [] ->
  rx wr = RxData (int_bytes (Z.of_nat (length s)) ++ more) :: q ->
  rx_clean q ->
  int_bytes (Z.of_nat (length s)) ++ more ++ rx_bytes q
  = wire (snd (Framing.sendData (s ++ [0]) ws)) ->
  malloc_ok (env wr) (Z.of_nat (length s) + 1) = true ->
  (length s < fuel)%nat ->
  fst (Framing.sendData (s ++ [0]) ws) = Ret tt
  /\ fst (Framing.receive fuel wr) = Ret (s ++ [0]).
Proof.
  intros Hs Hmax Htx Hwire Hrx Hclean Hbytes Hmalloc Hfuel.
  assert (Hnz : Forall (fun c => c <> 0) s)
    by (eapply Forall_impl; [|exact Hs]; cbv beta; tauto).
  assert (Hrange : Forall (fun c => -128 <= c <= 127) s)
    by (eapply Forall_impl; [|exact Hs]; cbv beta; tauto).
  assert (Hstrlen : strlen (s ++ [0]) = length s) by now apply strlen_terminated.
  destruct (sendData_whole (s ++ [0]) ws Htx) as (ws' & ops & Hsend & Hw & _).
  { rewrite Hstrlen. lia. }
  rewrite Hsend in Hbytes |- *. cbn [fst snd] in Hbytes |- *.
  split; [reflexivity|].
  rewrite Hw, Hwire, Hstrlen in Hbytes. cbn [app] in Hbytes.
  rewrite firstn_app, Nat.sub_diag, firstn_all in Hbytes.
  cbn [firstn] in Hbytes. rewrite app_nil_r in Hbytes.
  apply app_inv_head in Hbytes.
  destruct (receive_complete fuel (Z.of_nat (length s)) more q wr)
    as (wr' & ops' & Hrecv & _); try assumption; try lia.
  { rewrite Hbytes, length_map. lia. }
  rewrite Hrecv. cbn [fst]. rewrite Hbytes, Nat2Z.id.
  rewrite <- (length_map byte_of_char s), firstn_all.
  now rewrite chars_of_bytes_of_chars.
Qed.

Lemma framing_round_trip_witness :
  fst (Framing.sendData (chars "HELLO" ++ [0]) (start (fair no_files) [] []))
  = Ret tt
  /\ fst (Framing.receive 6
            (start (fair no_files)
               [RxData (int_bytes 5 ++ chars "H"); RxData (chars "EL");
                RxData (chars "LO")] []))
     = Ret (chars "HELLO" ++ [0]).
Proof.
  apply (framing_round_trip 6 (chars "HELLO") (chars "H")
           [RxData (chars "EL"); RxData (chars "LO")]
           (start (fair no_files) [] [])).
  - repeat constructor; try discriminate.
  - vm_compute. reflexivity.
  - reflexivity.
  - reflexivity.
  - reflexivity.
  - repeat constructor; discriminate.
  - reflexivity.
  - reflexivity.
  - simpl. lia.
Defined.

(** ** The length of what [receive] returns

    [receive] keeps the length in an [int], so the text that reaches the
    cipher loop of [handleOtpComm] is always shorter than [INT_MAX]: the
    conversion [(int)strlen(text)] there loses nothing. *)

Lemma recv_from_result (q : list rx_event) (size : nat) :
  forall r bs q', recv_from q size = (r, bs, q') ->
    r < 0 \/ (r = Z.of_nat (length bs) /\ (length bs <= size)%nat).
Proof.
  induction q as [|e q IH]; intros r bs q' E.
  - injection E as <- <- <-. right. split; [reflexivity | simpl; lia].
  - destruct e as [seg|].
    + destruct seg as [|b seg]; [now apply IH in E|].
      cbn [recv_from] in E. injection E as <- <- <-. right.
      split; [reflexivity | apply firstn_le_length].
    + injection E as <- <- <-. left. lia.
Qed.

Lemma recv_loop_length (fuel : nat) (len i : Z) (acc r : list Z) (w w' : world) :
  Framing.recv_loop fuel len i acc w = (Ret r, w') ->
  0 <= i <= len -> Z.of_nat (length acc) = i ->
  Z.of_nat (length r) = len.
Proof.
  revert i acc w. induction fuel as [|fuel IH]; intros i acc w; [discriminate|].
  cbn [Framing.recv_loop].
  destruct (Z.ltb_spec i len) as [Hlt|Hge].
  - cbv zeta.
    set (size := if len - i >? Framing.BUFFER_SIZE - 1
                 then Framing.BUFFER_SIZE - 1 else len - i).
    assert (Hsize : 0 < size <= len - i).
    { unfold size, Framing.BUFFER_SIZE.
      destruct (Z.gtb_spec (len - i) (1000 - 1)); lia. }
    unfold bind at 1, recv at 1.
    destruct (recv_from (rx w) (Z.to_nat size)) as [[n bs] q'] eqn:E.
    destruct (recv_from_result _ _ _ _ _ E) as [Hneg|[-> Hle]].
    + destruct (Z.ltb_spec n 0); [discriminate | lia].
    + destruct (Z.ltb_spec (Z.of_nat (length bs)) 0); [lia|].
      intros Hrun Hi Hacc. apply (IH _ _ _ Hrun); [lia|].
      rewrite length_app, length_map. lia.
  - intros [= <- <-] Hi Hacc. lia.
Qed.

Lemma receive_length (fuel : nat) (w w' : world) (buf : list Z) :
  Framing.receive fuel w = (Ret buf, w') ->
  exists payload,
    buf = payload ++ [0]
    /\ Z.of_nat (length payload) < INT_MAX
    /\ Z.of_nat (strlen buf) < INT_MAX.
Proof.
  unfold Framing.receive. unfold bind at 1.
  destruct (recv 4 w) as [[[r bs]|s| | |sig] w1]; try discriminate.
  destruct (r <? 0); [discriminate|].
  destruct (negb (r =? 4)); [discriminate|].
  destruct (Z.eqb_spec (bytes_int bs) INT_MAX) as [|Hmax]; [discriminate|].
  unfold bind at 1, malloc at 1.
  destruct (negb (malloc_ok (env w1) _)); [discriminate|].
  unfold bind at 1.
  destruct (Framing.recv_loop fuel (bytes_int bs) 0 [] w1)
    as [[result|s| | |sig] w2] eqn:Hrun; try discriminate.
  destruct (Z.ltb_spec (bytes_int bs) 0) as [|Hpos]; [discriminate|].
  intros [= <- <-].
  pose proof (recv_loop_length _ _ _ _ _ _ _ Hrun (conj (Z.le_refl 0) Hpos) eq_refl)
    as Hlen.
  assert (Hint : bytes_int bs <= INT_MAX).
  { unfold bytes_int. destruct bs as [|? [|? [|? [|? [|? ?]]]]];
      try (unfold INT_MAX; lia).
    unfold to_int, INT_MAX.
    match goal with |- ?a mod ?m - _ <= _ => pose proof (Z.mod_pos_bound a m) end.
    lia. }
  exists result. split; [reflexivity|]. split; [lia|].
  pose proof (strlen_app_le result). lia.
Qed.

(** ** Framed transport: where the code falls short *)

(** Once the peer has closed the connection, [recv] returns 0 and a turn
    of the loop of [receive] leaves [i] and the buffer as they were. *)
Lemma recv_loop_closed_step (fuel : nat) (len i : Z) (acc : list Z) (w : world) :
  rx w = [] -> i < len ->
  exists w', Framing.recv_loop (S fuel) len i acc w = Framing.recv_loop fuel len i acc w'
             /\ rx w' = [] /\ stderr w' = stderr w.
Proof.
  intros Hrx Hi. cbn [Framing.recv_loop].
  destruct (Z.ltb_spec i len) as [_|]; [|lia].
  unfold bind, recv. rewrite Hrx. cbn [recv_from].
  cbn [Z.ltb Z.compare map]. rewrite Z.add_0_r, app_nil_r.
  eexists. split; [reflexivity|]. split; reflexivity.
Qed.

(** So the loop is still running after any number of turns, and it never
    calls [error]. *)
Lemma recv_loop_closed (fuel : nat) (len i : Z) (acc : list Z) (w : world) :
  rx w = [] -> i < len ->
  fst (Framing.recv_loop fuel len i acc w) = Running
  /\ stderr (snd (Framing.recv_loop fuel len i acc w)) = stderr w.
Proof.
  revert w. induction fuel as [|fuel IH]; intros w Hrx Hi.
  - split; reflexivity.
  - destruct (recv_loop_closed_step fuel len i acc w Hrx Hi) as (w' & -> & Hrx' & He).
    rewrite <- He. now apply IH.
Qed.

(** C3 - [receive] and a premature close.  The peer announces five bytes,
    delivers two and closes the connection.  [receive] reads the prefix and
    the two bytes, and then every further [recv] returns 0, which the loop
    does not test for: whatever the number of turns it is given, it is
    still running, it has not exited with status 1 and it has reported no
    error. *)
Theorem receive_premature_close_spins (fuel : nat) :
  let w := start (fair no_files) [RxData (int_bytes 5); RxData (chars "HE")] [] in
  fst (Framing.receive fuel w) = Running
  /\ fst (Framing.receive fuel w) <> Exit 1
  /\ stderr (snd (Framing.receive fuel w)) = [].
Proof.
  intros w.
  assert (H : fst (Framing.receive fuel w) = Running
              /\ stderr (snd (Framing.receive fuel w)) = []).
  { destruct fuel as [|fuel]; [split; reflexivity|].
    set (w2 := log_net (OpRecv 5 2)
                 (set_rx [] (log_net (OpRecv 4 4) (set_rx [RxData (chars "HE")] w)))).
    assert (E : Framing.receive (S fuel) w
                = bind (Framing.recv_loop fuel 5 2 (chars "HE"))
                       (fun result => ret (result ++ [0])) w2)
      by reflexivity.
    destruct (recv_loop_closed fuel 5 2 (chars "HE") w2) as [Hr He];
      [reflexivity | lia |].
    rewrite E, (bind_Running _ _ _ Hr). cbn [fst snd].
    split; [reflexivity | exact He]. }
  destruct H as [Hr He]. rewrite Hr. repeat split; [discriminate | exact He].
Qed.

(** C4 - [sendData] and a partial write.  The payload is "HELLO"; the
    transport takes the four bytes of the length prefix and then only two
    of the five bytes of the one write [sendData] makes for the payload.
    [sendData] compares the result of [send] with 0 only and advances by
    the number of bytes it asked for: it makes no further write and
    returns, with two bytes of the payload on the stream instead of
    five. *)
Theorem sendData_partial_write_lost :
  let w := start (fair no_files) [] [TxAccept 4; TxAccept 2] in
  observe (Framing.sendData (chars "HELLO" ++ [0]) w)
  = (Ret tt,
     [OpSend (int_bytes 5) 4; OpSend (chars "HELLO") 2],
     [], [],
     int_bytes 5 ++ chars "HE").
Proof. reflexivity. Qed.

(** ** Handshake (section 4.3) *)

Lemma server_validate_dec (w : world) (q : list rx_event) :
  tx w = [] -> rx w = RxData (chars "dec" ++ [0]) :: q ->
  EncServer.validate w
  = (Exit 2,
     put_stderr ("Client not enc_client"%string, [])
       (log_net OpClose
          (log_net (OpSend (chars "enc" ++ [0]) 4)
             (put_wire (chars "enc" ++ [0])
                (log_net (OpRecv 4 4) (set_rx q w)))))).
Proof.
  intros Htx Hrx. unfold EncServer.validate. cbv zeta.
  erewrite bind_Ret by (apply recv_segment; [exact Hrx | discriminate | simpl; lia]).
  cbn -[send close strcmp].
  erewrite bind_Ret by (apply send_whole; exact Htx).
  reflexivity.
Qed.

Lemma server_validate_enc (w : world) (q : list rx_event) :
  tx w = [] -> rx w = RxData (chars "enc" ++ [0]) :: q ->
  EncServer.validate w
  = (Ret tt,
     log_net (OpSend (chars "enc" ++ [0]) 4)
       (put_wire (chars "enc" ++ [0])
          (log_net (OpRecv 4 4) (set_rx q w)))).
Proof.
  intros Htx Hrx. unfold EncServer.validate. cbv zeta.
  erewrite bind_Ret by (apply recv_segment; [exact Hrx | discriminate | simpl; lia]).
  cbn -[send close strcmp].
  erewrite bind_Ret by (apply send_whole; exact Htx).
  reflexivity.
Qed.

Lemma client_validate_enc (w : world) (q : list rx_event) :
  tx w = [] -> rx w = RxData (chars "enc" ++ [0]) :: q ->
  DecClient.validate w
  = (Exit 2,
     put_stderr ("Server not dec_server"%string, [])
       (log_net OpClose
          (log_net (OpRecv 4 4)
             (set_rx q
                (log_net (OpSend (chars "dec" ++ [0]) 4)
                   (put_wire (chars "dec" ++ [0]) w)))))).
Proof.
  intros Htx Hrx. unfold DecClient.validate. cbv zeta.
  erewrite bind_Ret by (apply send_whole; exact Htx).
  cbn -[send recv close strcmp].
  erewrite bind_Ret
    by (apply recv_segment; [exact Hrx | discriminate | simpl; lia]).
  reflexivity.
Qed.

(** C5 - Handshake: equal tags pass, different tags fail.  For the server
    of enc_server.c (tag "enc") on a connection whose sends are taken
    whole: when the peer's tag is "enc" [validate] returns and the worker
    goes on to the message exchange; when the peer's tag is "dec" (the
    client of dec_client.c) the worker sends its own tag, closes the
    connection and exits with status 2, having read nothing after the tag
    and sent nothing but its tag.  The client of dec_client.c that receives
    the tag "enc" closes and exits with status 2 in the same way. *)
Theorem handshake_equal_tags (fuel : nat) (w : world) (q : list rx_event) :
  tx w = [] ->
  (rx w = RxData (chars "enc" ++ [0]) :: q ->
   exists w', EncServer.validate w = (Ret tt, w')
     /\ EncServer.worker fuel w = (EncServer.handleOtpComm fuel ;; exit 0) w'
     /\ rx w' = q
     /\ net w' = net w ++ [OpRecv 4 4; OpSend (chars "enc" ++ [0]) 4])
  /\ (rx w = RxData (chars "dec" ++ [0]) :: q ->
      exists w', EncServer.worker fuel w = (Exit 2, w')
        /\ net w' = net w ++ [OpRecv 4 4; OpSend (chars "enc" ++ [0]) 4; OpClose]
        /\ rx w' = q
        /\ wire w' = wire w ++ chars "enc" ++ [0])
  /\ (rx w = RxData (chars "enc" ++ [0]) :: q ->
      exists w', DecClient.validate w = (Exit 2, w')
        /\ net w' = net w ++ [OpSend (chars "dec" ++ [0]) 4; OpRecv 4 4; OpClose]
        /\ rx w' = q
        /\ wire w' = wire w ++ chars "dec" ++ [0]).
Proof.
  intros Htx. split; [|split]; intros Hrx.
  - eexists. split; [exact (server_validate_enc w q Htx Hrx)|].
    split; [|split].
    + unfold EncServer.worker.
      now rewrite (bind_Ret _ _ _ _ _ (server_validate_enc w q Htx Hrx)).
    + reflexivity.
    + cbn. now rewrite <- app_assoc.
  - eexists. split; [|split; [|split]].
    + unfold EncServer.worker.
      now rewrite (bind_Exit _ _ _ _ _ (server_validate_dec w q Htx Hrx)).
    + cbn. now rewrite <- !app_assoc.
    + reflexivity.
    + reflexivity.
  - eexists. split; [exact (client_validate_enc w q Htx Hrx)|].
    split; [|split].
    + cbn. now rewrite <- !app_assoc.
    + reflexivity.
    + reflexivity.
Qed.

Lemma handshake_equal_tags_witness :
  exists w',
    EncServer.worker 8
      (start (fair no_files)
         [RxData (chars "dec" ++ [0]); RxData (int_bytes 5 ++ chars "HELLO")] [])
    = (Exit 2, w')
    /\ net w' = [OpRecv 4 4; OpSend (chars "enc" ++ [0]) 4; OpClose]
    /\ rx w' = [RxData (int_bytes 5 ++ chars "HELLO")]
    /\ wire w' = chars "enc" ++ [0].
Proof.
  destruct (handshake_equal_tags 8
              (start (fair no_files)
                 [RxData (chars "dec" ++ [0]);
                  RxData (int_bytes 5 ++ chars "HELLO")] [])
              [RxData (int_bytes 5 ++ chars "HELLO")] eq_refl)
    as (_ & H & _).
  exact (H eq_refl).
Defined.

(** The claim of the spec at the pair of programs at hand: the server of
    enc_server.c and the client of dec_client.c, each receiving the tag the
    other sends, do not complete the handshake (both exit with status 2),
    and the server does complete it with a peer that sends "enc". *)
Lemma enc_server_dec_client_mismatch :
  let client_tag := wire (snd (DecClient.validate (start (fair no_files) [] []))) in
  let server_tag := wire (snd (EncServer.validate (start (fair no_files) [] []))) in
  client_tag = chars "dec" ++ [0]
  /\ server_tag = chars "enc" ++ [0]
  /\ fst (EncServer.validate (start (fair no_files) [RxData client_tag] [])) = Exit 2
  /\ fst (EncServer.validate (start (fair no_files) [RxData client_tag] [])) <> Ret tt
  /\ fst (DecClient.validate (start (fair no_files) [RxData server_tag] [])) = Exit 2
  /\ fst (EncServer.validate (start (fair no_files) [RxData server_tag] [])) = Ret tt
  /\ fst (EncServer.validate (start (fair no_files) [RxData server_tag] [])) <> Exit 2.
Proof.
  cbv zeta. repeat split; try reflexivity; discriminate.
Qed.

(** ** The file reader of the client *)

(** The test of line 176 rejects exactly the characters outside the
    alphabet. *)
Lemma invalid_char_is_symbol (c : Z) :
  DecClient.invalid_char c = negb (Alphabet.is_symbol c).
Proof.
  destruct (Alphabet.is_symbol c) eqn:E; cbn [negb].
  - apply is_symbol_In in E. revert c E. apply Forall_forall.
    repeat constructor.
  - destruct (DecClient.invalid_char c) eqn:I; [reflexivity|]. exfalso.
    assert (H : Alphabet.is_symbol c = true); [|congruence].
    unfold DecClient.invalid_char in I.
    change (chr "A") with 65 in I. change (chr "Z") with 90 in I.
    change (chr " ") with 32 in I.
    destruct (Z.eqb_spec c 32) as [->|_]; [reflexivity|].
    destruct (Z.ltb_spec c 65); [discriminate|].
    destruct (Z.gtb_spec c 90); [discriminate|].
    assert (Hk : exists k, (k < 26)%nat /\ c = 65 + Z.of_nat k)
      by (exists (Z.to_nat (c - 65)); lia).
    destruct Hk as (k & Hk & ->).
    do 26 (destruct k as [|k]; [reflexivity|]). lia.
Qed.

(** At the end of the file [fgetc] gives [EOF], which the test rejects:
    the branch of [read_loop] that goes on after it is dead. *)
Lemma eof_invalid : DecClient.invalid_char (to_char (DecClient.fgetc [])) = true.
Proof. reflexivity. Qed.

Lemma read_loop_unfold (path : string) (rest : list Z) (len i : Z) (acc : list Z) :
  DecClient.read_loop path rest len i acc
  = if to_size_t i <? len then
      let c := to_char (DecClient.fgetc rest) in
      if DecClient.invalid_char c then
        error 0 "Invalid character found in file %s: %c, %d"
          [ArgS path; ArgC c; ArgD c]
      else
        match rest with
        | [] => undef
        | _ :: rest' =>
            if i =? INT_MAX then undef
            else DecClient.read_loop path rest' len (i + 1) (acc ++ [c])
        end
    else ret acc.
Proof. destruct rest; reflexivity. Qed.

(** The loop over a stretch of valid bytes that ends where [len] does. *)
Lemma read_loop_body (path : string) (body rest : list Z) (len i : Z)
  (acc : list Z) (w : world) :
  Forall (fun b => DecClient.invalid_char (to_char b) = false) body ->
  0 <= i -> len = i + Z.of_nat (length body) -> len <= INT_MAX ->
  DecClient.read_loop path (body ++ rest) len i acc w
  = (Ret (acc ++ map to_char body), w).
Proof.
  intros Hbody. revert i acc.
  induction Hbody as [|b body Hb _ IH]; intros i acc Hi Hlen Hmax.
  - rewrite read_loop_unfold, to_size_t_small by (simpl in Hlen; lia).
    simpl in Hlen. destruct (Z.ltb_spec i len); [lia|].
    cbn [map]. now rewrite app_nil_r.
  - rewrite read_loop_unfold, to_size_t_small
      by (cbn [length] in Hlen; lia).
    cbn [length] in Hlen.
    destruct (Z.ltb_spec i len); [|lia].
    cbn [app DecClient.fgetc]. cbv zeta. rewrite Hb.
    destruct (Z.eqb_spec i INT_MAX); [lia|].
    rewrite IH by lia. cbn [map]. now rewrite <- app_assoc.
Qed.

(** The loop that meets an invalid byte after a stretch of valid ones. *)
Lemma read_loop_bad (path : string) (pre rest : list Z) (b len i : Z)
  (acc : list Z) (w : world) :
  Forall (fun b => DecClient.invalid_char (to_char b) = false) pre ->
  DecClient.invalid_char (to_char b) = true ->
  0 <= i -> i + Z.of_nat (length pre) < len -> len <= INT_MAX ->
  DecClient.read_loop path (pre ++ b :: rest) len i acc w
  = (Exit 0,
     put_stderr ("Invalid character found in file %s: %c, %d"%string,
                 [ArgS path; ArgC (to_char b); ArgD (to_char b)]) w).
Proof.
  intros Hpre Hb. revert i acc.
  induction Hpre as [|p pre Hp _ IH]; intros i acc Hi Hlen Hmax.
  - rewrite read_loop_unfold, to_size_t_small by (simpl in Hlen; lia).
    simpl in Hlen. destruct (Z.ltb_spec i len); [|lia].
    cbn [app DecClient.fgetc]. cbv zeta. now rewrite Hb.
  - rewrite read_loop_unfold, to_size_t_small
      by (cbn [length] in Hlen; lia).
    cbn [length] in Hlen.
    destruct (Z.ltb_spec i len); [|lia].
    cbn [app DecClient.fgetc]. cbv zeta. rewrite Hp.
    destruct (Z.eqb_spec i INT_MAX); [lia|].
    apply IH; lia.
Qed.

(** A run of the loop that returns has changed nothing in the world, and
    every character it stored passed the test. *)
Lemma read_loop_Ret (path : string) (rest : list Z) (len i : Z)
  (acc r : list Z) (w w' : world) :
  DecClient.read_loop path rest len i acc w = (Ret r, w') ->
  w' = w
  /\ exists body, r = acc ++ body
                  /\ Forall (fun c => DecClient.invalid_char c = false) body.
Proof.
  revert i acc. induction rest as [|b rest IH]; intros i acc;
    rewrite read_loop_unfold; cbv zeta.
  - destruct (to_size_t i <? len).
    + rewrite eof_invalid. discriminate.
    + intros [= <- <-]. split; [reflexivity|]. exists [].
      split; [now rewrite app_nil_r | constructor].
  - destruct (to_size_t i <? len).
    + cbn [DecClient.fgetc].
      destruct (DecClient.invalid_char (to_char b)) eqn:Hb; [discriminate|].
      destruct (i =? INT_MAX); [discriminate|].
      intros H. destruct (IH _ _ H) as (-> & body & -> & Hbody).
      split; [reflexivity|]. exists (to_char b :: body).
      split; [now rewrite <- app_assoc | now constructor].
    + intros [= <- <-]. split; [reflexivity|]. exists [].
      split; [now rewrite app_nil_r | constructor].
Qed.

Lemma invalid_char_nonzero (c : Z) : DecClient.invalid_char c = false -> c <> 0.
Proof. intros H ->. discriminate H. Qed.

(** [stringFromFile] returns a buffer only after reading the file without
    touching the world; the buffer is a terminated string of characters of
    the alphabet. *)
Lemma stringFromFile_Ret (path : string) (w w' : world) (buf : list Z) :
  DecClient.stringFromFile path w = (Ret buf, w') ->
  w' = w
  /\ exists body, buf = body ++ [0]
                  /\ Forall (fun c => DecClient.invalid_char c = false) body
                  /\ strlen buf = length body.
Proof.
  unfold DecClient.stringFromFile.
  destruct (files (env w) path) as [content|]; [|discriminate].
  unfold bind at 1, malloc at 1.
  destruct (malloc_ok (env w) _); cbn [negb]; [|discriminate].
  unfold bind.
  destruct (DecClient.read_loop path content _ 0 [] w) as [[r|s| | |sig] w1] eqn:E;
    try discriminate.
  intros [= <- <-].
  destruct (read_loop_Ret _ _ _ _ _ _ _ _ E) as (-> & body & -> & Hbody).
  split; [reflexivity|]. exists body. cbn [app].
  split; [reflexivity|]. split; [assumption|].
  apply strlen_terminated.
  eapply Forall_impl; [|exact Hbody]. exact invalid_char_nonzero.
Qed.

(** A file that ends in a newline, of a size that fits an [int] and whose
    buffer can be allocated.  When all the bytes before the newline are
    characters of the alphabet, [stringFromFile] returns them as a string:
    the contents with the newline stripped.  When one of them is outside
    the alphabet it reports the path, the first such character and its
    code, and exits. *)
Lemma stringFromFile_newline_file (path : string) (w : world) (body : list Z) :
  files (env w) path = Some (body ++ [10]) ->
  malloc_ok (env w) (Z.of_nat (length body) + 1) = true ->
  Z.of_nat (length body) < INT_MAX ->
  (Alphabet.valid (map to_char body) ->
   DecClient.stringFromFile path w = (Ret (map to_char body ++ [0]), w))
  /\ (forall pre b post,
         body = pre ++ b :: post ->
         Alphabet.valid (map to_char pre) ->
         Alphabet.is_symbol (to_char b) = false ->
         DecClient.stringFromFile path w
         = (Exit 0,
            put_stderr ("Invalid character found in file %s: %c, %d"%string,
                        [ArgS path; ArgC (to_char b); ArgD (to_char b)]) w)).
Proof.
  intros Hfile Hmalloc Hsize.
  assert (Hvalid : forall l, Alphabet.valid (map to_char l) ->
            Forall (fun b => DecClient.invalid_char (to_char b) = false) l).
  { intros l Hl. unfold Alphabet.valid in Hl. rewrite Forall_map in Hl.
    eapply Forall_impl; [|exact Hl]. cbv beta. intros c Hc.
    now rewrite invalid_char_is_symbol, Hc. }
  assert (Hlen : to_size_t (Z.of_nat (length (body ++ [10])) - 1)
                 = Z.of_nat (length body)).
  { rewrite length_app. cbn [length]. rewrite to_size_t_small; unfold INT_MAX in *; lia. }
  assert (Hlen1 : to_size_t (Z.of_nat (length body) + 1) = Z.of_nat (length body) + 1).
  { apply to_size_t_small. unfold INT_MAX in *. lia. }
  assert (Hstart : DecClient.stringFromFile path w
                   = bind (DecClient.read_loop path (body ++ [10])
                             (Z.of_nat (length body)) 0 [])
                          (fun buffer => ret (buffer ++ [0])) w).
  { unfold DecClient.stringFromFile. rewrite Hfile. cbv zeta.
    rewrite Hlen, Hlen1. unfold bind at 1, malloc at 1. rewrite Hmalloc.
    reflexivity. }
  split.
  - intros Hbody. rewrite Hstart.
    erewrite bind_Ret; [reflexivity|].
    apply read_loop_body; [now apply Hvalid | lia | lia | lia].
  - intros pre b post -> Hpre Hb. rewrite Hstart.
    rewrite <- app_assoc. cbn [app].
    erewrite bind_Exit; [reflexivity|].
    apply read_loop_bad.
    + now apply Hvalid.
    + now rewrite invalid_char_is_symbol, Hb.
    + lia.
    + rewrite length_app. cbn [length]. lia.
    + lia.
Qed.

(** C8 - File reader.  [stringFromFile] takes the length of the string to
    be the size of the file less one and reads and tests that many bytes:
    the last byte of the file is left out without being looked at.  For a
    file that ends in a newline this strips the newline (the file "AB\n"
    comes back as "AB", and "A$B\n" is refused with the character '$' and
    its code 36).  For a file that does not, the contents do not come back
    unchanged and a byte outside the alphabet is not found: the file "AB"
    comes back as "A", and the file "AB$", whose last byte is not in the
    alphabet, is accepted as "AB" with nothing reported. *)
Theorem stringFromFile_drops_last_byte :
  let w := start (fair (with_file "plain" (chars "AB")
                          (with_file "dollar" (chars "AB$")
                             (with_file "line" (chars "AB" ++ [10])
                                (with_file "bad" (chars "A$B" ++ [10]) no_files))))) [] [] in
  fst (DecClient.stringFromFile "plain" w) = Ret (chars "A" ++ [0])
  /\ fst (DecClient.stringFromFile "plain" w) <> Ret (chars "AB" ++ [0])
  /\ Alphabet.is_symbol (chr "$") = false
  /\ observe (DecClient.stringFromFile "dollar" w)
     = (Ret (chars "AB" ++ [0]), [], [], [], [])
  /\ observe (DecClient.stringFromFile "line" w)
     = (Ret (chars "AB" ++ [0]), [], [], [], [])
  /\ observe (DecClient.stringFromFile "bad" w)
     = (Exit 0, [],
        [("Invalid character found in file %s: %c, %d"%string,
          [ArgS "bad"; ArgC (chr "$"); ArgD 36])], [], []).
Proof.
  cbv zeta. repeat split. discriminate.
Qed.

(** ** The client's [main] (sections 6 and 7) *)

(** C7 - Key too short.  Whenever the client has read a text and a key
    (the two calls of [stringFromFile] returned) and the key is strictly
    shorter than the text, [main] ends in [error] with the message "Key
    shorter than text" (the status it exits with is 0) and has made no call
    on the network: no socket was opened, nothing was sent or received.  The server does not make up for
    it: given a key shorter than the text, its loop goes on to read the key
    at the index where the key ends. *)
Theorem key_too_short_rejected (fuel : nat) (argv : list string)
  (w w1 w2 : world) (text key : list Z) :
  (4 <= length argv)%nat ->
  DecClient.stringFromFile (nth 1 argv EmptyString) w = (Ret text, w1) ->
  DecClient.stringFromFile (nth 2 argv EmptyString) w1 = (Ret key, w2) ->
  (strlen key < strlen text)%nat ->
  (exists w',
      DecClient.main fuel argv w = (Exit 0, w')
      /\ stderr w' = stderr w ++ [("Key shorter than text"%string, [])]
      /\ net w' = net w /\ wire w' = wire w /\ rx w' = rx w /\ tx w' = tx w)
  /\ (forall T K : list Z,
         Z.of_nat (strlen (T ++ [0])) <= INT_MAX ->
         (length K < strlen (T ++ [0%Z]))%nat ->
         In (length K) (Cipher.key_reads T K)).
Proof.
  intros Hargc Ht Hk Hshort. split.
  - destruct (stringFromFile_Ret _ _ _ _ Ht) as (-> & _).
    destruct (stringFromFile_Ret _ _ _ _ Hk) as (-> & _).
    eexists. split.
    + unfold DecClient.main. cbv zeta.
      destruct (Z.ltb_spec (Z.of_nat (length argv)) 4) as [|_]; [lia|].
      rewrite (bind_Ret _ _ _ _ _ Ht), (bind_Ret _ _ _ _ _ Hk).
      destruct (Z.gtb_spec (Z.of_nat (strlen text)) (Z.of_nat (strlen key)));
        [reflexivity | lia].
    + repeat split.
  - intros T K Hmax Hlt.
    destruct (key_reads_seq T K Hmax) as (-> & _).
    apply in_seq. lia.
Qed.

Lemma key_too_short_rejected_witness :
  let fs := with_file "text" (chars "HELLOHELLO" ++ [10])
              (with_file "key" (chars "WORLD" ++ [10]) no_files) in
  exists w',
    DecClient.main 0 ["dec_client"; "text"; "key"; "5000"]%string
      (start (fair fs) [] [])
    = (Exit 0, w')
    /\ stderr w' = [("Key shorter than text"%string, [])]
    /\ net w' = [] /\ wire w' = [].
Proof.
  intros fs.
  destruct (key_too_short_rejected 0 ["dec_client"; "text"; "key"; "5000"]%string
              (start (fair fs) [] []) (start (fair fs) [] []) (start (fair fs) [] [])
              (chars "HELLOHELLO" ++ [0]) (chars "WORLD" ++ [0]))
    as ((w' & Hmain & Herr & Hnet & Hwire & _) & _).
  - simpl. lia.
  - reflexivity.
  - reflexivity.
  - vm_compute. lia.
  - exists w'. repeat split; assumption.
Defined.

(** Missing arguments: the client exits with status 0, whatever the rest of
    the world. *)
Lemma client_usage_exit (fuel : nat) (argv : list string) (w : world) :
  (length argv < 4)%nat ->
  DecClient.main fuel argv w
  = (Exit 0, put_stderr ("USAGE: %s port\n"%string, [ArgS (nth 0 argv EmptyString)]) w).
Proof.
  intros Hargc. unfold DecClient.main. cbv zeta.
  destruct (Z.ltb_spec (Z.of_nat (length argv)) 4); [reflexivity | lia].
Qed.

(** Missing arguments: the server exits with status 1. *)
Lemma server_usage_exit (argv : list string) (w : world) :
  (length argv < 2)%nat ->
  EncServer.main_startup argv w
  = (Exit 1, put_stderr ("USAGE: %s port\n"%string, [ArgS (nth 0 argv EmptyString)]) w).
Proof.
  intros Hargc. unfold EncServer.main_startup. cbv zeta.
  destruct (Z.ltb_spec (Z.of_nat (length argv)) 2); [reflexivity | lia].
Qed.

(** C6 - Exit codes of the client's own failures.  With a text file
    "HELLOHELLO", a key file "WORLD", a file holding a character outside the
    alphabet and no file named "missing": the client started without its
    arguments, with a text file that cannot be opened, with an invalid text
    file, or with a key shorter than the text reports the error and exits
    with status 0 each time, not 1, before any call on the network.  The
    server started without its argument exits with status 1. *)
Theorem client_failures_exit_0 :
  let fs := with_file "text" (chars "HELLOHELLO" ++ [10])
              (with_file "key" (chars "WORLD" ++ [10])
                 (with_file "bad" (chars "HEL$LO" ++ [10]) no_files)) in
  let w := start (fair fs) [] [] in
  observe (DecClient.main 0 ["dec_client"]%string w)
  = (Exit 0, [], [("USAGE: %s port\n"%string, [ArgS "dec_client"])], [], [])
  /\ observe (DecClient.main 0 ["dec_client"; "missing"; "key"; "5000"]%string w)
     = (Exit 0, [], [("Unable to open file: %s"%string, [ArgS "missing"])], [], [])
  /\ observe (DecClient.main 0 ["dec_client"; "bad"; "key"; "5000"]%string w)
     = (Exit 0, [],
        [("Invalid character found in file %s: %c, %d"%string,
          [ArgS "bad"; ArgC (chr "$"); ArgD 36])], [], [])
  /\ observe (DecClient.main 0 ["dec_client"; "text"; "key"; "5000"]%string w)
     = (Exit 0, [], [("Key shorter than text"%string, [])], [], [])
  /\ observe (EncServer.main_startup ["enc_server"]%string w)
     = (Exit 1, [], [("USAGE: %s port\n"%string, [ArgS "enc_server"])], [], []).
Proof. cbv zeta. repeat split. Qed.

(** ** Whole runs *)

(** The worker of enc_server.c serving a peer that sends the tag "enc",
    the text "HELLO" and the key "WORLD": the ciphertext "CSBWR" goes back
    as one framed message and the worker exits with status 0. *)
Example worker_hello_world :
  observe (EncServer.worker 8
             (start (fair no_files)
                [RxData (chars "enc" ++ [0]);
                 RxData (int_bytes 5 ++ chars "HELLO");
                 RxData (int_bytes 5 ++ chars "WORLD")] []))
  = (Exit 0,
     [OpRecv 4 4; OpSend (chars "enc" ++ [0]) 4;
      OpRecv 4 4; OpRecv 5 5; OpRecv 4 4; OpRecv 5 5;
      OpSend (int_bytes 5) 4; OpSend (chars "CSBWR") 5; OpClose],
     [], [],
     chars "enc" ++ [0] ++ int_bytes 5 ++ chars "CSBWR").
Proof. reflexivity. Qed.

(** The client of dec_client.c with a text file and a key file, served by
    a peer that answers the tag "dec" and one framed message. *)
Example client_hello_world :
  let fs := with_file "text" (chars "CSBWR" ++ [10])
              (with_file "key" (chars "WORLD" ++ [10]) no_files) in
  observe (DecClient.main 8 ["dec_client"; "text"; "key"; "5000"]%string
             (start (fair fs)
                [RxData (chars "dec" ++ [0]); RxData (int_bytes 5 ++ chars "HELLO")]
                []))
  = (Ret 0,
     [OpSocket; OpResolve "localhost"; OpConnect;
      OpSend (chars "dec" ++ [0]) 4; OpRecv 4 4;
      OpSend (int_bytes 5) 4; OpSend (chars "CSBWR") 5;
      OpSend (int_bytes 5) 4; OpSend (chars "WORLD") 5;
      OpRecv 4 4; OpRecv 5 5; OpClose],
     [], [chars "HELLO"],
     chars "dec" ++ [0] ++ int_bytes 5 ++ chars "CSBWR"
       ++ int_bytes 5 ++ chars "WORLD").
Proof. reflexivity. Qed.

(** The same peer closes the connection once it has read the server's
    tag: the first [send] of the reply raises SIGPIPE, and the worker ends
    without a call of [exit], without a message and with nothing more
    sent. *)
Example worker_peer_closes_early :
  observe (EncServer.worker 8
             (start (fair no_files)
                [RxData (chars "enc" ++ [0]);
                 RxData (int_bytes 5 ++ chars "HELLO");
                 RxData (int_bytes 5 ++ chars "WORLD")]
                [TxAccept 4; TxSigpipe]))
  = (Killed SIGPIPE,
     [OpRecv 4 4; OpSend (chars "enc" ++ [0]) 4;
      OpRecv 4 4; OpRecv 5 5; OpRecv 4 4; OpRecv 5 5],
     [], [],
     chars "enc" ++ [0]).
Proof. reflexivity. Qed.

(** The client with a server that takes the tag and the text and never
    reads the key: the client stays in the [send] that does not return. *)
Example client_server_stalls :
  let fs := with_file "text" (chars "CSBWR" ++ [10])
              (with_file "key" (chars "WORLD" ++ [10]) no_files) in
  observe (DecClient.main 8 ["dec_client"; "text"; "key"; "5000"]%string
             (start (fair fs)
                [RxData (chars "dec" ++ [0])]
                [TxAccept 4; TxAccept 4; TxAccept 5; TxBlocks]))
  = (Running,
     [OpSocket; OpResolve "localhost"; OpConnect;
      OpSend (chars "dec" ++ [0]) 4; OpRecv 4 4;
      OpSend (int_bytes 5) 4; OpSend (chars "CSBWR") 5],
     [], [],
     chars "dec" ++ [0] ++ int_bytes 5 ++ chars "CSBWR").
Proof. reflexivity. Qed.

(** ** More on the cipher loop of [handleOtpComm] *)

Lemma to_int_le (z : Z) : 0 <= z -> to_int z <= z.
Proof.
  intros Hz. unfold to_int.
  pose proof (Z.mod_le (z + 2147483648) 4294967296). lia.
Qed.

Lemma strlen_cut (s rest : list Z) : strlen (s ++ 0 :: rest) = strlen (s ++ [0]).
Proof.
  induction s as [|c s IH]; [reflexivity|].
  cbn [app strlen]. now rewrite IH.
Qed.

(** The loop depends on the two buffers only at the indices it visits. *)
Lemma otp_loop_ext (text text' key key' : list Z) (n i : nat) :
  (forall j, (i <= j < i + n)%nat -> nth_error text j = nth_error text' j) ->
  (forall j, (i <= j < i + n)%nat -> nth_error key j = nth_error key' j) ->
  Cipher.otp_loop text key i n = Cipher.otp_loop text' key' i n.
Proof.
  revert i. induction n as [|n IH]; intros i Ht Hk; [reflexivity|].
  cbn [Cipher.otp_loop].
  rewrite <- (Ht i), <- (Hk i) by lia.
  rewrite (IH (S i)); [reflexivity | |]; intros j Hj; [apply Ht | apply Hk]; lia.
Qed.

Lemma otp_turns_le (text : list Z) :
  (Z.to_nat (to_int (Z.of_nat (strlen (text ++ [0%Z])))) <= strlen (text ++ [0%Z]))%nat.
Proof.
  pose proof (to_int_le (Z.of_nat (strlen (text ++ [0])))). lia.
Qed.

(** X1 - Only the part of the key that lies under the text is used: for a
    text and a key of any content, with the key at least as long as the
    text ([strlen] of the text), whatever follows the key changes neither
    the result of the loop of [handleOtpComm] nor the indices it reads. *)
Theorem encrypt_key_suffix_ignored (text key extra : list Z) :
  (strlen (text ++ [0%Z]) <= length key)%nat ->
  Cipher.encrypt text (key ++ extra) = Cipher.encrypt text key
  /\ Cipher.key_reads text (key ++ extra) = Cipher.key_reads text key.
Proof.
  intros Hlen.
  assert (E : Cipher.otp (text ++ [0]) ((key ++ extra) ++ [0])
              = Cipher.otp (text ++ [0]) (key ++ [0])).
  { unfold Cipher.otp. cbv zeta. pose proof (otp_turns_le text).
    apply otp_loop_ext; intros j Hj; [reflexivity|].
    rewrite <- app_assoc, !nth_error_app1 by lia. reflexivity. }
  unfold Cipher.encrypt, Cipher.key_reads. now rewrite E.
Qed.

Lemma encrypt_key_suffix_ignored_witness :
  Cipher.encrypt (chars "HELLO") (chars "WORLD" ++ chars " IS ROUND")
  = Cipher.encrypt (chars "HELLO") (chars "WORLD").
Proof.
  apply (encrypt_key_suffix_ignored (chars "HELLO") (chars "WORLD") (chars " IS ROUND")).
  simpl. lia.
Defined.

(** X2 - A NUL byte in the received text ends it: the loop of
    [handleOtpComm] runs to [strlen(text)], so for a text and a key of any
    content the bytes of the text from its first NUL on have no effect on
    the result or on the reads of the key. *)
Theorem encrypt_stops_at_nul (text rest key : list Z) :
  Cipher.encrypt (text ++ 0 :: rest) key = Cipher.encrypt text key
  /\ Cipher.key_reads (text ++ 0 :: rest) key = Cipher.key_reads text key.
Proof.
  assert (E : Cipher.otp ((text ++ 0 :: rest) ++ [0]) (key ++ [0])
              = Cipher.otp (text ++ [0]) (key ++ [0])).
  { unfold Cipher.otp. cbv zeta.
    rewrite <- app_assoc. cbn [app]. rewrite strlen_cut.
    pose proof (otp_turns_le text). pose proof (strlen_app_le text).
    apply otp_loop_ext; intros j Hj; [|reflexivity].
    rewrite !nth_error_app1 by lia. reflexivity. }
  unfold Cipher.encrypt, Cipher.key_reads. now rewrite E.
Qed.

Lemma zip_injective (T1 T2 K : list Z) :
  Alphabet.valid T1 -> Alphabet.valid T2 -> Alphabet.valid K ->
  length T1 = length T2 -> (length T1 <= length K)%nat ->
  Cipher.zip T1 K = Cipher.zip T2 K -> T1 = T2.
Proof.
  unfold Alphabet.valid. intros H1. revert T2 K.
  induction H1 as [|t1 T1 Ht1 _ IH]; intros T2 K H2 HK Hlen Hle Hzip.
  - destruct T2; [reflexivity | discriminate].
  - destruct H2 as [|t2 T2 Ht2 H2]; [discriminate|].
    destruct HK as [|k K Hk HK]; [simpl in Hle; lia|].
    cbn [Cipher.zip combine map fst snd] in Hzip.
    injection Hzip as Hhead Htail. f_equal.
    + rewrite <- (decSymbol_encChar t1 k), <- (decSymbol_encChar t2 k) by assumption.
      now rewrite Hhead.
    + apply (IH T2 K); auto; simpl in Hlen, Hle; lia.
Qed.

(** X3 - No two texts collide: for texts and a key drawn from the alphabet,
    the key at least as long as both texts, two texts with the same
    encryption under the key are the same text. *)
Theorem encrypt_injective (T1 T2 K : list Z) :
  Alphabet.valid T1 -> Alphabet.valid T2 -> Alphabet.valid K ->
  (length T1 <= length K)%nat -> (length T2 <= length K)%nat ->
  Z.of_nat (length K) <= INT_MAX ->
  Cipher.encrypt T1 K = Cipher.encrypt T2 K -> T1 = T2.
Proof.
  intros H1 H2 HK Hl1 Hl2 Hmax. unfold Cipher.encrypt.
  rewrite !encrypt_zip by (auto using valid_nonzero; lia).
  cbn [snd]. intros [= Hzip].
  apply (zip_injective T1 T2 K); auto.
  rewrite <- (zip_length T1 K), <- (zip_length T2 K) by assumption.
  now rewrite Hzip.
Qed.

Lemma encrypt_injective_witness :
  Cipher.encrypt (chars "HELLO") (chars "WORLD") = Some (chars "CSBWR")
  /\ chars "HELLO" = chars "HELLO".
Proof.
  split; [reflexivity|].
  apply (encrypt_injective (chars "HELLO") (chars "HELLO") (chars "WORLD")).
  - repeat constructor.
  - repeat constructor.
  - repeat constructor.
  - simpl. lia.
  - simpl. lia.
  - vm_compute. discriminate.
  - reflexivity.
Defined.

Lemma encChar_comm (t k : Z) : Cipher.encChar t k = Cipher.encChar k t.
Proof.
  unfold Cipher.encChar, Cipher.encVal, Cipher.txtVal, Cipher.keyVal.
  now rewrite Z.add_comm.
Qed.

Lemma zip_comm (T K : list Z) : Cipher.zip T K = Cipher.zip K T.
Proof.
  revert K. induction T as [|t T IH]; intros [|k K]; try reflexivity.
  cbn [Cipher.zip combine map fst snd]. f_equal; [apply encChar_comm | apply IH].
Qed.

(** X4 - Text and key are interchangeable: the loop adds the two values
    of a position, so for a text and a key without NUL of the same length
    encrypting the text under the key and the key under the text give the
    same result. *)
Theorem encrypt_commutes (T K : list Z) :
  Forall (fun c => c <> 0) T -> Forall (fun c => c <> 0) K ->
  length T = length K -> Z.of_nat (length T) <= INT_MAX ->
  Cipher.encrypt T K = Cipher.encrypt K T.
Proof.
  intros HT HK Hlen Hmax. unfold Cipher.encrypt.
  rewrite !encrypt_zip by (auto; lia).
  cbn [snd]. now rewrite zip_comm.
Qed.

Lemma encrypt_commutes_witness :
  Cipher.encrypt (chars "HELLO") (chars "WORLD")
  = Cipher.encrypt (chars "WORLD") (chars "HELLO").
Proof.
  apply encrypt_commutes.
  - repeat constructor; discriminate.
  - repeat constructor; discriminate.
  - reflexivity.
  - vm_compute. discriminate.
Defined.

(** ** More on runs *)

Lemma bind_Exit_inv {A B} (c : M A) (k : A -> M B) (w w' : world) (s : Z) :
  bind c k w = (Exit s, w') ->
  c w = (Exit s, w') \/ exists a w1, c w = (Ret a, w1) /\ k a w1 = (Exit s, w').
Proof.
  unfold bind. destruct (c w) as [[a|s0| | |sig] w1]; intros H.
  - right. now exists a, w1.
  - left. injection H as -> ->. reflexivity.
  - discriminate.
  - discriminate.
  - discriminate.
Qed.

Lemma bind_Killed {A B} (c : M A) (k : A -> M B) (w w' : world) (sig : Z) :
  c w = (Killed sig, w') -> bind c k w = (Killed sig, w').
Proof. intros H. unfold bind. now rewrite H. Qed.

Lemma bind_blocked {A B} (c : M A) (k : A -> M B) (w w' : world) :
  c w = (Running, w') -> bind c k w = (Running, w').
Proof. intros H. unfold bind. now rewrite H. Qed.

Lemma bind_Killed_inv {A B} (c : M A) (k : A -> M B) (w w' : world) (sig : Z) :
  bind c k w = (Killed sig, w') ->
  c w = (Killed sig, w') \/ exists a w1, c w = (Ret a, w1) /\ k a w1 = (Killed sig, w').
Proof.
  unfold bind. destruct (c w) as [[a|s0| | |sig0] w1]; intros H.
  - right. now exists a, w1.
  - discriminate.
  - discriminate.
  - discriminate.
  - left. injection H as -> ->. reflexivity.
Qed.

Lemma bind_Ret_inv {A B} (c : M A) (k : A -> M B) (w w' : world) (b : B) :
  bind c k w = (Ret b, w') ->
  exists a w1, c w = (Ret a, w1) /\ k a w1 = (Ret b, w').
Proof.
  unfold bind. destruct (c w) as [[a|s0| | |sig] w1]; intros H; try discriminate.
  now exists a, w1.
Qed.

(** What a [send] can do: return the number of bytes taken, return -1,
    end the process with SIGPIPE, or not return.  It touches nothing but
    the send script, the stream and the log, and the last three happen
    only when the script says so. *)
Lemma send_spec (data : list Z) (w : world) :
  exists o w1,
    send data w = (o, w1)
    /\ rx w1 = rx w /\ stderr w1 = stderr w /\ stdout w1 = stdout w
    /\ env w1 = env w
    /\ (forall e, In e (tx w1) -> In e (tx w))
    /\ ((exists r, o = Ret r /\ 0 <= r /\ net w1 = net w ++ [OpSend data r])
        \/ (o = Ret (-1) /\ net w1 = net w ++ [OpSend data (-1)]
            /\ In TxError (tx w))
        \/ (o = Killed SIGPIPE /\ net w1 = net w /\ In TxSigpipe (tx w))
        \/ (o = Running /\ net w1 = net w /\ In TxBlocks (tx w))).
Proof.
  unfold send. destruct (tx w) as [|[n| | |] q] eqn:Htx; eexists; eexists;
    (split; [reflexivity|]); cbn [rx stderr stdout env tx net log_net put_wire set_tx];
    rewrite ?Htx; (do 4 (split; [reflexivity|])); (split; [intros e He; now try right|]).
  - left. eexists. split; [reflexivity|]. split; [lia | reflexivity].
  - left. eexists. split; [reflexivity|]. split; [lia | reflexivity].
  - right. left. split; [reflexivity|]. split; [reflexivity | now left].
  - right. right. left. split; [reflexivity|]. split; [reflexivity | now left].
  - right. right. right. split; [reflexivity|]. split; [reflexivity | now left].
Qed.

(** Every [recv] returns; it reports a negative number or the number of
    bytes written, at most the number asked for, and touches nothing but
    the incoming stream and the log. *)
Lemma recv_spec (size : Z) (w : world) :
  exists r bs w1,
    recv size w = (Ret (r, bs), w1)
    /\ (r < 0 \/ (r = Z.of_nat (length bs) /\ (length bs <= Z.to_nat size)%nat))
    /\ net w1 = net w ++ [OpRecv size r]
    /\ tx w1 = tx w /\ wire w1 = wire w /\ stderr w1 = stderr w
    /\ stdout w1 = stdout w /\ env w1 = env w.
Proof.
  unfold recv.
  destruct (recv_from (rx w) (Z.to_nat size)) as [[r bs] q] eqn:E.
  exists r, bs. eexists. split; [reflexivity|].
  split; [exact (recv_from_result _ _ _ _ _ E)|].
  repeat split; reflexivity.
Qed.

(** ** More on framed transport *)

Lemma send_loop_outcome (fuel : nat) (data : list Z) (len i : Z) (w : world) :
  (Z.to_nat (len - i) < fuel)%nat ->
  exists w' ops,
    net w' = net w ++ ops /\ Forall Framing.chunk_send ops
    /\ rx w' = rx w /\ stdout w' = stdout w
    /\ (forall e, In e (tx w') -> In e (tx w))
    /\ ((Framing.send_loop fuel data len i w = (Ret tt, w')
         /\ stderr w' = stderr w)
        \/ (Framing.send_loop fuel data len i w = (Exit 1, w')
            /\ stderr w' = stderr w ++ [("Unable to write to socket"%string, [])]
            /\ In TxError (tx w))
        \/ (Framing.send_loop fuel data len i w = (Killed SIGPIPE, w')
            /\ stderr w' = stderr w /\ In TxSigpipe (tx w))
        \/ (Framing.send_loop fuel data len i w = (Running, w')
            /\ stderr w' = stderr w /\ In TxBlocks (tx w))).
Proof.
  revert i w. induction fuel as [|fuel IH]; intros i w Hfuel; [lia|].
  cbn [Framing.send_loop].
  destruct (Z.ltb_spec i len) as [Hlt|Hge].
  - cbv zeta.
    set (c := if len - i <? Framing.BUFFER_SIZE then len - i else Framing.BUFFER_SIZE).
    assert (Hc : 0 < c <= len - i /\ c <= Framing.BUFFER_SIZE).
    { unfold c, Framing.BUFFER_SIZE.
      destruct (Z.ltb_spec (len - i) 1000); lia. }
    destruct (send_spec (Framing.slice data i c) w)
      as (o & w1 & Hsend & Hrx1 & Herr1 & Hout1 & _ & Htx1 & Hcase).
    assert (Hchunk : forall r, Framing.chunk_send (OpSend (Framing.slice data i c) r)).
    { intros r. exists (Framing.slice data i c), r. split; [reflexivity|].
      pose proof (slice_length_le data i c). lia. }
    destruct Hcase as [(r & -> & Hr & Hnet1)|[(-> & Hnet1 & Hin)|[(-> & Hnet1 & Hin)|(-> & Hnet1 & Hin)]]].
    + rewrite (bind_Ret _ _ _ _ _ Hsend).
      destruct (Z.ltb_spec r 0); [lia|].
      destruct (IH (i + c) w1)
        as (w' & ops & Hnet & Hops & Hrx & Hout & Htx & Hend); [lia|].
      exists w', (OpSend (Framing.slice data i c) r :: ops).
      split; [rewrite Hnet, Hnet1; now rewrite <- app_assoc|].
      split; [constructor; [apply Hchunk | exact Hops]|].
      split; [congruence|]. split; [congruence|].
      split; [auto|].
      rewrite Herr1 in Hend.
      destruct Hend as [E1|[(E1 & E2 & E3)|[(E1 & E2 & E3)|(E1 & E2 & E3)]]]; auto 10.
    + rewrite (bind_Ret _ _ _ _ _ Hsend).
      exists (put_stderr ("Unable to write to socket"%string, []) w1),
        [OpSend (Framing.slice data i c) (-1)].
      cbn [net rx stdout stderr tx put_stderr].
      split; [exact Hnet1|]. split; [constructor; [apply Hchunk | constructor]|].
      split; [exact Hrx1|]. split; [exact Hout1|]. split; [exact Htx1|].
      right. left. split; [reflexivity|]. split; [now rewrite Herr1 | exact Hin].
    + rewrite (bind_Killed _ _ _ _ _ Hsend).
      exists w1, []. rewrite app_nil_r.
      split; [exact Hnet1|]. split; [constructor|].
      split; [exact Hrx1|]. split; [exact Hout1|]. split; [exact Htx1|].
      right. right. left. split; [reflexivity|]. split; assumption.
    + rewrite (bind_blocked _ _ _ _ Hsend).
      exists w1, []. rewrite app_nil_r.
      split; [exact Hnet1|]. split; [constructor|].
      split; [exact Hrx1|]. split; [exact Hout1|]. split; [exact Htx1|].
      right. right. right. split; [reflexivity|]. split; assumption.
  - exists w, []. rewrite app_nil_r.
    split; [reflexivity|]. split; [constructor|].
    split; [reflexivity|]. split; [reflexivity|]. split; [auto|].
    left. split; reflexivity.
Qed.

(** X5 - [sendData] at every string and every behaviour of the transport.
    It ends in one of four ways: it returns; it exits with status 1 after
    the one message "Unable to write to socket" (a [send] returned -1);
    SIGPIPE ends the process (a [send] to a peer that has closed); or it
    stays in a [send] that does not return.  The loop itself never keeps it
    running: with a transport on which every [send] returns it ends.  On the
    network it only sends, first the four bytes of the length, then
    requests of at most [BUFFER_SIZE] bytes; it reads nothing and prints
    nothing. *)
Theorem sendData_outcome (data : list Z) (w : world) :
  exists w' ops,
    net w' = net w ++ ops
    /\ Forall (fun op => exists request result,
                 op = OpSend request result
                 /\ Z.of_nat (length request) <= Framing.BUFFER_SIZE) ops
    /\ rx w' = rx w /\ stdout w' = stdout w
    /\ ((Framing.sendData data w = (Ret tt, w') /\ stderr w' = stderr w)
        \/ (Framing.sendData data w = (Exit 1, w')
            /\ stderr w' = stderr w ++ [("Unable to write to socket"%string, [])]
            /\ In TxError (tx w))
        \/ (Framing.sendData data w = (Killed SIGPIPE, w')
            /\ stderr w' = stderr w /\ In TxSigpipe (tx w))
        \/ (Framing.sendData data w = (Running, w')
            /\ stderr w' = stderr w /\ In TxBlocks (tx w))).
Proof.
  unfold Framing.sendData. cbv zeta.
  set (len := to_int (Z.of_nat (strlen data))).
  destruct (send_spec (int_bytes len) w)
    as (o & w1 & Hsend & Hrx1 & Herr1 & Hout1 & _ & Htx1 & Hcase).
  assert (Hprefix : forall r, exists request result,
             OpSend (int_bytes len) r = OpSend request result
             /\ Z.of_nat (length request) <= Framing.BUFFER_SIZE).
  { intros r. exists (int_bytes len), r. split; [reflexivity|].
    unfold Framing.BUFFER_SIZE. simpl. lia. }
  destruct Hcase as [(r & -> & Hr & Hnet1)|[(-> & Hnet1 & Hin)|[(-> & Hnet1 & Hin)|(-> & Hnet1 & Hin)]]].
  - rewrite (bind_Ret _ _ _ _ _ Hsend).
    destruct (Z.ltb_spec r 0); [lia|].
    destruct (send_loop_outcome (S (Z.to_nat len)) data len 0 w1)
      as (w' & ops & Hnet & Hops & Hrx & Hout & Htx & Hend); [lia|].
    exists w', (OpSend (int_bytes len) r :: ops).
    split; [rewrite Hnet, Hnet1; now rewrite <- app_assoc|].
    split; [constructor; [apply Hprefix | exact Hops]|].
    split; [congruence|]. split; [congruence|].
    rewrite Herr1 in Hend.
    destruct Hend as [E1|[(E1 & E2 & E3)|[(E1 & E2 & E3)|(E1 & E2 & E3)]]]; auto 10.
  - rewrite (bind_Ret _ _ _ _ _ Hsend).
    exists (put_stderr ("Unable to write to socket"%string, []) w1),
      [OpSend (int_bytes len) (-1)].
    cbn [net rx stdout stderr put_stderr].
    split; [exact Hnet1|]. split; [constructor; [apply Hprefix | constructor]|].
    split; [exact Hrx1|]. split; [exact Hout1|].
    right. left. split; [reflexivity|]. split; [now rewrite Herr1 | exact Hin].
  - rewrite (bind_Killed _ _ _ _ _ Hsend).
    exists w1, []. rewrite app_nil_r.
    split; [exact Hnet1|]. split; [constructor|].
    split; [exact Hrx1|]. split; [exact Hout1|].
    right. right. left. split; [reflexivity|]. split; assumption.
  - rewrite (bind_blocked _ _ _ _ Hsend).
    exists w1, []. rewrite app_nil_r.
    split; [exact Hnet1|]. split; [constructor|].
    split; [exact Hrx1|]. split; [exact Hout1|].
    right. right. right. split; [reflexivity|]. split; assumption.
Qed.

(** X6 - [sendData] over a transport that takes every write whole: for a
    string whose length fits an [int] it returns, and the stream has
    received the four bytes of the length followed by exactly the bytes of
    the string before its terminator, the payload in writes of at most
    [BUFFER_SIZE] bytes. *)
Theorem sendData_delivers (data : list Z) (w : world) :
  tx w = [] -> Z.of_nat (strlen data) <= INT_MAX ->
  exists w' ops,
    Framing.sendData data w = (Ret tt, w')
    /\ wire w'
       = wire w ++ int_bytes (Z.of_nat (strlen data))
           ++ map byte_of_char (firstn (strlen data) data)
    /\ net w' = net w ++ OpSend (int_bytes (Z.of_nat (strlen data))) 4 :: ops
    /\ Forall Framing.chunk_send ops
    /\ stderr w' = stderr w.
Proof.
  intros Htx Hmax.
  destruct (sendData_whole data w Htx Hmax)
    as (w' & ops & Hrun & Hwire & Hnet & Hops & _ & _ & Herr & _).
  exists w', ops. repeat split; assumption.
Qed.

Lemma sendData_delivers_witness :
  exists w' ops,
    Framing.sendData (chars "HELLO" ++ [0]) (start (fair no_files) [] [])
    = (Ret tt, w')
    /\ wire w' = [] ++ int_bytes 5 ++ chars "HELLO"
    /\ net w' = [] ++ OpSend (int_bytes 5) 4 :: ops
    /\ Forall Framing.chunk_send ops
    /\ stderr w' = [].
Proof.
  apply (sendData_delivers (chars "HELLO" ++ [0]) (start (fair no_files) [] [])).
  - reflexivity.
  - vm_compute. discriminate.
Defined.

Lemma bytes_int_int_bytes_neg (n : Z) :
  - INT_MAX - 1 <= n < 0 -> bytes_int (int_bytes n) = n.
Proof.
  unfold INT_MAX. intros Hn. unfold int_bytes, bytes_int. cbv zeta.
  assert (Hu : n mod 4294967296 = n + 4294967296).
  { symmetry. apply (Z.mod_unique n 4294967296 (-1)); lia. }
  rewrite Hu.
  assert (Hsum : forall u, 0 <= u < 4294967296 ->
            u mod 256 + 256 * ((u / 256) mod 256) + 65536 * ((u / 65536) mod 256)
            + 16777216 * ((u / 16777216) mod 256) = u).
  { intros u Hu'. Z.div_mod_to_equations. lia. }
  rewrite Hsum by lia. unfold to_int.
  replace (n + 4294967296 + 2147483648) with (n + 2147483648 + 1 * 4294967296) by lia.
  rewrite Z.mod_add by lia. rewrite Z.mod_small by lia. lia.
Qed.

(** What the loop of [receive] leaves behind, however it ends: it sends
    nothing, and it writes to standard error only the one message with
    which it exits, with status 1. *)
Lemma recv_loop_inv (fuel : nat) (len i : Z) (acc : list Z) (w w' : world)
  (o : outcome (list Z)) :
  Framing.recv_loop fuel len i acc w = (o, w') ->
  wire w' = wire w /\ tx w' = tx w /\ stdout w' = stdout w /\ env w' = env w
  /\ match o with
     | Exit s =>
         s = 1 /\ stderr w' = stderr w ++ [("Unable to read from socket"%string, [])]
     | Undef | Killed _ => False
     | _ => stderr w' = stderr w
     end.
Proof.
  revert i acc w. induction fuel as [|fuel IH]; intros i acc w H.
  - injection H as <- <-. repeat split; reflexivity.
  - cbn [Framing.recv_loop] in H.
    destruct (Z.ltb_spec i len).
    + cbv zeta in H.
      match type of H with
      | bind (recv ?size) _ _ = _ =>
          destruct (recv_spec size w)
            as (r & bs & w1 & Hrecv & _ & _ & Htx & Hwire & Herr & Hout & Henv)
      end.
      rewrite (bind_Ret _ _ _ _ _ Hrecv) in H.
      destruct (r <? 0).
      * injection H as <- <-. cbn [wire tx stdout env stderr put_stderr].
        repeat split; congruence.
      * apply IH in H. destruct H as (H1 & H2 & H3 & H4 & H5).
        repeat split; try congruence.
        destruct o; rewrite <- ?Herr; exact H5.
    + injection H as <- <-. repeat split; reflexivity.
Qed.

(** X7 - How [receive] can end, whatever the stream delivers: when it
    returns, the buffer is a payload shorter than [INT_MAX] followed by the
    terminator, and standard error is untouched; when it exits, the status
    is 1 and the message is "Unable to read from socket" or "Unable to
    allocate memory".  In every case it has sent nothing and printed
    nothing, and no signal ends it. *)
Theorem receive_outcomes (fuel : nat) (w : world) :
  wire (snd (Framing.receive fuel w)) = wire w
  /\ tx (snd (Framing.receive fuel w)) = tx w
  /\ stdout (snd (Framing.receive fuel w)) = stdout w
  /\ match fst (Framing.receive fuel w) with
     | Ret buf =>
         (exists payload,
             buf = payload ++ [0] /\ Z.of_nat (length payload) < INT_MAX)
         /\ stderr (snd (Framing.receive fuel w)) = stderr w
     | Exit s =>
         s = 1
         /\ (stderr (snd (Framing.receive fuel w))
             = stderr w ++ [("Unable to read from socket"%string, [])]
             \/ stderr (snd (Framing.receive fuel w))
                = stderr w ++ [("Unable to allocate memory"%string, [])])
     | Undef | Running => True
     | Killed _ => False
     end.
Proof.
  destruct (Framing.receive fuel w) as [o w'] eqn:E. cbn [fst snd].
  assert (Hshape : forall buf, o = Ret buf ->
            exists payload, buf = payload ++ [0] /\ Z.of_nat (length payload) < INT_MAX).
  { intros buf ->. destruct (receive_length _ _ _ _ E) as (p & Hp & Hlen & _).
    now exists p. }
  unfold Framing.receive in E.
  destruct (recv_spec 4 w)
    as (r & bs & w1 & Hrecv & _ & _ & Htx & Hwire & Herr & Hout & Henv).
  rewrite (bind_Ret _ _ _ _ _ Hrecv) in E.
  destruct (r <? 0).
  { injection E as <- <-. cbn [wire tx stdout stderr put_stderr].
    repeat split; try congruence. left. congruence. }
  destruct (negb (r =? 4)).
  { injection E as <- <-. repeat split; congruence. }
  destruct (bytes_int bs =? INT_MAX).
  { injection E as <- <-. repeat split; congruence. }
  unfold bind at 1, malloc at 1 in E.
  destruct (negb (malloc_ok (env w1) _)).
  { injection E as <- <-. cbn [wire tx stdout stderr put_stderr].
    repeat split; try congruence. right. congruence. }
  unfold bind in E.
  destruct (Framing.recv_loop fuel (bytes_int bs) 0 [] w1) as [[res|s| | |sig] w2] eqn:L;
    apply recv_loop_inv in L; destruct L as (L1 & L2 & L3 & _ & L5).
  - destruct (bytes_int bs <? 0); injection E as <- <-.
    + repeat split; congruence.
    + repeat split; try congruence. now apply Hshape.
  - injection E as <- <-. destruct L5 as [-> L5].
    repeat split; try congruence. left. congruence.
  - contradiction.
  - injection E as <- <-. repeat split; congruence.
  - contradiction.
Qed.

(** X8 - [receive] puts a message together from the pieces the stream
    delivers: on a stream without errors that delivers the length prefix in
    one piece and then at least [len] bytes in pieces of any size, with the
    buffer allocated and enough turns, it returns exactly the next [len]
    bytes followed by the terminator, having asked for at most
    [BUFFER_SIZE - 1] bytes at a time, and what follows the message stays
    on the stream. *)
Theorem receive_reassembles (fuel : nat) (len : Z) (more : list Z)
  (q : list rx_event) (w : world) :
  rx w = RxData (int_bytes len ++ more) :: q -> rx_clean q ->
  0 <= len < INT_MAX ->
  len <= Z.of_nat (length (more ++ rx_bytes q)) ->
  malloc_ok (env w) (len + 1) = true ->
  (Z.to_nat len < fuel)%nat ->
  exists w' ops,
    Framing.receive fuel w
    = (Ret (map char_of_byte (firstn (Z.to_nat len) (more ++ rx_bytes q)) ++ [0]), w')
    /\ rx_bytes (rx w') = skipn (Z.to_nat len) (more ++ rx_bytes q)
    /\ net w' = net w ++ OpRecv 4 4 :: ops
    /\ Forall Framing.chunk_recv ops.
Proof.
  intros Hrx Hclean Hlen Havail Hmalloc Hfuel.
  destruct (receive_complete fuel len more q w Hrx Hclean Hlen Havail Hmalloc Hfuel)
    as (w' & ops & Hrun & _ & Hbytes & Hnet & Hops & _).
  exists w', ops. repeat split; assumption.
Qed.

Lemma receive_reassembles_witness :
  exists w' ops,
    Framing.receive 6
      (start (fair no_files)
         [RxData (int_bytes 5 ++ chars "H"); RxData (chars "EL");
          RxData (chars "LO WORLD")] [])
    = (Ret (chars "HELLO" ++ [0]), w')
    /\ rx_bytes (rx w') = chars " WORLD"
    /\ net w' = [] ++ OpRecv 4 4 :: ops
    /\ Forall Framing.chunk_recv ops.
Proof.
  apply (receive_reassembles 6 5 (chars "H")
           [RxData (chars "EL"); RxData (chars "LO WORLD")]
           (start (fair no_files)
              [RxData (int_bytes 5 ++ chars "H"); RxData (chars "EL");
               RxData (chars "LO WORLD")] [])).
  - reflexivity.
  - repeat constructor; discriminate.
  - vm_compute. split; [discriminate | reflexivity].
  - vm_compute. discriminate.
  - reflexivity.
  - simpl. lia.
Defined.

(** X9 - A negative length prefix: when the peer announces a negative
    length, [receive] never returns a message.  It exits with status 1 when
    the allocation of the converted size fails, and otherwise stores the
    terminator before the start of the buffer (undefined behaviour). *)
Theorem receive_negative_length (fuel : nat) (len : Z) (more : list Z)
  (q : list rx_event) (w : world) :
  rx w = RxData (int_bytes len ++ more) :: q ->
  - INT_MAX - 1 <= len < 0 -> (0 < fuel)%nat ->
  fst (Framing.receive fuel w)
  = if malloc_ok (env w) (to_size_t (len + 1)) then Undef else Exit 1.
Proof.
  intros Hrx Hlen Hfuel.
  set (q1 := match more with [] => q | _ => RxData more :: q end).
  assert (Hrecv : recv 4 w
                  = (Ret (4, int_bytes len), log_net (OpRecv 4 4) (set_rx q1 w))).
  { unfold recv. rewrite Hrx. unfold q1, int_bytes. cbv zeta.
    destruct more; reflexivity. }
  unfold Framing.receive.
  rewrite (bind_Ret _ _ _ _ _ Hrecv).
  cbn [Z.ltb Z.eqb Z.compare Pos.compare Pos.compare_cont negb Pos.eqb].
  rewrite bytes_int_int_bytes_neg by lia.
  destruct (Z.eqb_spec len INT_MAX); [unfold INT_MAX in *; lia|].
  unfold bind at 1, malloc at 1. cbn [env log_net set_rx].
  destruct (malloc_ok (env w) (to_size_t (len + 1))); cbn [negb]; [|reflexivity].
  destruct fuel as [|fuel]; [lia|].
  unfold bind. cbn [Framing.recv_loop].
  destruct (Z.ltb_spec 0 len); [lia|]. cbn [ret].
  destruct (Z.ltb_spec len 0); [reflexivity | lia].
Qed.

Lemma receive_negative_length_witness :
  fst (Framing.receive 1
         (start (fair no_files) [RxData (int_bytes (-1) ++ chars "HELLO")] []))
  = Undef.
Proof.
  apply (receive_negative_length 1 (-1) (chars "HELLO") []
           (start (fair no_files) [RxData (int_bytes (-1) ++ chars "HELLO")] [])).
  - reflexivity.
  - vm_compute. split; [discriminate | reflexivity].
  - lia.
Defined.

(** ** More on the handshake *)

Lemma to_char_range (z : Z) : -128 <= to_char z <= 127.
Proof.
  unfold to_char. pose proof (Z.mod_pos_bound (z + 128) 256). lia.
Qed.

(** The tag buffer always holds four [char]s. *)
Lemma tag_buffer_shape (bs : list Z) :
  exists x0 x1 x2 x3,
    EncServer.tag_buffer bs = [x0; x1; x2; x3]
    /\ char_range x0 /\ char_range x1 /\ char_range x2 /\ char_range x3.
Proof.
  unfold EncServer.tag_buffer, char_of_byte, char_range.
  destruct bs as [|b0 [|b1 [|b2 [|b3 bs]]]]; cbn [map app repeat firstn];
    do 4 eexists; (split; [reflexivity|]);
    repeat split; try apply to_char_range; lia.
Qed.

(** [strcmp] of a tag buffer with a tag literal, in either order, stays
    inside the two buffers and is 0 exactly when they are equal. *)
Lemma strcmp_tag (x0 x1 x2 x3 a b c : Z) :
  char_range x0 -> char_range x1 -> char_range x2 -> char_range x3 ->
  char_range a -> char_range b -> char_range c ->
  a <> 0 -> b <> 0 -> c <> 0 ->
  (exists d, strcmp [x0; x1; x2; x3] [a; b; c; 0] = Some d
             /\ (d = 0 <-> [x0; x1; x2; x3] = [a; b; c; 0]))
  /\ (exists d, strcmp [a; b; c; 0] [x0; x1; x2; x3] = Some d
                /\ (d = 0 <-> [x0; x1; x2; x3] = [a; b; c; 0])).
Proof.
  unfold char_range. intros H0 H1 H2 H3 Ha Hb Hc Na Nb Nc.
  assert (Hdiff : forall x y, -128 <= x <= 127 -> -128 <= y <= 127 -> x <> y ->
                    x mod 256 - y mod 256 <> 0).
  { intros x y Hx Hy Hxy. Z.div_mod_to_equations. lia. }
  split; cbn [strcmp].
  - destruct (Z.eqb_spec x0 a) as [->|E0].
    2:{ eexists. split; [reflexivity|]. split; [intros Hd|intros [= ? ? ? ?]; congruence].
        exfalso. revert Hd. now apply Hdiff. }
    destruct (Z.eqb_spec a 0); [contradiction|].
    destruct (Z.eqb_spec x1 b) as [->|E1].
    2:{ eexists. split; [reflexivity|]. split; [intros Hd|intros [= ? ? ?]; congruence].
        exfalso. revert Hd. now apply Hdiff. }
    destruct (Z.eqb_spec b 0); [contradiction|].
    destruct (Z.eqb_spec x2 c) as [->|E2].
    2:{ eexists. split; [reflexivity|]. split; [intros Hd|intros [= ? ?]; congruence].
        exfalso. revert Hd. now apply Hdiff. }
    destruct (Z.eqb_spec c 0); [contradiction|].
    destruct (Z.eqb_spec x3 0) as [->|E3].
    + eexists. split; [reflexivity|]. split; reflexivity.
    + eexists. split; [reflexivity|]. split; [intros Hd|intros [= ?]; congruence].
      exfalso. revert Hd. apply Hdiff; [assumption | lia | assumption].
  - destruct (Z.eqb_spec a x0) as [<-|E0].
    2:{ eexists. split; [reflexivity|]. split; [intros Hd|intros [= ? ? ? ?]; congruence].
        exfalso. revert Hd. now apply Hdiff. }
    destruct (Z.eqb_spec a 0); [contradiction|].
    destruct (Z.eqb_spec b x1) as [<-|E1].
    2:{ eexists. split; [reflexivity|]. split; [intros Hd|intros [= ? ? ?]; congruence].
        exfalso. revert Hd. now apply Hdiff. }
    destruct (Z.eqb_spec b 0); [contradiction|].
    destruct (Z.eqb_spec c x2) as [<-|E2].
    2:{ eexists. split; [reflexivity|]. split; [intros Hd|intros [= ? ?]; congruence].
        exfalso. revert Hd. now apply Hdiff. }
    destruct (Z.eqb_spec c 0); [contradiction|].
    destruct (Z.eqb_spec 0 x3) as [<-|E3].
    + eexists. split; [reflexivity|]. split; reflexivity.
    + eexists. split; [reflexivity|]. split; [intros Hd|intros [= ?]; congruence].
      exfalso. revert Hd. apply Hdiff; [lia | assumption | assumption].
Qed.





(** ** Messages that arrive in segments *)

Lemma drop_rx_0 (q : list rx_event) : drop_rx 0 q = q.
Proof. destruct q as [|[bs|] q]; reflexivity. Qed.

Lemma drop_rx_add (a b : nat) (q : list rx_event) :
  drop_rx a (drop_rx b q) = drop_rx (b + a) q.
Proof.
  revert b. induction q as [|[bs|] q IH]; intros b.
  - destruct a; reflexivity.
  - cbn [drop_rx].
    destruct (Nat.eqb_spec b 0) as [->|Hb]; [reflexivity|].
    destruct (Nat.eqb_spec (b + a) 0) as [H0|_]; [lia|].
    destruct (Nat.leb_spec (length bs) b) as [Hle|Hgt].
    + rewrite IH.
      destruct (Nat.leb_spec (length bs) (b + a)); [|lia].
      f_equal. lia.
    + cbn [drop_rx]. rewrite length_skipn.
      destruct (Nat.eqb_spec a 0) as [->|Ha].
      * destruct (Nat.leb_spec (length bs) (b + 0)); [lia|].
        now rewrite Nat.add_0_r.
      * destruct (Nat.leb_spec (length bs - b) a);
          destruct (Nat.leb_spec (length bs) (b + a)); try lia.
        -- f_equal. lia.
        -- now rewrite skipn_skipn, (Nat.add_comm a b).
  - destruct a, b; reflexivity.
Qed.

Lemma drop_rx_clean (n : nat) (q : list rx_event) :
  rx_clean q -> rx_clean (drop_rx n q).
Proof.
  intros H. revert n. induction H as [|e q He Hq IH]; intros n; [constructor|].
  destruct e as [bs|]; [|contradiction]. cbn [drop_rx].
  destruct (n =? 0)%nat; [now constructor|].
  destruct (length bs <=? n)%nat; [apply IH|].
  constructor; [discriminate | assumption].
Qed.

Lemma drop_rx_bytes (n : nat) (q : list rx_event) :
  rx_clean q -> rx_bytes (drop_rx n q) = skipn n (rx_bytes q).
Proof.
  intros H. revert n. induction H as [|e q He Hq IH]; intros n.
  - now rewrite skipn_nil.
  - destruct e as [bs|]; [|contradiction]. cbn [drop_rx rx_bytes].
    destruct (Nat.eqb_spec n 0) as [->|Hn]; [reflexivity|].
    rewrite skipn_app.
    destruct (Nat.leb_spec (length bs) n).
    + now rewrite IH, (@skipn_all2 _ n bs) by lia.
    + cbn [rx_bytes]. replace (n - length bs)%nat with O by lia. reflexivity.
Qed.

(** One [recv] of up to [size] bytes takes the stream from [drop_rx n] to
    [drop_rx] of [n] less the bytes read. *)
Lemma recv_from_drop (q : list rx_event) (size : nat) :
  rx_clean q -> (0 < size)%nat -> rx_bytes q <> [] ->
  forall r bs q', recv_from q size = (r, bs, q') ->
  forall n, (length bs <= n)%nat -> drop_rx n q = drop_rx (n - length bs) q'.
Proof.
  intros Hclean Hsize.
  induction Hclean as [|e q He Hq IH]; intros Hne r bs q' E n Hn;
    [now contradiction Hne|].
  destruct e as [seg|]; [|contradiction].
  destruct seg as [|b seg].
  - cbn [recv_from] in E. cbn [rx_bytes app] in Hne.
    assert (Hbs : bs <> []).
    { destruct (recv_from_clean _ _ Hq _ _ _ E) as (_ & _ & _ & _ & H). now apply H. }
    assert (Hpos : (0 < length bs)%nat)
      by (destruct bs; [contradiction | simpl; lia]).
    cbn [drop_rx length].
    destruct (Nat.eqb_spec n 0); [lia|]. cbn [Nat.leb].
    rewrite Nat.sub_0_r. now apply (IH Hne r).
  - cbn [recv_from] in E. cbn [drop_rx].
    assert (Hs : (0 < length (b :: seg))%nat) by (simpl; lia).
    remember (b :: seg) as s eqn:Heqs. clear Heqs.
    injection E as _ <- <-.
    assert (Hfirst : length (firstn size s) = Nat.min size (length s))
      by apply length_firstn.
    destruct (Nat.eqb_spec n 0); [lia|].
    destruct (skipn size s) as [|x rest] eqn:Es.
    + assert (Hall : (length s <= size)%nat).
      { pose proof (length_skipn size s) as Hl. rewrite Es in Hl. simpl in Hl. lia. }
      rewrite firstn_all2 in * by exact Hall.
      destruct (Nat.leb_spec (length s) n); [reflexivity | lia].
    + assert (Hlt : (size < length s)%nat).
      { pose proof (length_skipn size s) as Hl. rewrite Es in Hl. simpl in Hl. lia. }
      rewrite Hfirst, Nat.min_l in * by lia.
      rewrite <- Es. cbn [drop_rx]. rewrite length_skipn.
      destruct (Nat.eqb_spec (n - size) 0) as [H0|H0].
      * destruct (Nat.leb_spec (length s) n); [lia|].
        replace n with size by lia. reflexivity.
      * destruct (Nat.leb_spec (length s) n);
          destruct (Nat.leb_spec (length s - size) (n - size)); try lia.
        -- f_equal. lia.
        -- rewrite skipn_skipn. replace (n - size + size)%nat with n by lia.
           reflexivity.
Qed.

Lemma app_same_length {A} (a b c d : list A) :
  a ++ b = c ++ d -> length a = length c -> a = c /\ b = d.
Proof.
  revert c. induction a as [|x a IH]; intros [|y c] H Hl; try discriminate.
  - now split.
  - injection H as -> H. injection Hl as Hl.
    destruct (IH c H Hl) as [-> ->]. now split.
Qed.

(** A [recv] of [n] bytes that the stream delivers whole. *)
Lemma recv_whole (n : nat) (bs more : list Z) (w : world) :
  rx_clean (rx w) -> whole n (rx w) = true -> (0 < n)%nat ->
  rx_bytes (rx w) = bs ++ more -> length bs = n ->
  recv (Z.of_nat n) w
  = (Ret (Z.of_nat n, bs),
     log_net (OpRecv (Z.of_nat n) (Z.of_nat n)) (set_rx (drop_rx n (rx w)) w)).
Proof.
  intros Hclean Hwhole Hn Hbytes Hlen. unfold recv. rewrite Nat2Z.id.
  destruct (recv_from (rx w) n) as [[r got] q'] eqn:E.
  assert (Hgot : length got = n).
  { clear Hbytes. revert Hwhole E. generalize (rx w) as q.
    induction q as [|[seg|] q IH]; try discriminate.
    destruct seg as [|b seg]; [exact IH|].
    cbn [whole recv_from]. intros Hw [= _ <- _].
    apply Nat.leb_le in Hw. rewrite length_firstn. lia. }
  destruct (recv_from_clean _ _ Hclean _ _ _ E) as (-> & Hsplit & _).
  assert (Hne : rx_bytes (rx w) <> []).
  { rewrite <- Hsplit. destruct got; [simpl in Hgot; lia | discriminate]. }
  rewrite (recv_from_drop _ _ Hclean Hn Hne _ _ _ E n) by lia.
  rewrite Hgot, Nat.sub_diag, drop_rx_0.
  rewrite Hbytes in Hsplit.
  destruct (app_same_length _ _ _ _ Hsplit ltac:(lia)) as [-> _]. reflexivity.
Qed.

(** Where the loop of [receive] leaves a stream that carries the rest of
    the message. *)
Lemma recv_loop_rx (fuel : nat) (len i : Z) (acc res : list Z) (w w' : world) :
  rx_clean (rx w) -> 0 <= i <= len ->
  len - i <= Z.of_nat (length (rx_bytes (rx w))) ->
  Framing.recv_loop fuel len i acc w = (Ret res, w') ->
  rx w' = drop_rx (Z.to_nat (len - i)) (rx w).
Proof.
  revert i acc w.
  induction fuel as [|fuel IH]; intros i acc w Hclean Hi Havail; [discriminate|].
  cbn [Framing.recv_loop].
  destruct (Z.ltb_spec i len) as [Hlt|Hge].
  - cbv zeta.
    set (size := if len - i >? Framing.BUFFER_SIZE - 1
                 then Framing.BUFFER_SIZE - 1 else len - i).
    assert (Hsize : 0 < size <= len - i).
    { unfold size, Framing.BUFFER_SIZE.
      destruct (Z.gtb_spec (len - i) (1000 - 1)); lia. }
    unfold bind at 1, recv at 1.
    destruct (recv_from (rx w) (Z.to_nat size)) as [[r bs] q'] eqn:E.
    destruct (recv_from_clean _ _ Hclean _ _ _ E)
      as (-> & Hbytes & Hclean' & Hlen & _).
    assert (Hne : rx_bytes (rx w) <> []).
    { intros Hnil. rewrite Hnil in Havail. simpl in Havail. lia. }
    destruct (Z.ltb_spec (Z.of_nat (length bs)) 0); [lia|].
    intros Hrun. apply IH in Hrun.
    + cbn [rx log_net set_rx] in Hrun. rewrite Hrun.
      assert (Hpos : (0 < Z.to_nat size)%nat) by lia.
      rewrite (recv_from_drop _ _ Hclean Hpos Hne _ _ _ E (Z.to_nat (len - i)))
        by lia.
      f_equal. lia.
    + exact Hclean'.
    + lia.
    + cbn [rx log_net set_rx]. rewrite <- Hbytes, length_app in Havail. lia.
  - intros [= _ <-]. replace (len - i) with 0 by lia.
    cbn [Z.to_nat]. now rewrite drop_rx_0.
Qed.

(** [receive] on a stream without errors that delivers the four bytes of
    the prefix whole and then the payload, in segments of any size: it
    returns the payload and leaves the stream at what follows it. *)
Lemma receive_stream (fuel : nat) (payload more : list Z) (w : world) :
  let len := Z.of_nat (length payload) in
  rx_clean (rx w) -> whole 4 (rx w) = true ->
  rx_bytes (rx w) = int_bytes len ++ payload ++ more ->
  len < INT_MAX ->
  malloc_ok (env w) (len + 1) = true ->
  (length payload < fuel)%nat ->
  exists w',
    Framing.receive fuel w = (Ret (map char_of_byte payload ++ [0]), w')
    /\ rx w' = drop_rx (4 + length payload) (rx w)
    /\ tx w' = tx w /\ wire w' = wire w
    /\ stderr w' = stderr w /\ stdout w' = stdout w /\ env w' = env w.
Proof.
  intros len Hclean Hwhole Hbytes Hlen Hmalloc Hfuel.
  pose proof (recv_whole 4 (int_bytes len) (payload ++ more) w Hclean Hwhole
                ltac:(lia) Hbytes eq_refl) as Hrecv.
  change (Z.of_nat 4) with 4 in Hrecv.
  set (w1 := log_net (OpRecv 4 4) (set_rx (drop_rx 4 (rx w)) w)) in Hrecv.
  assert (Hclean1 : rx_clean (rx w1)) by now apply drop_rx_clean.
  assert (Hbytes1 : rx_bytes (rx w1) = payload ++ more).
  { unfold w1. cbn [rx log_net set_rx]. rewrite drop_rx_bytes, Hbytes by assumption.
    reflexivity. }
  unfold Framing.receive.
  rewrite (bind_Ret _ _ _ _ _ Hrecv).
  cbn [Z.ltb Z.eqb Z.compare Pos.compare Pos.compare_cont negb Pos.eqb].
  rewrite bytes_int_int_bytes by (unfold len in *; lia).
  destruct (Z.eqb_spec len INT_MAX); [lia|].
  rewrite to_size_t_small by (unfold len in *; lia).
  unfold bind at 1, malloc at 1. change (env w1) with (env w). rewrite Hmalloc.
  cbn [negb].
  destruct (recv_loop_complete fuel len 0 [] w1)
    as (w' & ops & Hrun & _);
    [exact Hclean1 | unfold len; lia
     | rewrite Hbytes1, length_app; unfold len; lia | unfold len; lia |].
  assert (Hi0 : 0 <= 0 <= len) by (unfold len; lia).
  assert (Hav : len - 0 <= Z.of_nat (length (rx_bytes (rx w1))))
    by (rewrite Hbytes1, length_app; unfold len; lia).
  pose proof (recv_loop_rx _ _ _ _ _ _ _ Hclean1 Hi0 Hav Hrun) as Hrx.
  destruct (recv_loop_inv _ _ _ _ _ _ _ Hrun) as (Hwire & Htx & Hout & Henv & Herr).
  rewrite (bind_Ret _ _ _ _ _ Hrun).
  destruct (Z.ltb_spec len 0); [unfold len in *; lia|].
  exists w'. split.
  - rewrite Hbytes1, Z.sub_0_r. unfold len. rewrite Nat2Z.id.
    rewrite firstn_app, Nat.sub_diag, firstn_all. cbn [firstn app].
    now rewrite app_nil_r.
  - split; [|repeat split; assumption].
    rewrite Hrx, Z.sub_0_r. unfold w1, len. cbn [rx log_net set_rx].
    rewrite Nat2Z.id. apply drop_rx_add.
Qed.

(** ** The server's worker, from tag to ciphertext *)

Lemma is_symbol_range (c : Z) : Alphabet.is_symbol c = true -> 32 <= c <= 90.
Proof.
  intros Hc. apply is_symbol_In in Hc. revert c Hc. apply Forall_forall.
  repeat (constructor; [vm_compute; split; discriminate|]). constructor.
Qed.

Lemma valid_chars_bytes (s : list Z) :
  Alphabet.valid s -> map char_of_byte s = s /\ map byte_of_char s = s.
Proof.
  unfold Alphabet.valid. induction 1 as [|c s Hc _ [IH1 IH2]]; [split; reflexivity|].
  apply is_symbol_range in Hc. cbn [map]. rewrite IH1, IH2.
  unfold char_of_byte, byte_of_char.
  rewrite to_char_small, Z.mod_small by lia. split; reflexivity.
Qed.

Lemma length_int_bytes (n : Z) : length (int_bytes n) = 4%nat.
Proof. reflexivity. Qed.

Lemma skipn_prefix {A} (a b : list A) (n : nat) :
  length a = n -> skipn n (a ++ b) = b.
Proof. intros <-. now rewrite skipn_app, skipn_all, Nat.sub_diag. Qed.

(** The server's [validate] on a stream that delivers the peer's tag
    whole. *)
Lemma server_validate_stream (w : world) (more : list Z) :
  tx w = [] -> rx_clean (rx w) -> whole 4 (rx w) = true ->
  rx_bytes (rx w) = (chars "enc" ++ [0]) ++ more ->
  EncServer.validate w
  = (Ret tt,
     log_net (OpSend (chars "enc" ++ [0]) 4)
       (put_wire (chars "enc" ++ [0])
          (log_net (OpRecv 4 4) (set_rx (drop_rx 4 (rx w)) w)))).
Proof.
  intros Htx Hclean Hwhole Hbytes.
  pose proof (recv_whole 4 (chars "enc" ++ [0]) more w Hclean Hwhole
                ltac:(lia) Hbytes eq_refl) as Hrecv.
  change (Z.of_nat 4) with 4 in Hrecv.
  unfold EncServer.validate. cbv zeta.
  rewrite (bind_Ret _ _ _ _ _ Hrecv).
  cbn -[send close strcmp drop_rx].
  erewrite bind_Ret by (apply send_whole; exact Htx).
  reflexivity.
Qed.

(** X13 - One connection served.  The stream from the peer has no error
    and carries the tag "enc", then the text and the key as two framed
    messages, then anything; it is cut into segments in any way that
    leaves the four bytes of the tag and of each length prefix within one
    segment (the code reads each of them with one [recv]).  Text and key
    are drawn from the alphabet, the key is at least as long as the text,
    allocations succeed and the transport takes every write whole.  Then
    the worker answers with its tag and one framed message that holds the
    encryption of the text under the key, leaves what follows the two
    messages on the stream, reports no error and exits with status 0. *)
Theorem worker_serves (fuel : nat) (T K more : list Z) (w : world) :
  Alphabet.valid T -> Alphabet.valid K ->
  (length T <= length K)%nat -> Z.of_nat (length K) < INT_MAX ->
  rx_clean (rx w) ->
  rx_bytes (rx w)
  = (chars "enc" ++ [0]) ++ (int_bytes (Z.of_nat (length T)) ++ T)
      ++ (int_bytes (Z.of_nat (length K)) ++ K) ++ more ->
  whole 4 (rx w) = true ->
  whole 4 (drop_rx 4 (rx w)) = true ->
  whole 4 (drop_rx (8 + length T) (rx w)) = true ->
  tx w = [] -> (forall n, malloc_ok (env w) n = true) ->
  (length K < fuel)%nat ->
  exists w' C,
    EncServer.worker fuel w = (Exit 0, w')
    /\ Cipher.encrypt T K = Some C
    /\ wire w' = wire w ++ (chars "enc" ++ [0]) ++ int_bytes (Z.of_nat (length T)) ++ C
    /\ rx w' = drop_rx (12 + length T + length K) (rx w)
    /\ rx_bytes (rx w') = more
    /\ stderr w' = stderr w.
Proof.
  intros HT HK Hlen Hmax Hclean Hbytes Htag HpT HpK Htx Hmalloc Hfuel.
  destruct (valid_chars_bytes T HT) as [HcT _].
  destruct (valid_chars_bytes K HK) as [HcK _].
  pose proof (zip_valid T K HT HK) as HvC.
  destruct (valid_chars_bytes _ HvC) as [_ HbC].
  assert (HlC : length (Cipher.zip T K) = length T) by now apply zip_length.
  pose proof (server_validate_stream w _ Htx Hclean Htag Hbytes) as Hval.
  set (w1 := log_net (OpSend (chars "enc" ++ [0]) 4)
               (put_wire (chars "enc" ++ [0])
                  (log_net (OpRecv 4 4) (set_rx (drop_rx 4 (rx w)) w)))) in Hval.
  assert (Hrx1 : rx w1 = drop_rx 4 (rx w)) by reflexivity.
  assert (Hb1 : rx_bytes (rx w1)
                = int_bytes (Z.of_nat (length T)) ++ T
                    ++ (int_bytes (Z.of_nat (length K)) ++ K) ++ more).
  { rewrite Hrx1, drop_rx_bytes, Hbytes by exact Hclean.
    rewrite skipn_prefix by reflexivity. now rewrite <- app_assoc. }
  destruct (receive_stream fuel T
              ((int_bytes (Z.of_nat (length K)) ++ K) ++ more) w1) as
    (w2 & Hr2 & Hrx2 & Htx2 & Hwire2 & Herr2 & _ & Henv2);
    [rewrite Hrx1; now apply drop_rx_clean | rewrite Hrx1; exact HpT | exact Hb1
     | lia | apply Hmalloc | lia |].
  rewrite Hrx1, drop_rx_add in Hrx2.
  replace (4 + (4 + length T))%nat with (8 + length T)%nat in Hrx2 by lia.
  assert (Hb2 : rx_bytes (rx w2)
                = int_bytes (Z.of_nat (length K)) ++ K ++ more).
  { rewrite Hrx2, drop_rx_bytes, Hbytes by exact Hclean.
    rewrite (app_assoc (chars "enc" ++ [0])), <- (app_assoc _ K more).
    apply skipn_prefix.
    rewrite !length_app, length_int_bytes. simpl. lia. }
  destruct (receive_stream fuel K more w2) as
    (w3 & Hr3 & Hrx3 & Htx3 & Hwire3 & Herr3 & _ & Henv3);
    [rewrite Hrx2; now apply drop_rx_clean | rewrite Hrx2; exact HpK | exact Hb2
     | lia | rewrite Henv2; apply Hmalloc | lia |].
  rewrite Hrx2, drop_rx_add in Hrx3.
  replace (8 + length T + (4 + length K))%nat
    with (12 + length T + length K)%nat in Hrx3 by lia.
  rewrite HcT in Hr2. rewrite HcK in Hr3.
  assert (Hstrlen : strlen (T ++ [0]) = length T)
    by (apply strlen_terminated; now apply valid_nonzero).
  destruct (sendData_whole (Cipher.zip T K ++ [0]) w3)
    as (w4 & ops & Hsend & Hwire4 & _ & _ & _ & Hrx4 & Herr4 & _).
  { now rewrite Htx3, Htx2. }
  { rewrite strlen_terminated by now apply valid_nonzero. lia. }
  rewrite strlen_terminated in Hwire4 by now apply valid_nonzero.
  rewrite firstn_app, Nat.sub_diag, firstn_all in Hwire4.
  cbn [firstn] in Hwire4. rewrite app_nil_r, HbC, HlC in Hwire4.
  exists (log_net OpClose w4), (Cipher.zip T K).
  split; [|split; [|split; [|split; [|split]]]].
  - unfold EncServer.worker.
    rewrite (bind_Ret _ _ _ _ _ Hval).
    assert (Hhandle : EncServer.handleOtpComm fuel w1 = (Ret tt, log_net OpClose w4)).
    { unfold EncServer.handleOtpComm, EncServer.receive, EncServer.sendData.
      rewrite (bind_Ret _ _ _ _ _ Hr2), (bind_Ret _ _ _ _ _ Hr3).
      cbv zeta. unfold bind at 1, malloc at 1.
      rewrite Henv3, Henv2. change (env w1) with (env w). rewrite Hmalloc.
      cbn [negb].
      rewrite encrypt_zip by (auto using valid_nonzero; lia).
      cbn [snd]. rewrite (bind_Ret _ _ _ _ _ Hsend). reflexivity. }
    rewrite (bind_Ret _ _ _ _ _ Hhandle). reflexivity.
  - unfold Cipher.encrypt.
    now rewrite encrypt_zip by (auto using valid_nonzero; lia).
  - cbn [wire log_net]. rewrite Hwire4, Hwire3, Hwire2.
    unfold w1. cbn [wire log_net put_wire set_rx].
    now rewrite <- !app_assoc.
  - cbn [rx log_net]. now rewrite Hrx4.
  - cbn [rx log_net]. rewrite Hrx4, Hrx3, drop_rx_bytes, Hbytes by exact Hclean.
    rewrite !app_assoc. apply skipn_prefix.
    rewrite !length_app, !length_int_bytes. simpl. lia.
  - cbn [stderr log_net]. now rewrite Herr4, Herr3, Herr2.
Qed.

Lemma worker_serves_witness :
  let coalesced :=
    [RxData ((chars "enc" ++ [0]) ++ (int_bytes 5 ++ chars "HELLO")
             ++ (int_bytes 5 ++ chars "WORLD") ++ chars "NEXT")] in
  let cut :=
    [RxData (chars "enc" ++ [0]); RxData []; RxData (int_bytes 5 ++ chars "HE");
     RxData (chars "LLO" ++ int_bytes 5); RxData (chars "WOR");
     RxData (chars "LDNE"); RxData (chars "XT")] in
  (exists w' C,
      EncServer.worker 6 (start (fair no_files) coalesced []) = (Exit 0, w')
      /\ Cipher.encrypt (chars "HELLO") (chars "WORLD") = Some C
      /\ wire w' = [] ++ (chars "enc" ++ [0]) ++ int_bytes 5 ++ C
      /\ rx w' = [RxData (chars "NEXT")]
      /\ rx_bytes (rx w') = chars "NEXT"
      /\ stderr w' = [])
  /\ (exists w' C,
         EncServer.worker 6 (start (fair no_files) cut []) = (Exit 0, w')
         /\ Cipher.encrypt (chars "HELLO") (chars "WORLD") = Some C
         /\ wire w' = [] ++ (chars "enc" ++ [0]) ++ int_bytes 5 ++ C
         /\ rx w' = [RxData (chars "NE"); RxData (chars "XT")]
         /\ rx_bytes (rx w') = chars "NEXT"
         /\ stderr w' = []).
Proof.
  intros coalesced cut. split.
  - apply (worker_serves 6 (chars "HELLO") (chars "WORLD") (chars "NEXT")
             (start (fair no_files) coalesced [])).
    + repeat constructor.
    + repeat constructor.
    + simpl. lia.
    + vm_compute. reflexivity.
    + repeat constructor; discriminate.
    + reflexivity.
    + reflexivity.
    + reflexivity.
    + reflexivity.
    + reflexivity.
    + reflexivity.
    + simpl. lia.
  - apply (worker_serves 6 (chars "HELLO") (chars "WORLD") (chars "NEXT")
             (start (fair no_files) cut [])).
    + repeat constructor.
    + repeat constructor.
    + simpl. lia.
    + vm_compute. reflexivity.
    + repeat constructor; discriminate.
    + reflexivity.
    + reflexivity.
    + reflexivity.
    + reflexivity.
    + reflexivity.
    + reflexivity.
    + simpl. lia.
Defined.

(** The condition on the tag and on the prefixes is needed.  A tag that
    comes in two segments is read as "en": the worker answers, closes and
    exits with status 2.  A length prefix that comes in two segments
    leaves [len] partly unwritten, and the worker goes on with it. *)
Example worker_split_tag :
  observe (EncServer.worker 8
             (start (fair no_files)
                [RxData (chars "en"); RxData (chars "c" ++ [0]);
                 RxData (int_bytes 5 ++ chars "HELLO");
                 RxData (int_bytes 5 ++ chars "WORLD")] []))
  = (Exit 2,
     [OpRecv 4 2; OpSend (chars "enc" ++ [0]) 4; OpClose],
     [("Client not enc_client"%string, [])], [],
     chars "enc" ++ [0]).
Proof. reflexivity. Qed.

Example worker_split_prefix :
  observe (EncServer.worker 8
             (start (fair no_files)
                [RxData (chars "enc" ++ [0]);
                 RxData [5; 0]; RxData ([0; 0] ++ chars "HELLO");
                 RxData (int_bytes 5 ++ chars "WORLD")] []))
  = (Undef,
     [OpRecv 4 4; OpSend (chars "enc" ++ [0]) 4; OpRecv 4 2],
     [], [],
     chars "enc" ++ [0]).
Proof. reflexivity. Qed.

(** ** Exit statuses *)

Lemma receive_exit (fuel : nat) (w w' : world) (s : Z) :
  Framing.receive fuel w = (Exit s, w') -> s = 1.
Proof.
  unfold Framing.receive. intros E.
  destruct (recv_spec 4 w) as (r & bs & w1 & Hrecv & _).
  rewrite (bind_Ret _ _ _ _ _ Hrecv) in E.
  destruct (r <? 0); [now injection E as <- _|].
  destruct (negb (r =? 4)); [discriminate|].
  destruct (bytes_int bs =? INT_MAX); [discriminate|].
  unfold bind at 1, malloc at 1 in E.
  destruct (negb (malloc_ok (env w1) _)); [now injection E as <- _|].
  apply bind_Exit_inv in E. destruct E as [E|(res & w2 & _ & E)].
  - apply recv_loop_inv in E. tauto.
  - destruct (bytes_int bs <? 0); discriminate.
Qed.

Lemma send_Exit (data : list Z) (w w' : world) (s : Z) :
  send data w <> (Exit s, w').
Proof. unfold send. destruct (tx w) as [|[n| | |] q]; discriminate. Qed.

Lemma send_Killed (data : list Z) (w w' : world) (sig : Z) :
  send data w = (Killed sig, w') -> sig = SIGPIPE.
Proof.
  unfold send. destruct (tx w) as [|[n| | |] q]; try discriminate.
  now intros [= <- _].
Qed.

Lemma send_loop_exit (fuel : nat) (data : list Z) (len i : Z) (w w' : world) (s : Z) :
  Framing.send_loop fuel data len i w = (Exit s, w') -> s = 1.
Proof.
  revert i w. induction fuel as [|fuel IH]; intros i w; [discriminate|].
  cbn [Framing.send_loop]. destruct (i <? len); [|discriminate].
  cbv zeta. intros E.
  apply bind_Exit_inv in E. destruct E as [E|(r & w1 & _ & E)];
    [now apply send_Exit in E|].
  destruct (r <? 0); [now injection E as <- _ | now apply IH in E].
Qed.

Lemma send_loop_killed (fuel : nat) (data : list Z) (len i : Z) (w w' : world)
  (sig : Z) :
  Framing.send_loop fuel data len i w = (Killed sig, w') -> sig = SIGPIPE.
Proof.
  revert i w. induction fuel as [|fuel IH]; intros i w; [discriminate|].
  cbn [Framing.send_loop]. destruct (i <? len); [|discriminate].
  cbv zeta. intros E.
  apply bind_Killed_inv in E. destruct E as [E|(r & w1 & _ & E)];
    [now apply send_Killed in E|].
  destruct (r <? 0); [discriminate | now apply IH in E].
Qed.

Lemma sendData_exit (data : list Z) (w w' : world) (s : Z) :
  Framing.sendData data w = (Exit s, w') -> s = 1.
Proof.
  unfold Framing.sendData. cbv zeta. intros E.
  apply bind_Exit_inv in E. destruct E as [E|(r & w1 & _ & E)];
    [now apply send_Exit in E|].
  destruct (r <? 0); [now injection E as <- _ | now apply send_loop_exit in E].
Qed.

Lemma sendData_killed (data : list Z) (w w' : world) (sig : Z) :
  Framing.sendData data w = (Killed sig, w') -> sig = SIGPIPE.
Proof.
  unfold Framing.sendData. cbv zeta. intros E.
  apply bind_Killed_inv in E. destruct E as [E|(r & w1 & _ & E)];
    [now apply send_Killed in E|].
  destruct (r <? 0); [discriminate | now apply send_loop_killed in E].
Qed.

(** No signal ends [receive]: it only reads. *)
Lemma receive_killed (fuel : nat) (w w' : world) (sig : Z) :
  Framing.receive fuel w <> (Killed sig, w').
Proof.
  unfold Framing.receive. intros E.
  destruct (recv_spec 4 w) as (r & bs & w1 & Hrecv & _).
  rewrite (bind_Ret _ _ _ _ _ Hrecv) in E.
  destruct (r <? 0); [discriminate|].
  destruct (negb (r =? 4)); [discriminate|].
  destruct (bytes_int bs =? INT_MAX); [discriminate|].
  unfold bind at 1, malloc at 1 in E.
  destruct (negb (malloc_ok (env w1) _)); [discriminate|].
  apply bind_Killed_inv in E. destruct E as [E|(res & w2 & _ & E)].
  - apply recv_loop_inv in E. tauto.
  - destruct (bytes_int bs <? 0); discriminate.
Qed.

Lemma server_validate_exit (w w' : world) (s : Z) :
  EncServer.validate w = (Exit s, w') -> s = 1 \/ s = 2.
Proof.
  unfold EncServer.validate. cbv zeta. intros E.
  destruct (recv_spec 4 w) as (r & bs & w1 & Hrecv & _).
  rewrite (bind_Ret _ _ _ _ _ Hrecv) in E.
  destruct (r <? 0); [left; now injection E as <- _|].
  apply bind_Exit_inv in E. destruct E as [E|(n & w2 & _ & E)];
    [now apply send_Exit in E|].
  destruct (n <? 0); [left; now injection E as <- _|].
  destruct (strcmp _ _) as [d|]; [|discriminate].
  destruct (d =? 0); [discriminate|].
  right. now injection E as <- _.
Qed.

Lemma server_validate_killed (w w' : world) (sig : Z) :
  EncServer.validate w = (Killed sig, w') -> sig = SIGPIPE.
Proof.
  unfold EncServer.validate. cbv zeta. intros E.
  destruct (recv_spec 4 w) as (r & bs & w1 & Hrecv & _).
  rewrite (bind_Ret _ _ _ _ _ Hrecv) in E.
  destruct (r <? 0); [discriminate|].
  apply bind_Killed_inv in E. destruct E as [E|(n & w2 & _ & E)];
    [now apply send_Killed in E|].
  destruct (n <? 0); [discriminate|].
  destruct (strcmp _ _) as [d|]; [|discriminate].
  destruct (d =? 0); discriminate.
Qed.

Lemma client_validate_exit (w w' : world) (s : Z) :
  DecClient.validate w = (Exit s, w') -> s = 1 \/ s = 2.
Proof.
  unfold DecClient.validate. cbv zeta. intros E.
  apply bind_Exit_inv in E. destruct E as [E|(n & w1 & _ & E)];
    [now apply send_Exit in E|].
  destruct (n <? 0); [left; now injection E as <- _|].
  destruct (recv_spec 4 w1) as (r & bs & w2 & Hrecv & _).
  rewrite (bind_Ret _ _ _ _ _ Hrecv) in E.
  destruct (r <? 0); [left; now injection E as <- _|].
  destruct (strcmp _ _) as [d|]; [|discriminate].
  destruct (d =? 0); [discriminate|].
  right. now injection E as <- _.
Qed.

Lemma client_validate_killed (w w' : world) (sig : Z) :
  DecClient.validate w = (Killed sig, w') -> sig = SIGPIPE.
Proof.
  unfold DecClient.validate. cbv zeta. intros E.
  apply bind_Killed_inv in E. destruct E as [E|(n & w1 & _ & E)];
    [now apply send_Killed in E|].
  destruct (n <? 0); [discriminate|].
  destruct (recv_spec 4 w1) as (r & bs & w2 & Hrecv & _).
  rewrite (bind_Ret _ _ _ _ _ Hrecv) in E.
  destruct (r <? 0); [discriminate|].
  destruct (strcmp _ _) as [d|]; [|discriminate].
  destruct (d =? 0); discriminate.
Qed.

Lemma handleOtpComm_exit (fuel : nat) (w w' : world) (s : Z) :
  EncServer.handleOtpComm fuel w = (Exit s, w') -> s = 1.
Proof.
  unfold EncServer.handleOtpComm, EncServer.receive, EncServer.sendData. intros E.
  apply bind_Exit_inv in E. destruct E as [E|(text & w1 & _ & E)];
    [now apply receive_exit in E|].
  apply bind_Exit_inv in E. destruct E as [E|(key & w2 & _ & E)];
    [now apply receive_exit in E|].
  cbv zeta in E. unfold bind at 1, malloc at 1 in E.
  destruct (negb (malloc_ok (env w2) _)); [discriminate|].
  destruct (snd (Cipher.otp text key)) as [result|]; [|discriminate].
  apply bind_Exit_inv in E. destruct E as [E|(u & w3 & _ & E)];
    [now apply sendData_exit in E | discriminate].
Qed.

Lemma handleOtpComm_killed (fuel : nat) (w w' : world) (sig : Z) :
  EncServer.handleOtpComm fuel w = (Killed sig, w') -> sig = SIGPIPE.
Proof.
  unfold EncServer.handleOtpComm, EncServer.receive, EncServer.sendData. intros E.
  apply bind_Killed_inv in E. destruct E as [E|(text & w1 & _ & E)];
    [now apply receive_killed in E|].
  apply bind_Killed_inv in E. destruct E as [E|(key & w2 & _ & E)];
    [now apply receive_killed in E|].
  cbv zeta in E. unfold bind at 1, malloc at 1 in E.
  destruct (negb (malloc_ok (env w2) _)); [discriminate|].
  destruct (snd (Cipher.otp text key)) as [result|]; [|discriminate].
  apply bind_Killed_inv in E. destruct E as [E|(u & w3 & _ & E)];
    [now apply sendData_killed in E | discriminate].
Qed.

Lemma worker_outcome (fuel : nat) (w : world) :
  match fst (EncServer.worker fuel w) with
  | Ret _ => False
  | Exit s => s = 0 \/ s = 1 \/ s = 2
  | Killed sig => sig = SIGPIPE
  | Undef | Running => True
  end.
Proof.
  destruct (EncServer.worker fuel w) as [[u|s| | |sig] w'] eqn:E; cbn [fst]; auto.
  - unfold EncServer.worker in E.
    apply bind_Ret_inv in E. destruct E as (a & w1 & _ & E).
    apply bind_Ret_inv in E. destruct E as (b & w2 & _ & E). discriminate.
  - unfold EncServer.worker in E.
    apply bind_Exit_inv in E. destruct E as [E|(a & w1 & _ & E)].
    { apply server_validate_exit in E. tauto. }
    apply bind_Exit_inv in E. destruct E as [E|(b & w2 & _ & E)].
    { apply handleOtpComm_exit in E. tauto. }
    injection E as <- _. tauto.
  - unfold EncServer.worker in E.
    apply bind_Killed_inv in E. destruct E as [E|(a & w1 & _ & E)].
    { now apply server_validate_killed in E. }
    apply bind_Killed_inv in E. destruct E as [E|(b & w2 & _ & E)].
    { now apply handleOtpComm_killed in E. }
    discriminate.
Qed.

(** X14 - How a worker can end: whatever the peer and the transport do,
    the child process that serves a connection never returns from its
    code; whenever it calls [exit] the status is 0, 1 or 2; and the only
    signal that ends it is SIGPIPE, raised by a [send] on a connection the
    peer has closed.  (It can also stay in a call that does not return,
    or run into undefined behaviour.) *)
Theorem worker_exit_status (fuel : nat) (w : world) :
  (forall u, fst (EncServer.worker fuel w) <> Ret u)
  /\ (forall s, fst (EncServer.worker fuel w) = Exit s -> s = 0 \/ s = 1 \/ s = 2)
  /\ (forall sig, fst (EncServer.worker fuel w) = Killed sig -> sig = SIGPIPE).
Proof.
  pose proof (worker_outcome fuel w) as H.
  destruct (fst (EncServer.worker fuel w)) as [u|s| | |sig]; repeat split;
    try discriminate; try contradiction.
  - intros s' [= <-]. exact H.
  - intros sig' [= <-]. exact H.
Qed.

(** ** The listener *)

Lemma closes_fields (n : nat) (w : world) :
  net (closes n w) = net w ++ repeat OpClose n
  /\ wire (closes n w) = wire w /\ rx (closes n w) = rx w
  /\ tx (closes n w) = tx w /\ stderr (closes n w) = stderr w
  /\ env (closes n w) = env w.
Proof.
  unfold closes. induction n as [|n (H1 & H2 & H3 & H4 & H5 & H6)].
  - cbn. rewrite app_nil_r. repeat split.
  - rewrite Nat.iter_succ. cbn [net wire rx tx stderr env log_net].
    rewrite H1, H2, H3, H4, H5, H6, <- app_assoc.
    repeat split. f_equal. change [OpClose] with (repeat OpClose 1).
    rewrite <- repeat_app. f_equal. lia.
Qed.

(** [n] connections handed to children: the parent has closed its copy of
    each socket and is back at [accept]. *)
Lemma accept_loop_parent (n fuel : nat) (tail : list EncServer.accept_event)
  (w : world) :
  EncServer.accept_loop (n + fuel) (repeat (EncServer.Accepted EncServer.ForkParent) n ++ tail) w
  = EncServer.accept_loop fuel tail (closes n w).
Proof.
  revert w. induction n as [|n IH]; intros w; [reflexivity|].
  cbn [Nat.add repeat app EncServer.accept_loop].
  unfold bind, close. rewrite IH. f_equal.
  unfold closes. now rewrite <- Nat.iter_succ_r.
Qed.

Lemma startup_ok (argv : list string) (w : world) :
  (2 <= length argv)%nat -> socket_ok (env w) = true -> bind_ok (env w) = true ->
  EncServer.main_startup argv w
  = (Ret tt, log_net OpListen (log_net OpBind (log_net OpSocket w))).
Proof.
  intros Hargc Hs Hb. unfold EncServer.main_startup. cbv zeta.
  destruct (Z.ltb_spec (Z.of_nat (length argv)) 2); [lia|].
  unfold bind, socket, bind_socket, listen.
  rewrite Hs. cbn [Z.ltb Z.compare env log_net]. rewrite Hb. reflexivity.
Qed.

(** X15 - The listener and its failures.  After a start-up that succeeds
    and [n] connections handed to children, the parent has closed its [n]
    copies of the connection sockets and has sent and received nothing on
    them; if the next [accept] fails the whole server exits with status 1
    after "Unable to accept connection", if the next [fork] fails it exits
    with status 1 after "Unable to fork child", and if no connection
    arrives it stays in [accept]. *)
Theorem listener_failures (n fuel : nat) (argv : list string)
  (tail : list EncServer.accept_event) (w : world) :
  (2 <= length argv)%nat -> socket_ok (env w) = true -> bind_ok (env w) = true ->
  let parents := repeat (EncServer.Accepted EncServer.ForkParent) n in
  let w' := closes n (log_net OpListen (log_net OpBind (log_net OpSocket w))) in
  net w' = net w ++ [OpSocket; OpBind; OpListen] ++ repeat OpClose n
  /\ wire w' = wire w /\ rx w' = rx w
  /\ EncServer.main (n + S fuel) argv (parents ++ EncServer.AcceptFails :: tail) w
     = (Exit 1, put_stderr ("Unable to accept connection"%string, []) w')
  /\ EncServer.main (n + S fuel) argv
       (parents ++ EncServer.Accepted EncServer.ForkFails :: tail) w
     = (Exit 1, put_stderr ("Unable to fork child"%string, []) w')
  /\ EncServer.main (n + S fuel) argv parents w = (Running, w').
Proof.
  intros Hargc Hs Hb parents w'.
  destruct (closes_fields n (log_net OpListen (log_net OpBind (log_net OpSocket w))))
    as (Hnet & Hwire & Hrx & _).
  fold w' in Hnet, Hwire, Hrx.
  split; [rewrite Hnet; cbn [net log_net]; now rewrite <- !app_assoc|].
  split; [exact Hwire|]. split; [exact Hrx|].
  unfold EncServer.main.
  rewrite !(bind_Ret _ _ _ _ _ (startup_ok argv w Hargc Hs Hb)).
  unfold parents. split; [|split].
  - unfold bind at 1. now rewrite accept_loop_parent.
  - unfold bind at 1. now rewrite accept_loop_parent.
  - unfold bind at 1.
    rewrite <- (app_nil_r (repeat _ n)), accept_loop_parent. reflexivity.
Qed.

Lemma listener_failures_witness :
  EncServer.main 3 ["enc_server"; "5000"]%string
    [EncServer.Accepted EncServer.ForkParent; EncServer.Accepted EncServer.ForkParent;
     EncServer.AcceptFails]
    (start (fair no_files) [] [])
  = (Exit 1,
     put_stderr ("Unable to accept connection"%string, [])
       (closes 2
          (log_net OpListen (log_net OpBind (log_net OpSocket (start (fair no_files) [] [])))))).
Proof.
  destruct (listener_failures 2 0 ["enc_server"; "5000"]%string []
              (start (fair no_files) [] []))
    as (_ & _ & _ & H & _).
  - simpl. lia.
  - reflexivity.
  - reflexivity.
  - exact H.
Defined.

(** X16 - The server never returns from [main]: whatever the arguments,
    the connections, the peers and the transport, no process of the
    server reaches the two statements after the loop; whenever a process
    of the server calls [exit] the status is 0 (a child that served its
    connection), 1 or 2; and the only signal that ends one is SIGPIPE,
    raised by a [send] on a connection the peer has closed.  (A process
    can also stay in [accept] or in a call that does not return, or run
    into undefined behaviour.) *)
Theorem server_never_returns (fuel : nat) (argv : list string)
  (conns : list EncServer.accept_event) (w : world) :
  (forall v, fst (EncServer.main fuel argv conns w) <> Ret v)
  /\ (forall s, fst (EncServer.main fuel argv conns w) = Exit s ->
                s = 0 \/ s = 1 \/ s = 2)
  /\ (forall sig, fst (EncServer.main fuel argv conns w) = Killed sig ->
                  sig = SIGPIPE).
Proof.
  assert (Hloop : forall f c w0,
            match fst (EncServer.accept_loop f c w0) with
            | Ret _ => False
            | Exit s => s = 0 \/ s = 1 \/ s = 2
            | Killed sig => sig = SIGPIPE
            | Undef | Running => True
            end).
  { induction f as [|f IH]; intros c w0; [exact I|].
    cbn [EncServer.accept_loop].
    destruct c as [|[|[| |]] c].
    - exact I.
    - cbn. tauto.
    - cbn. tauto.
    - unfold bind, close. apply IH.
    - apply worker_outcome. }
  assert (Hstart : forall s w0, EncServer.main_startup argv w = (Exit s, w0) -> s = 1).
  { unfold EncServer.main_startup. cbv zeta. intros s w0.
    destruct (Z.of_nat (length argv) <? 2); [now intros [= <- _]|].
    unfold bind, socket, bind_socket, listen.
    destruct (socket_ok (env w)); cbn [Z.ltb Z.compare];
      [|now intros [= <- _]].
    cbn [env log_net]. destruct (bind_ok (env w)); cbn [Z.ltb Z.compare];
      [discriminate | now intros [= <- _]]. }
  assert (Hquiet : forall sig w0, EncServer.main_startup argv w <> (Killed sig, w0)).
  { unfold EncServer.main_startup. cbv zeta. intros sig w0.
    destruct (Z.of_nat (length argv) <? 2); [discriminate|].
    unfold bind, socket, bind_socket, listen.
    destruct (socket_ok (env w)); cbn [Z.ltb Z.compare]; [|discriminate].
    cbn [env log_net]. destruct (bind_ok (env w)); cbn [Z.ltb Z.compare];
      discriminate. }
  destruct (EncServer.main fuel argv conns w) as [[v|s| | |sig] w'] eqn:E; cbn [fst];
    (split; [|split]); try discriminate.
  - intros v' _. unfold EncServer.main in E.
    apply bind_Ret_inv in E. destruct E as (a & w1 & _ & E).
    apply bind_Ret_inv in E. destruct E as (b & w2 & E & _).
    specialize (Hloop fuel conns w1). now rewrite E in Hloop.
  - intros s' [= <-]. unfold EncServer.main in E.
    apply bind_Exit_inv in E. destruct E as [E|(a & w1 & _ & E)].
    { apply Hstart in E. tauto. }
    apply bind_Exit_inv in E. destruct E as [E|(b & w2 & E & _)].
    + specialize (Hloop fuel conns w1). now rewrite E in Hloop.
    + specialize (Hloop fuel conns w1). now rewrite E in Hloop.
  - intros sig' [= <-]. unfold EncServer.main in E.
    apply bind_Killed_inv in E. destruct E as [E|(a & w1 & _ & E)].
    { now apply Hquiet in E. }
    apply bind_Killed_inv in E. destruct E as [E|(b & w2 & E & _)].
    + specialize (Hloop fuel conns w1). now rewrite E in Hloop.
    + specialize (Hloop fuel conns w1). now rewrite E in Hloop.
Qed.

(** ** More on the file reader *)

(** However the loop of [stringFromFile] ends, it has touched nothing but
    standard error, and the only status it exits with is 0. *)
Lemma read_loop_inv (path : string) (rest : list Z) (len i : Z) (acc : list Z)
  (w w' : world) (o : outcome (list Z)) :
  DecClient.read_loop path rest len i acc w = (o, w') ->
  net w' = net w /\ wire w' = wire w /\ rx w' = rx w /\ tx w' = tx w
  /\ stdout w' = stdout w /\ env w' = env w
  /\ match o with Exit s => s = 0 | Killed _ => False | _ => True end.
Proof.
  revert i acc. induction rest as [|b rest IH]; intros i acc;
    rewrite read_loop_unfold; cbv zeta.
  - destruct (to_size_t i <? len).
    + rewrite eof_invalid. intros [= <- <-]. repeat split.
    + intros [= <- <-]. repeat split.
  - destruct (to_size_t i <? len).
    + cbn [DecClient.fgetc].
      destruct (DecClient.invalid_char (to_char b)).
      * intros [= <- <-]. repeat split.
      * destruct (i =? INT_MAX); [intros [= <- <-]; repeat split | apply IH].
    + intros [= <- <-]. repeat split.
Qed.

Lemma stringFromFile_quiet (path : string) (w w' : world) (o : outcome (list Z)) :
  DecClient.stringFromFile path w = (o, w') ->
  net w' = net w /\ wire w' = wire w /\ rx w' = rx w /\ tx w' = tx w
  /\ stdout w' = stdout w /\ env w' = env w
  /\ match o with Exit s => s = 0 | Killed _ => False | _ => True end.
Proof.
  unfold DecClient.stringFromFile.
  destruct (files (env w) path) as [content|]; [|intros [= <- <-]; repeat split].
  unfold bind at 1, malloc at 1.
  destruct (malloc_ok (env w) _); cbn [negb]; [|intros [= <- <-]; repeat split].
  unfold bind.
  destruct (DecClient.read_loop path content _ 0 [] w) as [[r|s| | |sig] w1] eqn:E;
    apply read_loop_inv in E; intros [= <- <-]; exact E.
Qed.

Lemma stringFromFile_killed (path : string) (w w' : world) (sig : Z) :
  DecClient.stringFromFile path w <> (Killed sig, w').
Proof. intros E. apply stringFromFile_quiet in E. tauto. Qed.

(** A run of the loop that returns has read [len - i] bytes that passed
    the test and has stored them in order. *)
Lemma read_loop_Ret_prefix (path : string) (rest : list Z) (len i : Z)
  (acc r : list Z) (w w' : world) :
  DecClient.read_loop path rest len i acc w = (Ret r, w') ->
  0 <= i <= INT_MAX -> i <= len ->
  exists body rest',
    rest = body ++ rest' /\ r = acc ++ map to_char body
    /\ Z.of_nat (length body) = len - i
    /\ Forall (fun b => DecClient.invalid_char (to_char b) = false) body.
Proof.
  revert i acc. induction rest as [|b rest IH]; intros i acc;
    rewrite read_loop_unfold; cbv zeta; intros H Hi Hlen;
    rewrite to_size_t_small in H by lia.
  - destruct (Z.ltb_spec i len).
    + rewrite eof_invalid in H. discriminate.
    + injection H as <- <-. exists [], []. cbn. rewrite app_nil_r.
      repeat split; [lia | constructor].
  - destruct (Z.ltb_spec i len).
    + cbn [DecClient.fgetc] in H.
      destruct (DecClient.invalid_char (to_char b)) eqn:Hb; [discriminate|].
      destruct (Z.eqb_spec i INT_MAX); [discriminate|].
      destruct (IH _ _ H) as (body & rest' & -> & -> & Hl & Hv); [lia | lia|].
      exists (b :: body), rest'. cbn [app map length].
      rewrite <- app_assoc. repeat split; [lia | now constructor].
    + injection H as <- <-. exists [], (b :: rest). cbn. rewrite app_nil_r.
      repeat split; [lia | constructor].
Qed.

(** X17 - What [stringFromFile] returns is what it validated: whenever it
    returns (for a file whose size fits the [long] of [ftell]), the file is
    not empty, the string is the file without its last byte, every
    character of it is in the alphabet, and nothing in the world has
    changed. *)
Theorem stringFromFile_sound (path : string) (content buf : list Z) (w w' : world) :
  files (env w) path = Some content ->
  Z.of_nat (length content) < 9223372036854775808 ->
  DecClient.stringFromFile path w = (Ret buf, w') ->
  exists body last,
    content = body ++ [last]
    /\ buf = map to_char body ++ [0]
    /\ Alphabet.valid (map to_char body)
    /\ w' = w.
Proof.
  intros Hfile Hsize H.
  destruct (stringFromFile_Ret _ _ _ _ H) as (-> & _).
  unfold DecClient.stringFromFile in H. rewrite Hfile in H. cbv zeta in H.
  unfold bind at 1, malloc at 1 in H.
  destruct (malloc_ok (env w) _); cbn [negb] in H; [|discriminate].
  apply bind_Ret_inv in H. destruct H as (r & w1 & Hloop & Hret).
  injection Hret as <- _.
  assert (Hlen : 0 <= to_size_t (Z.of_nat (length content) - 1))
    by (unfold to_size_t; apply Z.mod_pos_bound; lia).
  destruct (read_loop_Ret_prefix _ _ _ _ _ _ _ _ Hloop)
    as (body & rest' & Hcontent & -> & Hl & Hv); [unfold INT_MAX; lia | lia|].
  rewrite Z.sub_0_r in Hl.
  assert (Hrest : length rest' = 1%nat).
  { subst content. rewrite length_app in Hl, Hsize.
    destruct rest' as [|x rest'].
    - cbn [length] in Hl. rewrite Nat.add_0_r in Hl.
      unfold to_size_t in Hl.
      destruct (length body) as [|n].
      + cbn in Hl. discriminate.
      + rewrite Z.mod_small in Hl by lia. lia.
    - cbn [length] in Hl, Hsize. unfold to_size_t in Hl.
      rewrite Z.mod_small in Hl by lia. cbn [length]. lia. }
  destruct rest' as [|last [|? ?]]; try discriminate.
  exists body, last. split; [exact Hcontent|]. split; [reflexivity|].
  split; [|reflexivity].
  unfold Alphabet.valid. rewrite Forall_map.
  eapply Forall_impl; [|exact Hv]. cbv beta. intros b Hb.
  rewrite invalid_char_is_symbol in Hb. now destruct (Alphabet.is_symbol (to_char b)).
Qed.

Lemma stringFromFile_sound_witness :
  let w := start (fair (with_file "key" (chars "WORLD" ++ [10]) no_files)) [] [] in
  exists body last,
    chars "WORLD" ++ [10] = body ++ [last]
    /\ chars "WORLD" ++ [0] = map to_char body ++ [0]
    /\ Alphabet.valid (map to_char body)
    /\ w = w.
Proof.
  intros w.
  apply (stringFromFile_sound "key" (chars "WORLD" ++ [10]) (chars "WORLD" ++ [0]) w w).
  - reflexivity.
  - vm_compute. reflexivity.
  - reflexivity.
Defined.

(** X18 - An empty file: [ftell] is 0, [len] wraps to the largest
    [size_t], and the first [fgetc] gives [EOF].  [stringFromFile] never
    returns a string for an empty file: it exits with status 0, reporting
    the character -1 as invalid, or the allocation of zero bytes when that
    fails. *)
Theorem stringFromFile_empty_file (path : string) (w : world) :
  files (env w) path = Some [] ->
  DecClient.stringFromFile path w
  = (Exit 0,
     put_stderr
       (if malloc_ok (env w) 0
        then ("Invalid character found in file %s: %c, %d"%string,
              [ArgS path; ArgC (-1); ArgD (-1)])
        else ("Unable to allocate memory"%string, []))
       w).
Proof.
  intros Hfile. unfold DecClient.stringFromFile. rewrite Hfile. cbv zeta.
  unfold bind at 1, malloc at 1.
  change (to_size_t (to_size_t (Z.of_nat (length (@nil Z)) - 1) + 1)) with 0.
  destruct (malloc_ok (env w) 0); reflexivity.
Qed.

Lemma stringFromFile_empty_file_witness :
  fst (DecClient.stringFromFile "empty"
         (start (fair (with_file "empty" [] no_files)) [] []))
  = Exit 0.
Proof.
  rewrite (stringFromFile_empty_file "empty"
             (start (fair (with_file "empty" [] no_files)) [] []) eq_refl).
  reflexivity.
Defined.

(** ** More on the client's [main] *)

(** X19 - No call on the network before the input is validated: whatever
    the arguments and the world, a run of the client that has made any
    call on the network had its three arguments, read its text and its key
    from files that passed the test of the alphabet, and found the key at
    least as long as the text. *)
Theorem client_network_after_validation (fuel : nat) (argv : list string)
  (w : world) :
  net (snd (DecClient.main fuel argv w)) <> net w ->
  (4 <= length argv)%nat
  /\ exists text key,
       DecClient.stringFromFile (nth 1 argv EmptyString) w = (Ret text, w)
       /\ DecClient.stringFromFile (nth 2 argv EmptyString) w = (Ret key, w)
       /\ (strlen text <= strlen key)%nat.
Proof.
  unfold DecClient.main. cbv zeta. intros H.
  destruct (Z.ltb_spec (Z.of_nat (length argv)) 4);
    [exfalso; apply H; reflexivity|].
  split; [lia|].
  destruct (DecClient.stringFromFile (nth 1 argv EmptyString) w) as [o1 w1] eqn:E1.
  destruct o1 as [text|s| | |sig];
    try (exfalso; apply H; unfold bind at 1; rewrite E1; cbn [snd];
         apply stringFromFile_quiet in E1; tauto).
  destruct (stringFromFile_Ret _ _ _ _ E1) as (-> & _).
  rewrite (bind_Ret _ _ _ _ _ E1) in H.
  destruct (DecClient.stringFromFile (nth 2 argv EmptyString) w) as [o2 w2] eqn:E2.
  destruct o2 as [key|s| | |sig];
    try (exfalso; apply H; unfold bind at 1; rewrite E2; cbn [snd];
         apply stringFromFile_quiet in E2; tauto).
  destruct (stringFromFile_Ret _ _ _ _ E2) as (-> & _).
  rewrite (bind_Ret _ _ _ _ _ E2) in H.
  exists text, key. split; [reflexivity|]. split; [reflexivity|].
  destruct (Z.gtb_spec (Z.of_nat (strlen text)) (Z.of_nat (strlen key)));
    [exfalso; apply H; reflexivity | lia].
Qed.

Lemma client_network_after_validation_witness :
  let fs := with_file "text" (chars "HELLO" ++ [10])
              (with_file "key" (chars "WORLD" ++ [10]) no_files) in
  let w := start (fair fs) [] [] in
  (4 <= length ["dec_client"; "text"; "key"; "5000"]%string)%nat
  /\ exists text key,
       DecClient.stringFromFile "text" w = (Ret text, w)
       /\ DecClient.stringFromFile "key" w = (Ret key, w)
       /\ (strlen text <= strlen key)%nat.
Proof.
  intros fs w.
  apply (client_network_after_validation 1 ["dec_client"; "text"; "key"; "5000"]%string w).
  vm_compute. discriminate.
Defined.

Lemma setupAddressStruct_exit (host : string) (w w' : world) (s : Z) :
  DecClient.setupAddressStruct host w = (Exit s, w') -> s = 0.
Proof.
  unfold DecClient.setupAddressStruct. destruct (host_ok (env w)); [discriminate|].
  now intros [= <- _].
Qed.

(** X20 - How the client can end: whatever the arguments, the files, the
    peer and the transport, [main] returns only the value 0; whenever the
    client calls [exit] the status is 0, 1 or 2; and the only signal that
    ends it is SIGPIPE, raised by a [send] on a connection the peer has
    closed.  (It can also stay in a call that does not return, or run into
    undefined behaviour.) *)
Theorem client_exit_status (fuel : nat) (argv : list string) (w : world) :
  (forall v, fst (DecClient.main fuel argv w) = Ret v -> v = 0)
  /\ (forall s, fst (DecClient.main fuel argv w) = Exit s ->
                s = 0 \/ s = 1 \/ s = 2)
  /\ (forall sig, fst (DecClient.main fuel argv w) = Killed sig -> sig = SIGPIPE).
Proof.
  destruct (DecClient.main fuel argv w) as [o w'] eqn:E. cbn [fst].
  unfold DecClient.main in E. cbv zeta in E.
  destruct (Z.of_nat (length argv) <? 4).
  { injection E as <- _.
    split; [discriminate | split; [intros s [= <-]; tauto | discriminate]]. }
  split; [|split].
  - intros v ->.
    repeat (apply bind_Ret_inv in E; destruct E as (? & ? & _ & E);
            try match type of E with
                | (if ?c then _ else _) _ = _ => destruct c; [discriminate|]
                end).
    now injection E as <-.
  - intros s ->.
    apply bind_Exit_inv in E. destruct E as [E|(text & w1 & _ & E)].
    { apply stringFromFile_quiet in E. tauto. }
    apply bind_Exit_inv in E. destruct E as [E|(key & w2 & _ & E)].
    { apply stringFromFile_quiet in E. tauto. }
    destruct (Z.of_nat (strlen text) >? Z.of_nat (strlen key)).
    { injection E as <- _. tauto. }
    apply bind_Exit_inv in E. destruct E as [E|(sock & w3 & _ & E)];
      [discriminate|].
    destruct (sock <? 0). { injection E as <- _. tauto. }
    apply bind_Exit_inv in E. destruct E as [E|(u & w4 & _ & E)].
    { apply setupAddressStruct_exit in E. tauto. }
    apply bind_Exit_inv in E. destruct E as [E|(c & w5 & _ & E)];
      [discriminate|].
    destruct (c <? 0). { injection E as <- _. tauto. }
    apply bind_Exit_inv in E. destruct E as [E|(u1 & w6 & _ & E)].
    { apply client_validate_exit in E. tauto. }
    apply bind_Exit_inv in E. destruct E as [E|(u2 & w7 & _ & E)].
    { apply sendData_exit in E. tauto. }
    apply bind_Exit_inv in E. destruct E as [E|(u3 & w8 & _ & E)].
    { apply sendData_exit in E. tauto. }
    apply bind_Exit_inv in E. destruct E as [E|(res & w9 & _ & E)].
    { apply receive_exit in E. tauto. }
    apply bind_Exit_inv in E. destruct E as [E|(u4 & w10 & _ & E)];
      [discriminate|].
    apply bind_Exit_inv in E. destruct E as [E|(u5 & w11 & _ & E)];
      discriminate.
  - intros sig ->.
    apply bind_Killed_inv in E. destruct E as [E|(text & w1 & _ & E)].
    { now apply stringFromFile_killed in E. }
    apply bind_Killed_inv in E. destruct E as [E|(key & w2 & _ & E)].
    { now apply stringFromFile_killed in E. }
    destruct (Z.of_nat (strlen text) >? Z.of_nat (strlen key)); [discriminate|].
    apply bind_Killed_inv in E. destruct E as [E|(sock & w3 & _ & E)];
      [discriminate|].
    destruct (sock <? 0); [discriminate|].
    apply bind_Killed_inv in E. destruct E as [E|(u & w4 & _ & E)].
    { unfold DecClient.setupAddressStruct in E.
      destruct (host_ok (env w3)); discriminate. }
    apply bind_Killed_inv in E. destruct E as [E|(c & w5 & _ & E)];
      [discriminate|].
    destruct (c <? 0); [discriminate|].
    apply bind_Killed_inv in E. destruct E as [E|(u1 & w6 & _ & E)].
    { now apply client_validate_killed in E. }
    apply bind_Killed_inv in E. destruct E as [E|(u2 & w7 & _ & E)].
    { now apply sendData_killed in E. }
    apply bind_Killed_inv in E. destruct E as [E|(u3 & w8 & _ & E)].
    { now apply sendData_killed in E. }
    apply bind_Killed_inv in E. destruct E as [E|(res & w9 & _ & E)].
    { now apply receive_killed in E. }
    apply bind_Killed_inv in E. destruct E as [E|(u4 & w10 & _ & E)];
      [discriminate|].
    apply bind_Killed_inv in E. destruct E as [E|(u5 & w11 & _ & E)];
      discriminate.
Qed.

(** [stringFromFile] on a file whose bytes before the last are in the
    alphabet. *)
Lemma stringFromFile_reads (path : string) (w : world) (body : list Z) (last : Z) :
  files (env w) path = Some (body ++ [last]) ->
  malloc_ok (env w) (Z.of_nat (length body) + 1) = true ->
  Z.of_nat (length body) < INT_MAX ->
  Alphabet.valid body ->
  DecClient.stringFromFile path w = (Ret (body ++ [0]), w).
Proof.
  intros Hfile Hmalloc Hsize Hbody.
  destruct (valid_chars_bytes body Hbody) as [Hchars _].
  change (map char_of_byte body) with (map to_char body) in Hchars.
  assert (Hvalid : Forall (fun b => DecClient.invalid_char (to_char b) = false) body).
  { rewrite <- Hchars in Hbody. unfold Alphabet.valid in Hbody.
    rewrite Forall_map in Hbody.
    eapply Forall_impl; [|exact Hbody]. cbv beta. intros c Hc.
    now rewrite invalid_char_is_symbol, Hc. }
  unfold DecClient.stringFromFile. rewrite Hfile. cbv zeta.
  rewrite length_app. cbn [length].
  replace (Z.of_nat (length body + 1) - 1) with (Z.of_nat (length body)) by lia.
  rewrite (to_size_t_small (Z.of_nat (length body))) by lia.
  rewrite to_size_t_small by lia.
  unfold bind at 1, malloc at 1. rewrite Hmalloc. cbn [negb].
  erewrite bind_Ret; [|apply read_loop_body; [exact Hvalid | lia | lia | lia]].
  cbn [app]. now rewrite Hchars.
Qed.

Lemma sendData_stdout (data : list Z) (w : world) :
  stdout (snd (Framing.sendData data w)) = stdout w.
Proof.
  unfold Framing.sendData. cbv zeta.
  destruct (send_spec (int_bytes (to_int (Z.of_nat (strlen data)))) w)
    as (o & w1 & Hsend & _ & _ & Hout & _ & _ & Hcase).
  unfold bind at 1. rewrite Hsend.
  destruct Hcase as [(r & -> & Hr & _)|[(-> & _)|[(-> & _)|(-> & _)]]];
    try exact Hout.
  destruct (Z.ltb_spec r 0); [lia|].
  destruct (send_loop_outcome (S (Z.to_nat (to_int (Z.of_nat (strlen data))))) data
              (to_int (Z.of_nat (strlen data))) 0 w1)
    as (w2 & ops & _ & _ & _ & Hout2 & _ & [[E _]|[[E _]|[[E _]|[E _]]]]); [lia | | | | ];
    rewrite E; cbn [snd]; congruence.
Qed.

Lemma sendData_valid (s : list Z) (w : world) :
  Alphabet.valid s -> Z.of_nat (length s) <= INT_MAX -> tx w = [] ->
  exists w',
    Framing.sendData (s ++ [0]) w = (Ret tt, w')
    /\ wire w' = wire w ++ int_bytes (Z.of_nat (length s)) ++ s
    /\ tx w' = [] /\ rx w' = rx w /\ stderr w' = stderr w /\ env w' = env w
    /\ stdout w' = stdout w.
Proof.
  intros Hs Hmax Htx.
  pose proof (sendData_stdout (s ++ [0]) w) as Hout.
  destruct (valid_chars_bytes s Hs) as [_ Hb].
  destruct (sendData_whole (s ++ [0]) w Htx)
    as (w' & ops & Hsend & Hwire & _ & _ & Htx' & Hrx' & Herr' & Henv').
  { rewrite strlen_terminated by now apply valid_nonzero. lia. }
  rewrite strlen_terminated in Hwire by now apply valid_nonzero.
  rewrite firstn_app, Nat.sub_diag, firstn_all in Hwire.
  cbn [firstn] in Hwire. rewrite app_nil_r, Hb in Hwire.
  rewrite Hsend in Hout. cbn [snd] in Hout.
  exists w'. repeat split; assumption.
Qed.

(** The client's [validate] on a stream that delivers the peer's tag
    whole. *)
Lemma client_validate_stream (w : world) (more : list Z) :
  tx w = [] -> rx_clean (rx w) -> whole 4 (rx w) = true ->
  rx_bytes (rx w) = (chars "dec" ++ [0]) ++ more ->
  DecClient.validate w
  = (Ret tt,
     log_net (OpRecv 4 4)
       (set_rx (drop_rx 4 (rx w))
          (log_net (OpSend (chars "dec" ++ [0]) 4)
             (put_wire (chars "dec" ++ [0]) w)))).
Proof.
  intros Htx Hclean Hwhole Hbytes. unfold DecClient.validate. cbv zeta.
  erewrite bind_Ret by (apply send_whole; exact Htx).
  cbn -[send recv close strcmp].
  set (w0 := log_net (OpSend (chars "dec" ++ [0]) 4) (put_wire (chars "dec" ++ [0]) w)).
  pose proof (recv_whole 4 (chars "dec" ++ [0]) more w0 Hclean Hwhole
                ltac:(lia) Hbytes eq_refl) as Hrecv.
  change (Z.of_nat 4) with 4 in Hrecv.
  rewrite (bind_Ret _ _ _ _ _ Hrecv).
  reflexivity.
Qed.

(** X21 - One request served.  The client is started with its three
    arguments; the text file and the key file hold symbols of the alphabet
    followed by one more byte, the key at least as long as the text;
    socket, host and connection are there, allocations succeed and the
    transport takes every write whole.  The stream from the peer has no
    error and carries the tag "dec", then one framed message of symbols of
    the alphabet, then anything; it is cut into segments in any way that
    leaves the four bytes of the tag and of the length prefix within one
    segment (the code reads each of them with one [recv]).  Then [main]
    sends the tag "dec", the text and the key as two framed messages in
    this order, prints the message it received as one line, leaves what
    follows the message on the stream, reports no error and returns 0. *)
Theorem client_request (fuel : nat) (argv : list string) (T K R more : list Z)
  (lT lK : Z) (w : world) :
  (4 <= length argv)%nat ->
  files (env w) (nth 1 argv EmptyString) = Some (T ++ [lT]) ->
  files (env w) (nth 2 argv EmptyString) = Some (K ++ [lK]) ->
  Alphabet.valid T -> Alphabet.valid K -> Alphabet.valid R ->
  (length T <= length K)%nat ->
  Z.of_nat (length K) < INT_MAX -> Z.of_nat (length R) < INT_MAX ->
  socket_ok (env w) = true -> host_ok (env w) = true -> connect_ok (env w) = true ->
  (forall n, malloc_ok (env w) n = true) ->
  tx w = [] ->
  rx_clean (rx w) ->
  rx_bytes (rx w)
  = (chars "dec" ++ [0]) ++ (int_bytes (Z.of_nat (length R)) ++ R) ++ more ->
  whole 4 (rx w) = true ->
  whole 4 (drop_rx 4 (rx w)) = true ->
  (length R < fuel)%nat ->
  exists w',
    DecClient.main fuel argv w = (Ret 0, w')
    /\ stdout w' = stdout w ++ [R]
    /\ wire w'
       = wire w ++ (chars "dec" ++ [0])
           ++ (int_bytes (Z.of_nat (length T)) ++ T)
           ++ (int_bytes (Z.of_nat (length K)) ++ K)
    /\ rx w' = drop_rx (8 + length R) (rx w)
    /\ rx_bytes (rx w') = more
    /\ stderr w' = stderr w.
Proof.
  intros Hargc HfT HfK HT HK HR Hlen HmaxK HmaxR Hsock Hhost Hconn Hmalloc
    Htx Hclean Hbytes Htag HpR Hfuel.
  pose proof (stringFromFile_reads _ w T lT HfT (Hmalloc _)) as HrT.
  pose proof (stringFromFile_reads _ w K lK HfK (Hmalloc _) HmaxK HK) as HrK.
  specialize (HrT ltac:(lia) HT).
  set (w1 := log_net OpConnect (log_net (OpResolve "localhost") (log_net OpSocket w))).
  pose proof (client_validate_stream w1 _ Htx Hclean Htag Hbytes) as Hval.
  change (rx w1) with (rx w) in Hval.
  set (w2 := log_net (OpRecv 4 4)
               (set_rx (drop_rx 4 (rx w))
                  (log_net (OpSend (chars "dec" ++ [0]) 4)
                     (put_wire (chars "dec" ++ [0]) w1)))) in Hval.
  assert (Hrx2 : rx w2 = drop_rx 4 (rx w)) by reflexivity.
  destruct (sendData_valid T w2 HT ltac:(lia) Htx)
    as (w3 & Hs3 & Hwire3 & Htx3 & Hrx3 & Herr3 & Henv3 & Hout3).
  destruct (sendData_valid K w3 HK ltac:(lia) Htx3)
    as (w4 & Hs4 & Hwire4 & Htx4 & Hrx4 & Herr4 & Henv4 & Hout4).
  assert (Hrx4' : rx w4 = drop_rx 4 (rx w)) by now rewrite Hrx4, Hrx3.
  destruct (receive_stream fuel R more w4)
    as (w5 & Hr5 & Hrx5 & _ & Hwire5 & Herr5 & Hout5 & _).
  { rewrite Hrx4'. now apply drop_rx_clean. }
  { now rewrite Hrx4'. }
  { rewrite Hrx4', drop_rx_bytes, Hbytes by exact Hclean.
    rewrite skipn_prefix by reflexivity. now rewrite <- app_assoc. }
  { exact HmaxR. }
  { rewrite Henv4, Henv3. apply Hmalloc. }
  { exact Hfuel. }
  rewrite Hrx4', drop_rx_add in Hrx5.
  replace (4 + (4 + length R))%nat with (8 + length R)%nat in Hrx5 by lia.
  destruct (valid_chars_bytes R HR) as [HcR _]. rewrite HcR in Hr5.
  exists (log_net OpClose (put_stdout R w5)).
  split; [|split; [|split; [|split; [|split]]]].
  - unfold DecClient.main. cbv zeta.
    destruct (Z.ltb_spec (Z.of_nat (length argv)) 4); [lia|].
    rewrite (bind_Ret _ _ _ _ _ HrT), (bind_Ret _ _ _ _ _ HrK).
    rewrite !strlen_terminated by now apply valid_nonzero.
    destruct (Z.gtb_spec (Z.of_nat (length T)) (Z.of_nat (length K))); [lia|].
    unfold bind at 1, socket at 1. rewrite Hsock. cbn [Z.ltb Z.compare].
    unfold bind at 1, DecClient.setupAddressStruct at 1.
    cbn [env log_net]. rewrite Hhost.
    unfold bind at 1, connect at 1. cbn [env log_net]. rewrite Hconn.
    cbn [Z.ltb Z.compare]. fold w1.
    rewrite (bind_Ret _ _ _ _ _ Hval).
    unfold DecClient.sendData, DecClient.receive.
    rewrite (bind_Ret _ _ _ _ _ Hs3), (bind_Ret _ _ _ _ _ Hs4).
    rewrite (bind_Ret _ _ _ _ _ Hr5).
    unfold bind, DecClient.print_line, close, ret.
    rewrite strlen_terminated by now apply valid_nonzero.
    rewrite firstn_app, Nat.sub_diag, firstn_all. cbn [firstn].
    now rewrite app_nil_r.
  - cbn [stdout log_net put_stdout]. now rewrite Hout5, Hout4, Hout3.
  - cbn [wire log_net put_stdout]. rewrite Hwire5, Hwire4, Hwire3.
    unfold w2, w1. cbn [wire log_net put_wire set_rx].
    now rewrite <- !app_assoc.
  - cbn [rx log_net put_stdout]. exact Hrx5.
  - cbn [rx log_net put_stdout].
    rewrite Hrx5, drop_rx_bytes, Hbytes by exact Hclean.
    rewrite !app_assoc. apply skipn_prefix.
    rewrite !length_app, length_int_bytes. simpl. lia.
  - cbn [stderr log_net put_stdout]. now rewrite Herr5, Herr4, Herr3.
Qed.

Lemma client_request_witness :
  let fs := with_file "text" (chars "CSBWR" ++ [10])
              (with_file "key" (chars "WORLD" ++ [10]) no_files) in
  let argv := ["dec_client"; "text"; "key"; "5000"]%string in
  let coalesced :=
    [RxData ((chars "dec" ++ [0]) ++ (int_bytes 5 ++ chars "HELLO") ++ chars "NEXT")] in
  let cut :=
    [RxData []; RxData (chars "dec" ++ [0]); RxData (int_bytes 5 ++ chars "HE");
     RxData (chars "LL"); RxData (chars "ONE"); RxData (chars "XT")] in
  (exists w',
      DecClient.main 6 argv (start (fair fs) coalesced []) = (Ret 0, w')
      /\ stdout w' = [] ++ [chars "HELLO"]
      /\ wire w' = [] ++ (chars "dec" ++ [0])
                     ++ (int_bytes 5 ++ chars "CSBWR") ++ (int_bytes 5 ++ chars "WORLD")
      /\ rx w' = [RxData (chars "NEXT")]
      /\ rx_bytes (rx w') = chars "NEXT"
      /\ stderr w' = [])
  /\ (exists w',
         DecClient.main 6 argv (start (fair fs) cut []) = (Ret 0, w')
         /\ stdout w' = [] ++ [chars "HELLO"]
         /\ wire w' = [] ++ (chars "dec" ++ [0])
                        ++ (int_bytes 5 ++ chars "CSBWR") ++ (int_bytes 5 ++ chars "WORLD")
         /\ rx w' = [RxData (chars "NE"); RxData (chars "XT")]
         /\ rx_bytes (rx w') = chars "NEXT"
         /\ stderr w' = []).
Proof.
  intros fs argv coalesced cut. split.
  - apply (client_request 6 argv (chars "CSBWR") (chars "WORLD") (chars "HELLO")
             (chars "NEXT") 10 10 (start (fair fs) coalesced [])).
    + simpl. lia.
    + reflexivity.
    + reflexivity.
    + repeat constructor.
    + repeat constructor.
    + repeat constructor.
    + simpl. lia.
    + vm_compute. reflexivity.
    + vm_compute. reflexivity.
    + reflexivity.
    + reflexivity.
    + reflexivity.
    + reflexivity.
    + reflexivity.
    + repeat constructor; discriminate.
    + reflexivity.
    + reflexivity.
    + reflexivity.
    + simpl. lia.
  - apply (client_request 6 argv (chars "CSBWR") (chars "WORLD") (chars "HELLO")
             (chars "NEXT") 10 10 (start (fair fs) cut [])).
    + simpl. lia.
    + reflexivity.
    + reflexivity.
    + repeat constructor.
    + repeat constructor.
    + repeat constructor.
    + simpl. lia.
    + vm_compute. reflexivity.
    + vm_compute. reflexivity.
    + reflexivity.
    + reflexivity.
    + reflexivity.
    + reflexivity.
    + reflexivity.
    + repeat constructor; discriminate.
    + reflexivity.
    + reflexivity.
    + reflexivity.
    + simpl. lia.
Defined.

(** ** keygen *)

Lemma literal_nth (k : Z) :
  0 <= k < 27 ->
  nth_error Keygen.literal (Z.to_nat k) = Some (Alphabet.symbol_of_rank k)
  /\ Alphabet.is_symbol (Alphabet.symbol_of_rank k) = true.
Proof.
  intros Hk. unfold Alphabet.symbol_of_rank.
  assert (Hm : (Z.to_nat k < 27)%nat) by lia.
  destruct (Z.to_nat k) as [|m]; [split; reflexivity|].
  do 26 (destruct m as [|m]; [split; reflexivity|]). lia.
Qed.

(** The loop of keygen with a [rand] that is never negative. *)
Lemma key_loop_symbols (rand : nat -> Z) (n i : nat) :
  (forall j, 0 <= rand j) ->
  exists key,
    Keygen.key_loop rand i n = Some key
    /\ length key = n /\ Alphabet.valid key
    /\ forall j, (j < n)%nat ->
         nth j key 0 = Alphabet.symbol_of_rank (rand (i + j)%nat mod 27).
Proof.
  intros Hrand. revert i. induction n as [|n IH]; intros i.
  - exists []. repeat split; [constructor | intros j Hj; lia].
  - cbn [Keygen.key_loop]. cbv zeta.
    rewrite Z.rem_mod_nonneg by (try apply Hrand; lia).
    pose proof (Z.mod_pos_bound (rand i) 27 ltac:(lia)) as Hk.
    destruct (Z.ltb_spec (rand i mod 27) 0); [lia|].
    destruct (literal_nth _ Hk) as [-> Hsym].
    destruct (IH (S i)) as (key & -> & Hlen & Hvalid & Hnth).
    exists (Alphabet.symbol_of_rank (rand i mod 27) :: key).
    split; [reflexivity|]. split; [simpl; now rewrite Hlen|].
    split; [now constructor|].
    intros [|j] Hj.
    + cbn [nth]. now rewrite Nat.add_0_r.
    + cbn [nth]. rewrite Hnth by lia. f_equal. f_equal. f_equal. lia.
Qed.

(** X22 - The key keygen prints: started with one argument whose value is
    a positive number [n], and with a [rand] that is never negative, keygen
    exits with status 0, writes nothing to standard error and prints
    exactly [n] symbols followed by one newline; the symbol at position [i]
    is the one of rank [rand() % 27] for the [i]-th call of [rand], so
    every symbol is in the 27-symbol alphabet. *)
Theorem keygen_output (rand : nat -> Z) (prog arg : string) (n : Z) :
  Keygen.atoi arg = Some n -> 0 < n -> (forall j, 0 <= rand j) ->
  exists key,
    Keygen.main rand [prog; arg]
    = Some {| Keygen.status := 0; Keygen.out := key ++ [10]; Keygen.err := [] |}
    /\ Z.of_nat (length key) = n
    /\ Alphabet.valid key
    /\ forall j, (j < length key)%nat ->
         nth j key 0 = Alphabet.symbol_of_rank (rand j mod 27).
Proof.
  intros Hatoi Hn Hrand.
  destruct (key_loop_symbols rand (Z.to_nat n) 0 Hrand)
    as (key & Hloop & Hlen & Hvalid & Hnth).
  exists key. split; [|split; [lia|split; [exact Hvalid|]]].
  - unfold Keygen.main. cbv zeta. cbn [length Z.of_nat Pos.of_succ_nat Pos.succ
      Z.eqb Pos.eqb negb nth].
    rewrite Hatoi. destruct (Z.leb_spec n 0); [lia|].
    rewrite Hloop. destruct (valid_chars_bytes key Hvalid) as [_ ->].
    reflexivity.
  - intros j Hj. rewrite Hnth by lia. reflexivity.
Qed.

Lemma keygen_output_witness :
  exists key,
    Keygen.main (fun j => Z.of_nat (26 + j)) ["keygen"; " 3"]%string
    = Some {| Keygen.status := 0; Keygen.out := key ++ [10]; Keygen.err := [] |}
    /\ Z.of_nat (length key) = 3
    /\ Alphabet.valid key
    /\ forall j, (j < length key)%nat ->
         nth j key 0 = Alphabet.symbol_of_rank (Z.of_nat (26 + j) mod 27).
Proof.
  apply (keygen_output (fun j => Z.of_nat (26 + j)) "keygen" " 3" 3).
  - reflexivity.
  - lia.
  - intros j. lia.
Defined.

(** X23 - When keygen refuses: whenever keygen ends, its status is 0 or 1;
    it is 1 exactly when the number of arguments is not one or the value
    of the argument is not positive (a non-numeric argument has the value
    0), and then it has printed the usage message on standard error and
    nothing on standard output. *)
Theorem keygen_usage (rand : nat -> Z) (argv : list string) (r : Keygen.run) :
  Keygen.main rand argv = Some r ->
  (Keygen.status r = 0 \/ Keygen.status r = 1)
  /\ (Keygen.status r = 1 <->
      (length argv <> 2%nat
       \/ exists n, Keygen.atoi (nth 1 argv EmptyString) = Some n /\ n <= 0))
  /\ (Keygen.status r = 1 ->
      Keygen.out r = []
      /\ Keygen.err r = [("Usage: %s keylength\n"%string,
                          [ArgS (nth 0 argv EmptyString)])]).
Proof.
  unfold Keygen.main. cbv zeta.
  destruct (Z.eqb_spec (Z.of_nat (length argv)) 2) as [Hargc|Hargc]; cbn [negb].
  - destruct (Keygen.atoi (nth 1 argv EmptyString)) as [n|]; [|discriminate].
    destruct (Z.leb_spec n 0) as [Hn|Hn].
    + intros [= <-]. cbn. split; [tauto|]. split; [|tauto].
      split; [intros _|reflexivity]. right. now exists n.
    + destruct (Keygen.key_loop rand 0 (Z.to_nat n)); [|discriminate].
      intros [= <-]. cbn. split; [tauto|]. split; [|discriminate].
      split; [discriminate|]. intros [H|(m & [= <-] & Hm)]; lia.
  - intros [= <-]. cbn. split; [tauto|]. split; [|tauto].
    split; [intros _|reflexivity]. left. lia.
Qed.

Lemma keygen_usage_witness :
  Keygen.status {| Keygen.status := 1; Keygen.out := [];
                   Keygen.err := [("Usage: %s keylength\n"%string, [ArgS "keygen"])] |}
  = 1
  <-> (length ["keygen"; "abc"]%string <> 2%nat
       \/ exists n, Keygen.atoi "abc" = Some n /\ n <= 0).
Proof.
  destruct (keygen_usage (fun _ => 0) ["keygen"; "abc"]%string
              {| Keygen.status := 1; Keygen.out := [];
                 Keygen.err := [("Usage: %s keylength\n"%string, [ArgS "keygen"])] |}
              eq_refl)
    as (_ & H & _).
  exact H.
Defined.

(** X24 - A key from keygen is a key for the client: the output of keygen
    for a positive length [n] below [INT_MAX], stored in a file, is read by
    [stringFromFile] without error and comes back as a string of exactly
    [n] symbols, the newline stripped. *)
Theorem keygen_key_readable (rand : nat -> Z) (prog arg path : string) (n : Z)
  (r : Keygen.run) (w : world) :
  Keygen.atoi arg = Some n -> 0 < n < INT_MAX -> (forall j, 0 <= rand j) ->
  Keygen.main rand [prog; arg] = Some r ->
  files (env w) path = Some (Keygen.out r) ->
  malloc_ok (env w) (n + 1) = true ->
  exists key,
    DecClient.stringFromFile path w = (Ret (key ++ [0]), w)
    /\ Z.of_nat (strlen (key ++ [0])) = n
    /\ Keygen.out r = key ++ [10].
Proof.
  intros Hatoi Hn Hrand Hmain Hfile Hmalloc.
  destruct (key_loop_symbols rand (Z.to_nat n) 0 Hrand)
    as (key & Hloop & Hlen & Hvalid & _).
  assert (Hout : Keygen.out r = key ++ [10]).
  { unfold Keygen.main in Hmain. cbv zeta in Hmain.
    cbn [length Z.of_nat Pos.of_succ_nat Pos.succ Z.eqb Pos.eqb negb nth] in Hmain.
    rewrite Hatoi in Hmain. destruct (Z.leb_spec n 0); [lia|].
    rewrite Hloop in Hmain. destruct (valid_chars_bytes key Hvalid) as [_ Hb].
    rewrite Hb in Hmain. now injection Hmain as <-. }
  exists key. rewrite Hout in Hfile.
  split; [|split; [|exact Hout]].
  - apply (stringFromFile_reads path w key 10 Hfile); [|lia|exact Hvalid].
    now replace (Z.of_nat (length key)) with n by lia.
  - rewrite strlen_terminated by now apply valid_nonzero. lia.
Qed.

Lemma keygen_key_readable_witness :
  let r := {| Keygen.status := 0; Keygen.out := chars "BCD" ++ [10]; Keygen.err := [] |} in
  let w := start (fair (with_file "mykey" (Keygen.out r) no_files)) [] [] in
  exists key,
    DecClient.stringFromFile "mykey" w = (Ret (key ++ [0]), w)
    /\ Z.of_nat (strlen (key ++ [0])) = 3
    /\ Keygen.out r = key ++ [10].
Proof.
  intros r w.
  apply (keygen_key_readable (fun j => Z.of_nat (1 + j)) "keygen" "3" "mykey" 3 r w).
  - reflexivity.
  - vm_compute. split; reflexivity.
  - intros j. lia.
  - reflexivity.
  - reflexivity.
  - reflexivity.
Defined.
